(** * zundacord: the dispatcher ([app.ts]) and the text normaliser ([utils.ts])

    A shallow embedding of the two source files of the bot and of the
    playback engine they drive, with the properties of the specification
    stated and proved over it.

    - [JS]      strings as sequences of UTF-16 code units, the fragment of
                regular expressions used by [utils.ts], [String.prototype.replace]
                and [String.prototype.trim];
    - [Utils]   [getReadableString];
    - [Engine]  the per-guild [Player] (the class is imported by [app.ts];
                its file is not part of the sources at hand);
    - [App]     the [Zundacord] class: registry of players, the handlers of
                messages, of [/join] and [/skip], of "Read this message"
                and of the loss of a voice connection;
    - [JSLib]   [split], the anchored [replace], template literals;
    - [Ui]      the rest of [app.ts]: start-up, the dispatch of
                interactions, the voice menu and its buttons, over the
                synthesis client and the builders of [discord.js] taken as
                parameters. *)

From Stdlib Require Import ZArith Ascii String DecimalString.
From stdpp Require Import gmap strings list.

Local Open Scope Z_scope.

(* ===================================================================== *)
(** ** JavaScript strings and regular expressions                         *)
(* ===================================================================== *)

Module JS.

(** A JavaScript string is a finite sequence of 16-bit code units. *)
Definition jsstring := list Z.

(** Code units of an ASCII literal. *)
Definition lit (s : string) : jsstring :=
  map (fun a => Z.of_N (N_of_ascii a)) (list_ascii_of_string s).

Definition chr (a : ascii) : Z := Z.of_N (N_of_ascii a).

(** [\s] and the characters stripped by [trim]: WhiteSpace and
    LineTerminator of ECMA-262 (TAB, LF, VT, FF, CR, SP, NBSP, the
    space separators Zs, LS, PS and ZWNBSP). *)
Definition is_white_space (c : Z) : bool :=
  (c =? 0x09) || (c =? 0x0A) || (c =? 0x0B) || (c =? 0x0C) || (c =? 0x0D)
  || (c =? 0x20) || (c =? 0xA0) || (c =? 0x1680)
  || ((0x2000 <=? c) && (c <=? 0x200A))
  || (c =? 0x2028) || (c =? 0x2029) || (c =? 0x202F) || (c =? 0x205F)
  || (c =? 0x3000) || (c =? 0xFEFF).

Definition is_digit (c : Z) : bool := (0x30 <=? c) && (c <=? 0x39).

(** *** Code points (the [u] flag)

    With the [u] flag a pattern is matched against code points: a high
    surrogate followed by a low surrogate is one character, any other code
    unit (a lone surrogate included) is a character of its own. *)

Definition is_high_surrogate (c : Z) : bool := (0xD800 <=? c) && (c <=? 0xDBFF).
Definition is_low_surrogate (c : Z) : bool := (0xDC00 <=? c) && (c <=? 0xDFFF).
Definition is_surrogate (c : Z) : bool := (0xD800 <=? c) && (c <=? 0xDFFF).

Definition pair_code_point (hi lo : Z) : Z :=
  0x10000 + (hi - 0xD800) * 0x400 + (lo - 0xDC00).

Fixpoint to_code_points (s : jsstring) : list Z :=
  match s with
  | [] => []
  | c :: t =>
      match t with
      | d :: t' =>
          if is_high_surrogate c && is_low_surrogate d
          then pair_code_point c d :: to_code_points t'
          else c :: to_code_points t
      | [] => [c]
      end
  end.

Definition encode_code_point (cp : Z) : jsstring :=
  if cp <? 0x10000 then [cp]
  else [0xD800 + (cp - 0x10000) / 0x400; 0xDC00 + (cp - 0x10000) mod 0x400].

Definition from_code_points (cps : list Z) : jsstring :=
  flat_map encode_code_point cps.

(** *** Unicode general categories

    The property escapes [\p{L}], [\p{N}], [\p{P}] and [\p{Z}] test the
    major general category of a code point.  The category of the Basic
    Latin block and of the surrogates is fixed; the rest of the Unicode
    Character Database belongs to the JavaScript engine and is taken as a
    parameter. *)

Inductive category :=
  Letter | Mark | Number | Punctuation | Symbol | Separator | Other.

Definition category_eqb (a b : category) : bool :=
  match a, b with
  | Letter, Letter | Mark, Mark | Number, Number | Punctuation, Punctuation
  | Symbol, Symbol | Separator, Separator | Other, Other => true
  | _, _ => false
  end.

Class UnicodeData := ucd_category : Z -> category.

(** U+0000..U+007F. *)
Definition basic_latin_category (c : Z) : category :=
  if (c <? 0x20) || (c =? 0x7F) then Other                     (* Cc *)
  else if c =? 0x20 then Separator                             (* Zs *)
  else if is_digit c then Number                               (* Nd *)
  else if ((0x41 <=? c) && (c <=? 0x5A)) || ((0x61 <=? c) && (c <=? 0x7A))
  then Letter                                                  (* Lu, Ll *)
  else if (c =? 0x24) || (c =? 0x2B) || (c =? 0x3C) || (c =? 0x3D)
          || (c =? 0x3E) || (c =? 0x5E) || (c =? 0x60) || (c =? 0x7C)
          || (c =? 0x7E)
  then Symbol                                                  (* Sc Sm Sk *)
  else Punctuation.                                            (* P* *)

Definition general_category `{UnicodeData} (cp : Z) : category :=
  if cp <? 0x80 then basic_latin_category cp
  else if is_surrogate cp then Other                           (* Cs *)
  else ucd_category cp.

Definition has_category `{UnicodeData} (cat : category) (cp : Z) : bool :=
  category_eqb (general_category cp) cat.

(** A table that assigns nothing outside Basic Latin; used to run the
    functions on ASCII inputs. *)
Definition basic_latin_only : UnicodeData := fun _ => Other.

(** *** Regular expressions

    The fragment used by the patterns of [utils.ts]: literal characters,
    character classes, [r?], concatenation and [class+].  Quantifiers are
    greedy and backtrack, as in ECMA-262. *)

Inductive regex :=
| Eps
| Chr (c : Z)
| Class (p : Z -> bool)
| Opt (r : regex)
| Cat (r1 r2 : regex)
| Plus (p : Z -> bool).

Fixpoint str (w : list Z) : regex :=
  match w with
  | [] => Eps
  | c :: t => Cat (Chr c) (str t)
  end.

(** [plus_greedy p s k]: one or more characters of class [p], the longest
    run first, giving characters back until the continuation [k] accepts. *)
Fixpoint plus_greedy (p : Z -> bool) (s : list Z)
    (k : list Z -> option (list Z)) : option (list Z) :=
  match s with
  | c :: t =>
      if p c then
        match plus_greedy p t k with
        | Some r => Some r
        | None => k t
        end
      else None
  | [] => None
  end.

(** [exec r s k] matches [r] at the start of [s] and passes what is left
    to [k]; the result is the input left after the whole match. *)
Fixpoint exec (r : regex) (s : list Z)
    (k : list Z -> option (list Z)) : option (list Z) :=
  match r with
  | Eps => k s
  | Chr c =>
      match s with
      | x :: t => if x =? c then k t else None
      | [] => None
      end
  | Class p =>
      match s with
      | x :: t => if p x then k t else None
      | [] => None
      end
  | Opt r' =>
      match exec r' s k with
      | Some rest => Some rest
      | None => k s
      end
  | Cat r1 r2 => exec r1 s (fun s' => exec r2 s' k)
  | Plus p => plus_greedy p s k
  end.

Definition match_here (r : regex) (s : list Z) : option (list Z) :=
  exec r s Some.

(** [str.replace(r, by)] for a pattern without the [g] flag: the leftmost
    match only. *)
Fixpoint replace_first (r : regex) (by_ : list Z) (s : list Z) : list Z :=
  match s with
  | [] =>
      match match_here r [] with
      | Some _ => by_
      | None => []
      end
  | c :: t =>
      match match_here r s with
      | Some rest => by_ ++ rest
      | None => c :: replace_first r by_ t
      end
  end.

(** [str.replace(r, by)] for a pattern with the [g] flag: every match of a
    left-to-right scan, the scan resuming where the last match ended (one
    character further after an empty match).  [skip] counts the characters
    of the current match still to be dropped. *)
Fixpoint replace_all_from (r : regex) (by_ : list Z) (skip : nat)
    (s : list Z) : list Z :=
  match s with
  | [] =>
      match skip, match_here r [] with
      | O, Some _ => by_
      | _, _ => []
      end
  | c :: t =>
      match skip with
      | S n => replace_all_from r by_ n t
      | O =>
          match match_here r s with
          | Some rest =>
              match (length s - length rest)%nat with
              | O => by_ ++ c :: replace_all_from r by_ 0 t
              | S n => by_ ++ replace_all_from r by_ n t
              end
          | None => c :: replace_all_from r by_ 0 t
          end
      end
  end.

Definition replace_all (r : regex) (by_ : list Z) (s : list Z) : list Z :=
  replace_all_from r by_ 0 s.

(** The same with the [u] flag: the scan runs over code points. *)
Definition replace_all_u (r : regex) (by_ : list Z) (s : jsstring) : jsstring :=
  from_code_points (replace_all r (to_code_points by_) (to_code_points s)).

Fixpoint trimStart (s : jsstring) : jsstring :=
  match s with
  | c :: t => if is_white_space c then trimStart t else s
  | [] => []
  end.

Definition trimEnd (s : jsstring) : jsstring := rev (trimStart (rev s)).

Definition trim (s : jsstring) : jsstring := trimEnd (trimStart s).

(** *** Vocabulary for the properties of matching and replacing *)

(** Where a greedy run must stop: at the end of the input or in front of a
    character outside the class. *)
Definition stops (p : Z -> bool) (t : list Z) : Prop :=
  match t with
  | [] => True
  | c :: _ => p c = false
  end.

(** No match begins inside [tok] when [tok] is followed by [rest]. *)
Definition unmatched (r : regex) (tok rest : list Z) : Prop :=
  forall a b, tok = a ++ b -> b <> [] -> match_here r (b ++ rest) = None.

End JS.

Module Utils.
Import JS.

(** [/https?:\/\/[^\s]+/] *)
Definition re_url : regex :=
  Cat (str (lit "http"))
    (Cat (Opt (Chr (chr "s")))
       (Cat (str (lit "://")) (Plus (fun c => negb (is_white_space c))))).

(** [/<a?:[^:]+:[0-9]+>/g] *)
Definition re_discord_emoji : regex :=
  Cat (Chr (chr "<"))
    (Cat (Opt (Chr (chr "a")))
       (Cat (Chr (chr ":"))
          (Cat (Plus (fun c => negb (c =? chr ":")))
             (Cat (Chr (chr ":"))
                (Cat (Plus is_digit) (Chr (chr ">"))))))).

(** The keycap emoji of the digit one: the digit, the variation selector
    U+FE0F and the combining enclosing keycap U+20E3. *)
Definition keycap_one : jsstring := [0x31; 0xFE0F; 0x20E3].

Section WithUnicodeData.
Context `{UnicodeData}.

(** The class [[^\p{L}\p{N}\p{P}\p{Z}]]. *)
Definition not_readable (cp : Z) : bool :=
  negb (has_category Letter cp || has_category Number cp
        || has_category Punctuation cp || has_category Separator cp).

(** [/[^\p{L}\p{N}\p{P}\p{Z}]/gu] *)
Definition re_unicode_emoji : regex := Class not_readable.

Definition getReadableString (str : jsstring) : jsstring :=
  trim
    (replace_all_u re_unicode_emoji []
       (replace_all re_discord_emoji []
          (replace_first re_url [] str))).

(** *** What a message is made of, besides text

    A white space character, a Discord emoji escape ([<:name:id>], or
    [<a:name:id>] when animated) and a Unicode emoji: a single code point
    outside the letter, number, punctuation and separator classes. *)
Inductive filler :=
| Space (c : Z)
| Custom (animated : bool) (name id : list Z)
| Pictograph (cp : Z).

Definition filler_units (f : filler) : jsstring :=
  match f with
  | Space c => [c]
  | Custom animated name id =>
      chr "<" :: (if animated then [chr "a"] else [])
        ++ chr ":" :: name ++ chr ":" :: id ++ [chr ">"]
  | Pictograph cp => encode_code_point cp
  end.

Definition units (fs : list filler) : jsstring := flat_map filler_units fs.

Definition well_formed (f : filler) : Prop :=
  match f with
  | Space c => is_white_space c = true
  | Custom _ name id =>
      name <> [] /\ Forall (fun c => c <> chr ":") name
      /\ id <> [] /\ Forall (fun c => is_digit c = true) id
  | Pictograph cp =>
      0 <= cp < 0x110000 /\ is_surrogate cp = false /\ not_readable cp = true
  end.

Definition is_custom (f : filler) : bool :=
  match f with Custom _ _ _ => true | _ => false end.

(** The code point of a filler that is not an escape. *)
Definition filler_code_point (f : filler) : Z :=
  match f with Space c | Pictograph c => c | Custom _ _ _ => 0 end.

(** A URL: [http://] or [https://] and a non-empty run of characters
    other than white space. *)
Definition url_units (secure : bool) (body : list Z) : jsstring :=
  lit "http" ++ (if secure then [chr "s"] else []) ++ lit "://" ++ body.

Definition well_formed_url (body : list Z) : Prop :=
  body <> [] /\ Forall (fun c => is_white_space c = false) body.

(** What follows a URL directly is taken by the URL pattern up to the next
    white space.  The fillers behind a URL are taken whole, or left whole,
    when the URL ends in front of a white space character (or at the end of
    the content) and no escape taken with it holds white space in its
    name. *)
Fixpoint delimited (fs : list filler) : Prop :=
  match fs with
  | [] | Space _ :: _ => True
  | Custom _ name _ :: t =>
      Forall (fun c => is_white_space c = false) name /\ delimited t
  | Pictograph cp :: t => is_white_space cp = true \/ delimited t
  end.

(** A content with nothing to read in it: fillers only, or fillers around
    one URL. *)
Definition nothing_to_read (content : jsstring) : Prop :=
  (exists fs, Forall well_formed fs /\ content = units fs)
  \/ (exists pre secure body post,
        Forall well_formed pre /\ well_formed_url body
        /\ Forall well_formed post /\ delimited post
        /\ content = units pre ++ url_units secure body ++ units post).

End WithUnicodeData.
End Utils.

(* ===================================================================== *)
(** ** The playback engine ([Player])                                     *)
(* ===================================================================== *)

Module Engine.
Import JS.

(** The object literal [{ styleId, message }] that [app.ts] passes to
    [player.queueMessage]. *)
Record Utterance := { styleId : Z; message : jsstring }.

(** An output binding: the voice connection handed to [setStreamTarget],
    named by the number the connection was created with.  The engine
    keeps the name and no more: whether the connection still exists is the
    state of the dispatcher ([App.voiceConnections]), and what becomes of a
    stream begun into a connection that was destroyed is not modelled; the
    properties of the engine below are about an engine whose output
    stays. *)
Definition Sink := nat.

(** Modelled from the spec: the states of the PlayerEngine state machine
    (section 4.3); [player.ts], which defines the class [Player], is
    missing. *)
Inductive Phase := Idle | Synthesizing | Playing | Draining.

(** Modelled from the spec: a queued utterance with the identity its
    synthesis request is tagged with (sections 3 and 4.2; [player.ts] is
    missing).  Identities are handed out in enqueue order at the engine's
    single ordering point. *)
Record Entry := { ident : nat; utt : Utterance }.

(** Modelled from the spec: the calls of section 6 and the asynchronous
    reports of the collaborators (synthesis service, output sink), each
    report tagged with the identity of the utterance it answers
    ([player.ts] is missing). *)
Inductive Event :=
| Enqueue (u : Utterance)
| SkipCurrent
| RebindOutput (s : Sink)
| Shutdown
| SynthDone (id : nat)
| SynthFailed (id : nat)
| StreamCompleted (id : nat)
| StreamErrored (id : nat).

(** Modelled from the spec: what the engine does to its collaborators
    ([player.ts] is missing): a synthesis request, the start of a stream
    into a sink, the stop of the stream on a skip or shutdown, the end of a
    stream the sink reported (completed or errored), and the report of an
    utterance dropped after the retry. *)
Inductive Effect :=
| Synthesize (e : Entry)
| StreamBegin (e : Entry) (s : Sink)
| StreamStop (e : Entry)
| StreamEnd (e : Entry) (completed : bool)
| Skipped (e : Entry)
| Dropped (e : Entry).

(** Modelled from the spec: QueueState (one optional current slot and the
    ordered backlog), the output binding, and the history of effects,
    oldest first ([player.ts] is missing). *)
Record Player := {
  phase : Phase;
  current : option Entry;
  retried : bool;
  queue : list Entry;
  sink : option Sink;
  nextIdent : nat;
  out : list Effect
}.

(** Modelled from the spec: [new Player(...)]: idle, empty, unbound
    ([player.ts] is missing). *)
Definition create : Player :=
  {| phase := Idle; current := None; retried := false; queue := [];
     sink := None; nextIdent := 0; out := [] |}.

Definition emit (fx : list Effect) (p : Player) : Player :=
  {| phase := phase p; current := current p; retried := retried p;
     queue := queue p; sink := sink p; nextIdent := nextIdent p;
     out := out p ++ fx |}.

(** Modelled from the spec: "pull next from queue: Synthesizing if
    present, else Idle" ([player.ts] is missing). *)
Definition pull_next (p : Player) : Player :=
  match queue p with
  | e :: q =>
      {| phase := Synthesizing; current := Some e; retried := false;
         queue := q; sink := sink p; nextIdent := nextIdent p;
         out := out p ++ [Synthesize e] |}
  | [] =>
      {| phase := Idle; current := None; retried := false;
         queue := []; sink := sink p; nextIdent := nextIdent p;
         out := out p |}
  end.

(** Modelled from the spec: [enqueue(u)]: "if Idle, transition to
    Synthesizing and begin the pipeline for u; otherwise u is appended to
    the queue with no state change"; nothing is accepted once Draining
    ([player.ts] is missing).  The utterance is appended at the tail in
    both cases; an idle engine then pulls the head, which is [u] itself
    whenever the backlog was empty. *)
Definition queueMessage (u : Utterance) (p : Player) : Player :=
  let e := {| ident := nextIdent p; utt := u |} in
  let p' := {| phase := phase p; current := current p; retried := retried p;
               queue := queue p ++ [e]; sink := sink p;
               nextIdent := S (nextIdent p); out := out p |} in
  match phase p with
  | Draining => p
  | Idle => pull_next p'
  | Synthesizing | Playing => p'
  end.

(** Modelled from the spec: [skipCurrent()]: valid in Synthesizing or
    Playing, where it stops the active audio, makes the in-flight
    synthesis stale and pulls the next utterance; "no-op in Idle or
    Draining" ([player.ts] is missing). *)
Definition skipCurrentMessage (p : Player) : Player :=
  match phase p, current p with
  | Synthesizing, Some e => pull_next (emit [Skipped e] p)
  | Playing, Some e => pull_next (emit [StreamStop e; Skipped e] p)
  | _, _ => p
  end.

(** Modelled from the spec: [rebindOutput(newSink)]: replaces the binding;
    if Playing the current utterance restarts into the new sink from its
    beginning; an engine left idle for want of a sink resumes with the
    head of its backlog ([player.ts] is missing). *)
Definition setStreamTarget (s : Sink) (p : Player) : Player :=
  let p' := {| phase := phase p; current := current p; retried := retried p;
               queue := queue p; sink := Some s; nextIdent := nextIdent p;
               out := out p |} in
  match phase p, current p with
  | Draining, _ => p
  | Playing, Some e => emit [StreamBegin e s] p'
  | Idle, _ => pull_next p'
  | _, _ => p'
  end.

(** Modelled from the spec: shutdown: "release the output binding, discard
    all queued and current utterances, terminal" ([player.ts] is
    missing). *)
Definition shutdown (p : Player) : Player :=
  {| phase := Draining; current := None; retried := false; queue := [];
     sink := None; nextIdent := nextIdent p;
     out := out p ++ match phase p, current p with
                     | Playing, Some e => [StreamStop e]
                     | _, _ => []
                     end |}.

Definition is_current (id : nat) (p : Player) : option Entry :=
  match current p with
  | Some e => if Nat.eqb (ident e) id then Some e else None
  | None => None
  end.

(** Modelled from the spec: a synthesis response (section 4.2, step 3): a
    stale response is discarded silently; otherwise the audio goes to the
    bound output and the stream begins; with no binding the engine returns
    to Idle and waits, the utterance back at the head of the backlog
    ([player.ts] is missing). *)
Definition onSynthDone (id : nat) (p : Player) : Player :=
  match phase p, is_current id p with
  | Synthesizing, Some e =>
      match sink p with
      | Some s =>
          {| phase := Playing; current := Some e; retried := retried p;
             queue := queue p; sink := sink p; nextIdent := nextIdent p;
             out := out p ++ [StreamBegin e s] |}
      | None =>
          {| phase := Idle; current := None; retried := false;
             queue := e :: queue p; sink := None; nextIdent := nextIdent p;
             out := out p |}
      end
  | _, _ => p
  end.

(** Modelled from the spec: a synthesis failure (section 4.2, step 4):
    "retry once with the same utterance; on repeated failure, discard the
    utterance (report the failure) and pull the next queued utterance"
    ([player.ts] is missing). *)
Definition onSynthFailed (id : nat) (p : Player) : Player :=
  match phase p, is_current id p with
  | Synthesizing, Some e =>
      if retried p then pull_next (emit [Dropped e] p)
      else {| phase := Synthesizing; current := Some e; retried := true;
              queue := queue p; sink := sink p; nextIdent := nextIdent p;
              out := out p ++ [Synthesize e] |}
  | _, _ => p
  end.

(** Modelled from the spec: the sink reports the end of the stream:
    completion pulls the next utterance, and a stream error is "treated as
    stream-complete-with-error: proceed exactly as normal completion"
    ([player.ts] is missing). *)
Definition onStreamEnd (id : nat) (completed : bool) (p : Player) : Player :=
  match phase p, is_current id p with
  | Playing, Some e => pull_next (emit [StreamEnd e completed] p)
  | _, _ => p
  end.

(** Modelled from the spec: the transition function of the state machine
    of section 4.3 ([player.ts] is missing). *)
Definition step (p : Player) (ev : Event) : Player :=
  match ev with
  | Enqueue u => queueMessage u p
  | SkipCurrent => skipCurrentMessage p
  | RebindOutput s => setStreamTarget s p
  | Shutdown => shutdown p
  | SynthDone id => onSynthDone id p
  | SynthFailed id => onSynthFailed id p
  | StreamCompleted id => onStreamEnd id true p
  | StreamErrored id => onStreamEnd id false p
  end.

Definition run (p : Player) (evs : list Event) : Player := fold_left step evs p.

(** *** Vocabulary for the properties of the engine *)

#[global] Instance Utterance_eq_dec : EqDecision Utterance.
Proof. solve_decision. Defined.

#[global] Instance Entry_eq_dec : EqDecision Entry.
Proof. solve_decision. Defined.

(** The utterances the engine still holds: the current one, then the
    backlog. *)
Definition pending (p : Player) : list Entry :=
  option_list (current p) ++ queue p.

(** The current slot is occupied exactly in Synthesizing and Playing, and a
    drained engine holds nothing. *)
Definition wf (p : Player) : Prop :=
  match phase p with
  | Idle => current p = None
  | Synthesizing | Playing => is_Some (current p)
  | Draining => current p = None /\ queue p = []
  end.

(** An engine that was not shut down, and one with an output binding. *)
Definition live (p : Player) : Prop := phase p <> Draining.
Definition bound (p : Player) : Prop := is_Some (sink p).

(** Readings of a history of effects. *)
Definition begun (fx : list Effect) : list Entry :=
  omap (fun f => match f with StreamBegin e _ => Some e | _ => None end) fx.

Definition completed (fx : list Effect) : list Entry :=
  omap (fun f => match f with StreamEnd e true => Some e | _ => None end) fx.

Definition ended (fx : list Effect) : list Entry :=
  omap (fun f => match f with StreamEnd e _ => Some e | _ => None end) fx.

Definition skipped (fx : list Effect) : list Entry :=
  omap (fun f => match f with Skipped e => Some e | _ => None end) fx.

Definition dropped (fx : list Effect) : list Entry :=
  omap (fun f => match f with Dropped e => Some e | _ => None end) fx.

(** The utterances that left the engine, in the order they left: skipped,
    dropped after the retry, or streamed until the sink reported the end
    of their stream (completed or errored). *)
Definition gone (fx : list Effect) : list Entry :=
  omap (fun f => match f with
                 | Skipped e | Dropped e | StreamEnd e _ => Some e
                 | _ => None
                 end) fx.

(** The utterances of the [enqueue] calls of a trace, and the entries the
    ordering point makes of them. *)
Definition enqueues (evs : list Event) : list Utterance :=
  omap (fun ev => match ev with Enqueue u => Some u | _ => None end) evs.

Fixpoint tag (n : nat) (us : list Utterance) : list Entry :=
  match us with
  | [] => []
  | u :: t => {| ident := n; utt := u |} :: tag (S n) t
  end.

(** A trace of [enqueue] and [skipCurrent] calls and of reports of the
    collaborators, of any kind, at any time and with any identity: the
    output is not rebound and the engine is not shut down. *)
Definition undisturbed (ev : Event) : bool :=
  match ev with
  | RebindOutput _ | Shutdown => false
  | _ => true
  end.

(** Such a trace in which the collaborators answer without failure:
    synthesis succeeds and streams complete. *)
Definition nominal (ev : Event) : bool :=
  match ev with
  | Enqueue _ | SkipCurrent | SynthDone _ | StreamCompleted _ => true
  | _ => false
  end.

Definition is_skip (ev : Event) : bool :=
  match ev with SkipCurrent => true | _ => false end.

(** The utterance an effect is about. *)
Definition entry_of (f : Effect) : Entry :=
  match f with
  | Synthesize e | StreamBegin e _ | StreamStop e | StreamEnd e _
  | Skipped e | Dropped e => e
  end.

(** The stream being played, if one is. *)
Definition playing (p : Player) : list Entry :=
  match phase p with
  | Playing => option_list (current p)
  | _ => []
  end.

(** An engine as [slashJoin] leaves it and as the calls and reports keep
    it: well formed, never shut down, bound to an output, and with an empty
    backlog whenever it is idle. *)
Definition ready (p : Player) : Prop :=
  wf p /\ live p /\ bound p /\ (phase p = Idle -> queue p = []).

(** Nothing is lost and nothing is invented: what left the engine followed
    by what it holds is what was enqueued, in enqueue order. *)
Definition conserved (p : Player) (us : list Utterance) : Prop :=
  nextIdent p = length us /\ gone (out p) ++ pending p = tag 0 us.

(** A history without dropped utterances and without broken streams. *)
Definition clean (f : Effect) : Prop :=
  match f with
  | Dropped _ | StreamEnd _ false => False
  | _ => True
  end.

(** Every utterance the engine holds or has acted on was supplied by an
    [enqueue] call, text and style id as supplied. *)
Definition sourced (p : Player) (us : list Utterance) : Prop :=
  forall e, e ∈ pending p \/ e ∈ map entry_of (out p) -> utt e ∈ us.

(** The number of answers the collaborators owe before the engine is idle:
    a synthesis result and the end of a stream for each utterance held,
    less the synthesis result of the one already playing. *)
Definition owed (p : Player) : nat :=
  match phase p with
  | Synthesizing => 2 * length (pending p)
  | Playing => 2 * length (pending p) - 1
  | _ => 0
  end.

(** The answer the collaborators owe the engine in its present state. *)
Definition respond (p : Player) : option Event :=
  match phase p, current p with
  | Synthesizing, Some e => Some (SynthDone (ident e))
  | Playing, Some e => Some (StreamCompleted (ident e))
  | _, _ => None
  end.

(** Let the collaborators answer until the engine owes nothing. *)
Fixpoint settle (fuel : nat) (p : Player) : Player :=
  match fuel with
  | O => p
  | S n =>
      match respond p with
      | Some ev => settle n (step p ev)
      | None => p
      end
  end.

End Engine.

(* ===================================================================== *)
(** ** The dispatcher ([app.ts])                                          *)
(* ===================================================================== *)

Module App.
Import JS Utils.

Definition COLOR_SUCCESS : Z := 0x47ff94.
Definition COLOR_FAILURE : Z := 0xff4a47.
Definition COLOR_ACTION : Z := 0x45b5ff.

Record Embed := {
  footer : string;
  color : Z;
  title : string;
  description : string
}.

(** [zundaEmbed().setColor(c).setTitle(t).setDescription(d)] *)
Definition zundaEmbed (c : Z) (t d : string) : Embed :=
  {| footer := "sarisia/zundacord"; color := c; title := t; description := d |}.

(** [Message]: the author's id, the guild id ([null] outside a guild) and
    the content. *)
Record Message := {
  authorId : string;
  guildId : option string;
  content : jsstring
}.

(** [Message<true>], a message known to be in a guild. *)
Record GuildMessage := {
  gmAuthorId : string;
  gmGuildId : string;
  gmContent : jsstring
}.

(** [msg.inGuild()], which is [Boolean(this.guildId)], and the narrowing to
    [Message<true>] that comes with it. *)
Definition inGuild (msg : Message) : option GuildMessage :=
  match guildId msg with
  | Some g =>
      if String.eqb g "" then None
      else Some {| gmAuthorId := authorId msg; gmGuildId := g;
                   gmContent := content msg |}
  | None => None
  end.

Record Channel := { channelId : string; channelName : string }.

(** A guild member as [slashJoin] reads it: [member.voice.channel]. *)
Record Member := { voiceChannel : option Channel }.

(** A command interaction: [guildId], [user.id], [inCachedGuild()] and
    [guild.members.cache.get(user.id)]. *)
Record Interaction := {
  iGuildId : string;
  iUserId : string;
  inCachedGuild : bool;
  iMember : option Member
}.

(** [MessageContextMenuCommandInteraction<"cached">] *)
Record MessageContextInteraction := {
  mcGuildId : string;
  mcUserId : string;
  targetMessage : GuildMessage
}.

(** A voice connection of [@discordjs/voice], named by a serial number. *)
Record VoiceConnection := { vcId : nat; vcChannelId : string }.

(** The state of a [Zundacord] object and of the objects it reaches.

    Every handler is modelled as one step.  The handlers that await (the
    lookup of the voice style id in [onMessageCreate] and
    [messageContextReadThisMessage], the race of at most five seconds in
    the [Disconnected] handler) take the outcome of what they await as an
    input; nothing that can run in between changes what they read
    afterwards for the same guild.

    - [config] is the [IConfigManager]: the stored voice style id per guild
      and member;
    - [guildPlayers] is the [Map<string, Player>]; its values are
      references into [players], the [Player] objects themselves, which
      live on whether the map still names them or not;
    - [voiceConnections] is the table of connections [@discordjs/voice]
      tracks per guild: [getVoiceConnection] reads it, [joinVoiceChannel]
      adds to it and [vc.destroy()] removes from it. *)
Record Zundacord := {
  applicationId : string;
  config : gmap (string * string) Z;
  guildPlayers : gmap string nat;
  players : gmap nat Engine.Player;
  voiceConnections : gmap string VoiceConnection;
  nextPlayer : nat;
  nextConnection : nat
}.

Definition getMemberVoiceStyleId (st : Zundacord) (g u : string) : option Z :=
  config st !! (g, u).

(** A method call on the [Player] object behind a reference. *)
Definition call (ref : nat) (f : Engine.Player -> Engine.Player)
    (st : Zundacord) : Zundacord :=
  {| applicationId := applicationId st; config := config st;
     guildPlayers := guildPlayers st;
     players := alter f ref (players st);
     voiceConnections := voiceConnections st;
     nextPlayer := nextPlayer st; nextConnection := nextConnection st |}.

Section WithUnicodeData.
Context `{UnicodeData}.

Definition queueMessage (st : Zundacord) (msg : GuildMessage) (styleId : Z)
    : Zundacord :=
  match guildPlayers st !! gmGuildId msg with
  | None => st
  | Some player =>
      let readableStr := getReadableString (gmContent msg) in
      call player
        (Engine.queueMessage
           {| Engine.styleId := styleId; Engine.message := readableStr |})
        st
  end.

Definition onMessageCreate (st : Zundacord) (msg : Message) : Zundacord :=
  if String.eqb (authorId msg) (applicationId st) then st
  else
    match inGuild msg with
    | None => st
    | Some gm =>
        match getMemberVoiceStyleId st (gmGuildId gm) (authorId msg) with
        | None => st
        | Some styleId => queueMessage st gm styleId
        end
    end.

Definition messageContextReadThisMessage (st : Zundacord)
    (interaction : MessageContextInteraction) : Zundacord * Embed :=
  match getMemberVoiceStyleId st (mcGuildId interaction) (mcUserId interaction) with
  | None =>
      (st, zundaEmbed COLOR_FAILURE "Cannot read"
             "Set your voice with /voice first")
  | Some styleId =>
      (queueMessage st (targetMessage interaction) styleId,
       zundaEmbed COLOR_SUCCESS "Successfully enqueued!"
         "The message is successfully enqueued to be read")
  end.

End WithUnicodeData.

Definition slashJoin (st : Zundacord) (interaction : Interaction)
    : Zundacord * Embed :=
  match voiceConnections st !! iGuildId interaction with
  | Some _ =>
      (st, zundaEmbed COLOR_SUCCESS "Already joined!"
             "The bot is already in voice")
  | None =>
      match iMember interaction with
      | None =>
          (st, zundaEmbed COLOR_FAILURE "Cannot join" "You are not in guild")
      | Some member =>
          match voiceChannel member with
          | None =>
              (st, zundaEmbed COLOR_FAILURE "Cannot join"
                     "You need to join to the voice first")
          | Some memberVoiceChannel =>
              let vc := {| vcId := nextConnection st;
                           vcChannelId := channelId memberVoiceChannel |} in
              let player := Engine.setStreamTarget (vcId vc) Engine.create in
              ({| applicationId := applicationId st; config := config st;
                  guildPlayers :=
                    <[iGuildId interaction := nextPlayer st]> (guildPlayers st);
                  players := <[nextPlayer st := player]> (players st);
                  voiceConnections :=
                    <[iGuildId interaction := vc]> (voiceConnections st);
                  nextPlayer := S (nextPlayer st);
                  nextConnection := S (nextConnection st) |},
               zundaEmbed COLOR_SUCCESS "Joined!"
                 ("Joined to " ++ channelName memberVoiceChannel))
          end
      end
  end.

(** How the race of the two [entersState] promises in the [Disconnected]
    handler ends: one of them resolves within 5000 ms, or the first to
    settle rejects. *)
Inductive RaceOutcome := EnteredSignalling | EnteredConnecting | Rejected.

(** The handler [slashJoin] registers on [VoiceConnectionStatus.Disconnected]
    for the connection [vc] it created in guild [g].  In the [catch] branch
    [vc.destroy()] throws when [vc] was destroyed before (the statement
    after it is then not reached) and stops tracking [vc] otherwise. *)
Definition onDisconnected (st : Zundacord) (g : string) (vc : nat)
    (outcome : RaceOutcome) : Zundacord :=
  match outcome with
  | EnteredSignalling | EnteredConnecting => st
  | Rejected =>
      match voiceConnections st !! g with
      | Some tracked =>
          if Nat.eqb (vcId tracked) vc then
            {| applicationId := applicationId st; config := config st;
               guildPlayers := delete g (guildPlayers st);
               players := players st;
               voiceConnections := delete g (voiceConnections st);
               nextPlayer := nextPlayer st;
               nextConnection := nextConnection st |}
          else st
      | None => st
      end
  end.

Definition slashSkip (st : Zundacord) (interaction : Interaction)
    : Zundacord * Embed :=
  if negb (inCachedGuild interaction) then
    (st, zundaEmbed COLOR_FAILURE "Cannot skip" "The bot is not in the guild")
  else
    match guildPlayers st !! iGuildId interaction with
    | None =>
        (st, zundaEmbed COLOR_FAILURE "Cannot skip" "The bot is not in voice")
    | Some player =>
        (call player Engine.skipCurrentMessage st,
         zundaEmbed COLOR_SUCCESS "Skipped!" "Skipped the message")
    end.

(** A report of the synthesis service or of the output sink reaching the
    [Player] object [ref]; the object need not be registered any more. *)
Definition onPlayerReport (st : Zundacord) (ref : nat) (ev : Engine.Event)
    : Zundacord :=
  match ev with
  | Engine.SynthDone _ | Engine.SynthFailed _
  | Engine.StreamCompleted _ | Engine.StreamErrored _ =>
      call ref (fun p => Engine.step p ev) st
  | _ => st
  end.

(** [buttonSpeakerStyleSeleceted]: [speaker] is what
    [voicevox.getSpeakerById] found for the pressed button, its style id if
    any; the reply is left out. *)
Definition buttonSpeakerStyleSeleceted (st : Zundacord) (g u : string)
    (speaker : option Z) : Zundacord :=
  match speaker with
  | None => st
  | Some styleId =>
      {| applicationId := applicationId st;
         config := <[(g, u) := styleId]> (config st);
         guildPlayers := guildPlayers st; players := players st;
         voiceConnections := voiceConnections st;
         nextPlayer := nextPlayer st; nextConnection := nextConnection st |}
  end.

(** [new Zundacord(token, apiEndpoint)] once [onReady] has stored the
    application id. *)
Definition init (applicationId : string) (config : gmap (string * string) Z)
    : Zundacord :=
  {| applicationId := applicationId; config := config;
     guildPlayers := ∅; players := ∅; voiceConnections := ∅;
     nextPlayer := 0; nextConnection := 0 |}.

(** What can happen to a running bot: the gateway events it subscribes
    to, the [Disconnected] event of a connection it created, and the
    reports reaching its [Player] objects.

    These are the events [app.ts] has a handler for.  The table of voice
    connections changes by them only: a connection that [@discordjs/voice]
    would destroy on its own account, with no [Disconnected] event, is not
    among the inputs, and the state it would leave (an entry in
    [guildPlayers] with no tracked connection) is not among the states
    that [reachable] describes. *)
Inductive Input :=
| MessageCreate (msg : Message)
| SlashJoin (interaction : Interaction)
| SlashSkip (interaction : Interaction)
| ReadThisMessage (interaction : MessageContextInteraction)
| SpeakerStyleSelected (g u : string) (speaker : option Z)
| VoiceDisconnected (g : string) (vc : nat) (outcome : RaceOutcome)
| PlayerReport (ref : nat) (ev : Engine.Event).

Definition step `{UnicodeData} (st : Zundacord) (x : Input) : Zundacord :=
  match x with
  | MessageCreate msg => onMessageCreate st msg
  | SlashJoin i => (slashJoin st i).1
  | SlashSkip i => (slashSkip st i).1
  | ReadThisMessage i => (messageContextReadThisMessage st i).1
  | SpeakerStyleSelected g u speaker => buttonSpeakerStyleSeleceted st g u speaker
  | VoiceDisconnected g vc outcome => onDisconnected st g vc outcome
  | PlayerReport ref ev => onPlayerReport st ref ev
  end.

Definition run `{UnicodeData} (st : Zundacord) (xs : list Input) : Zundacord :=
  fold_left step xs st.

(** The states a bot comes to by the inputs above. *)
Definition reachable `{UnicodeData} (st : Zundacord) : Prop :=
  exists applicationId config xs, st = run (init applicationId config) xs.

(** What holds in every state the bot comes to by these inputs: a guild
    has a registered
    player exactly when it has a tracked voice connection, a registered
    reference names an object, no object is registered for two guilds, and
    every [Player] object is well formed, was never shut down and has an
    output binding. *)

Record invariant (st : Zundacord) : Prop := {
  inv_tracked : forall g,
    is_Some (guildPlayers st !! g) <-> is_Some (voiceConnections st !! g);
  inv_registered : forall g ref,
    guildPlayers st !! g = Some ref -> is_Some (players st !! ref);
  inv_one_guild : forall g1 g2 ref,
    guildPlayers st !! g1 = Some ref -> guildPlayers st !! g2 = Some ref ->
    g1 = g2;
  inv_allocated : forall ref,
    is_Some (players st !! ref) -> (ref < nextPlayer st)%nat;
  inv_players : forall ref p,
    players st !! ref = Some p ->
    Engine.wf p /\ Engine.live p /\ Engine.bound p
}.

End App.

(* ===================================================================== *)
(** ** A small scenario                                                   *)
(* ===================================================================== *)

(** One guild ["g"], one member ["u"] who chose voice style 3 and sits in
    the voice channel ["c"]; a second member ["v"] never chose a voice.
    The texts are ASCII, for which the Basic Latin table is the whole of
    the Unicode data needed. *)
Module Scenario.
Import JS App.

Definition bot : Zundacord := init "bot" {[ ("g", "u") := 3 ]}.

Definition join : Interaction :=
  {| iGuildId := "g"; iUserId := "u"; inCachedGuild := true;
     iMember := Some {| voiceChannel :=
                          Some {| channelId := "c"; channelName := "General" |} |} |}.

Definition skip : Interaction :=
  {| iGuildId := "g"; iUserId := "u"; inCachedGuild := true; iMember := None |}.

Definition say (author : string) (text : string) : Message :=
  {| authorId := author; guildId := Some "g"; content := lit text |}.

Definition said (author : string) (text : string) : GuildMessage :=
  {| gmAuthorId := author; gmGuildId := "g"; gmContent := lit text |}.

Definition readThis (text : string) : MessageContextInteraction :=
  {| mcGuildId := "g"; mcUserId := "u"; targetMessage := said "v" text |}.

Definition go (st : Zundacord) (xs : list Input) : Zundacord :=
  @run basic_latin_only st xs.

(** The bot after ["u"] made it join. *)
Definition joined : Zundacord := go bot [SlashJoin join].

(** Two messages are read while the bot is in voice: the first is being
    synthesized, the second waits. *)
Definition talking : Zundacord :=
  go joined [MessageCreate (say "u" "hello"); MessageCreate (say "u" "world")].

(** Then the connection is lost for good. *)
Definition left : Zundacord := go talking [VoiceDisconnected "g" 0 Rejected].

(** Two utterances handed to an engine, and traces of calls and answers
    over them: without a skip; with the synthesis of the first utterance
    failing twice; and with the first utterance skipped while it is
    synthesized (its late result, [SynthDone 0], is stale). *)
Definition u1 : Engine.Utterance :=
  {| Engine.styleId := 1; Engine.message := lit "hello" |}.

Definition u2 : Engine.Utterance :=
  {| Engine.styleId := 2; Engine.message := lit "world" |}.

Definition plain : list Engine.Event :=
  [Engine.Enqueue u1; Engine.Enqueue u2; Engine.SynthDone 0].

Definition failing : list Engine.Event :=
  [Engine.Enqueue u1; Engine.SynthFailed 0; Engine.SynthFailed 0].

Definition skipping : list Engine.Event :=
  [Engine.Enqueue u1; Engine.Enqueue u2; Engine.SkipCurrent;
   Engine.SynthDone 0; Engine.SynthDone 1; Engine.StreamCompleted 1].

(** A message with nothing to read in it: an emoji escape, a URL, an
    animated emoji escape and U+1F600, white space in between. *)
Definition nothing_before : list Utils.filler :=
  [Utils.Custom false (lit "smile") (lit "123"); Utils.Space 0x20].

Definition nothing_after : list Utils.filler :=
  [Utils.Space 0x20; Utils.Custom true (lit "wave") (lit "9");
   Utils.Space 0x0A; Utils.Pictograph 0x1F600].

Definition nothing : GuildMessage :=
  {| gmAuthorId := "u"; gmGuildId := "g";
     gmContent := Utils.units nothing_before
                  ++ Utils.url_units true (lit "x.example/z?q=1")
                  ++ Utils.units nothing_after |}.

(** A message of a URL, a space and the keycap emoji of the digit one. *)
Definition keycap : GuildMessage :=
  {| gmAuthorId := "u"; gmGuildId := "g";
     gmContent := lit "http://x.example " ++ Utils.keycap_one |}.

(** A message with a text, a URL and an emoji escape. *)
Definition see : GuildMessage :=
  said "u" "  see http://a.example <:smile:1>".

Definition hello : Engine.Entry :=
  {| Engine.ident := 0;
     Engine.utt := {| Engine.styleId := 3; Engine.message := lit "hello" |} |}.


End Scenario.

(* ===================================================================== *)
(** ** More of JavaScript: what the rest of [app.ts] uses                 *)
(* ===================================================================== *)

Module JSLib.
Import JS.

(** The values a JavaScript string is made of: 16-bit code units. *)
Definition code_units (s : jsstring) : Prop :=
  Forall (fun c => 0 <= c < 0x10000) s.

(** A Unicode scalar value: a code point that is not a surrogate. *)
Definition scalar (cp : Z) : Prop :=
  0 <= cp < 0x110000 /\ is_surrogate cp = false.

(** [str.split(sep)] for a separator of one code unit: the pieces between
    the separators, the empty ones included; at least one piece. *)
Fixpoint split (sep : Z) (s : jsstring) : list jsstring :=
  match s with
  | [] => [[]]
  | c :: t =>
      if c =? sep then [] :: split sep t
      else
        match split sep t with
        | piece :: pieces => (c :: piece) :: pieces
        | [] => [[c]]
        end
  end.

(** [str.split(sep, limit)]: the first [limit] pieces. *)
Definition split_limit (sep : Z) (limit : nat) (s : jsstring)
    : list jsstring :=
  take limit (split sep s).

(** [str.replace(/^r/, by)]: without the [m] flag, [^] lets the pattern
    match at the start of the input only. *)
Definition replace_at_start (r : regex) (by_ : list Z) (s : jsstring)
    : jsstring :=
  match match_here r s with
  | Some rest => by_ ++ rest
  | None => s
  end.

(** [Number::toString] for the integers the engine does not print digit by
    digit: beyond the safe integers the digits printed are the shortest
    that give the number back, and from 10^21 on the form is the
    exponent form.  That part of the engine is taken as a parameter. *)
Class NumberToString := big_number_to_string : Z -> jsstring.

Definition MAX_SAFE_INTEGER : Z := 2 ^ 53 - 1.

(** The template literal [`${n}`] for an integer [n]: for a safe integer
    its decimal digits, with a minus sign for the negative ones. *)
Definition number_to_string `{NumberToString} (n : Z) : jsstring :=
  if Z.abs n <=? MAX_SAFE_INTEGER
  then lit (NilZero.string_of_int (Z.to_int n))
  else big_number_to_string n.

(** [array.join(sep)] *)
Fixpoint join (sep : jsstring) (pieces : list jsstring) : jsstring :=
  match pieces with
  | [] => []
  | [piece] => piece
  | piece :: rest => piece ++ sep ++ join sep rest
  end.

(** [x || d] for an optional string [x]: [undefined] and the empty string
    are falsy. *)
Definition or_else (x : option jsstring) (d : jsstring) : jsstring :=
  match x with
  | Some (c :: t) => c :: t
  | _ => d
  end.

(** A character that [getReadableString] must keep: a code unit that is
    no surrogate and whose code point is a letter, a number, a punctuation
    mark or a separator. *)
Definition plain `{UnicodeData} (c : Z) : Prop :=
  0 <= c < 0x10000 /\ is_surrogate c = false
  /\ Utils.not_readable c = false.

End JSLib.

(* ===================================================================== *)
(** ** The rest of the dispatcher: commands, menus and buttons            *)
(* ===================================================================== *)

Module Ui.
Import JS JSLib App.

(** *** What [./voicevox] provides

    The types [Speaker] and [StyledSpeaker] and the class [VoiceVoxClient]
    are imported by [app.ts]; their file is not part of the sources at
    hand.  The records have the fields [app.ts] reads, and the client is
    taken as a parameter: what the calls [app.ts] makes answer, each call
    taken to come back with an answer ([undefined] is [None]).
    [doInitializeSpeaker], whose answer [app.ts] never reads, is left
    out. *)

Record Style := { stName : jsstring; stId : Z }.

Record Speaker := {
  spName : jsstring;
  speaker_uuid : jsstring;
  styles : list Style
}.

Record StyledSpeaker := {
  ssStyleId : Z;
  ssStyleName : jsstring;
  ssSpeaker : Speaker
}.

Class VoiceVoxClient := {
  getSpeakers : list Speaker;
  getSpeakerById : jsstring -> option StyledSpeaker;
  getSpeakerByUUID : jsstring -> option Speaker;
  speakerInfoPolicy : jsstring -> jsstring
}.

(** *** What the bot sends back *)

Record Field := { fName : string; fValue : jsstring; fInline : bool }.

(** An embed with its footer, colour, title, and a description or fields. *)
Record EmbedData := {
  eFooter : string;
  eColor : Z;
  eTitle : string;
  eDescription : option jsstring;
  eFields : list Field
}.

(** An embed of the handlers of [App], as data.  Its texts are constants
    of [app.ts], but for the name of a voice channel in "Joined to ...",
    which Discord keeps within 100 characters: the builder takes them. *)
Definition described (e : Embed) : EmbedData :=
  {| eFooter := footer e; eColor := color e; eTitle := title e;
     eDescription := Some (lit (description e)); eFields := [] |}.

Record SelectOption := {
  oLabel : jsstring;
  oDescription : jsstring;
  oValue : jsstring;
  oDefault : bool
}.

Inductive ButtonStyle := Primary.

Record Button := {
  bLabel : jsstring;
  bCustomId : jsstring;
  bStyle : ButtonStyle
}.

(** An action row: a select menu or buttons. *)
Inductive Component :=
| SelectMenuRow (customId : jsstring) (placeholder : string)
    (options : list SelectOption)
| ButtonRow (buttons : list Button).

(** [interaction.reply(...)] and [interaction.update(...)]: what the
    handler hands to [discord.js]; what Discord makes of it is not
    modelled. *)
Inductive Response :=
| Reply (ephemeral : bool) (embeds : list EmbedData)
    (components : list Component)
| Update (embeds : list EmbedData) (components : list Component).

(** What is thrown: an [Error] that [app.ts] makes, with its message, or
    the error of a builder of [discord.js] that refuses what it is
    given. *)
Inductive Error :=
| Raised (message : jsstring)
| Refused.

(** A computation that returns or throws. *)
Inductive Try (A : Type) :=
| Done (a : A)
| Throws (e : Error).

Arguments Done {A} a.
Arguments Throws {A} e.

#[global] Instance Try_bind : MBind Try :=
  fun A B f x => match x with Done a => f a | Throws e => Throws e end.

(** What a handler comes to: it answers, it ends without an answer, or it
    throws before it answers. *)
Inductive Outcome :=
| Responded (r : Response)
| Ignored
| Threw (e : Error).

Definition answer (t : Try Response) : Outcome :=
  match t with
  | Done r => Responded r
  | Throws e => Threw e
  end.

(** *** The builders of [discord.js]

    A builder checks what it is given and throws when it is out of the
    bounds Discord sets.  Two of the checks are written out, those that
    decide what the handlers do on what the synthesis service may well
    give: a select menu takes at most 25 options (and
    [getVoiceSpeakerSelectMenu] has no pager yet), and the value of an
    embed field is not empty.  The other checks, bounds on the lengths of
    the texts, are taken as a parameter. *)
Class Builders := {
  fieldFits : Field -> bool;
  descriptionFits : jsstring -> bool;
  optionFits : SelectOption -> bool;
  buttonFits : Button -> bool
}.

Definition MAX_OPTIONS : nat := 25.

(** *** Interactions *)

(** What kind of interaction it is, with what the handlers read of it:
    the command name, the target message of a context menu command, the
    custom id of a component and the first selected value of a select
    menu. *)
Inductive Kind :=
| ChatInputCommand (commandName : jsstring)
| MessageContextMenuCommand (commandName : jsstring)
    (targetMessage : GuildMessage)
| SelectMenu (customId : jsstring) (value0 : jsstring)
| ButtonPressed (customId : jsstring)
| OtherInteraction.

Record AnyInteraction := {
  base : Interaction;
  kind : Kind
}.

Section WithVoiceVox.
Context `{VoiceVoxClient} `{Builders} `{NumberToString}.

(** [EmbedBuilder.setFields(...fields)] *)
Definition setFields (fields : list Field) : Try (list Field) :=
  if forallb (fun f => negb (bool_decide (fValue f = [])) && fieldFits f)
       fields
  then Done fields
  else Throws Refused.

(** [EmbedBuilder.setDescription(description)] *)
Definition setDescription (description : jsstring) : Try jsstring :=
  if descriptionFits description then Done description else Throws Refused.

(** [SelectMenuBuilder.addOptions(...options)] *)
Definition addOptions (options : list SelectOption)
    : Try (list SelectOption) :=
  if (length options <=? MAX_OPTIONS)%nat && forallb optionFits options
  then Done options
  else Throws Refused.

(** [new ButtonBuilder().setLabel(...).setCustomId(...).setStyle(...)],
    for each button of a row. *)
Definition buildButtons (buttons : list Button) : Try (list Button) :=
  if forallb buttonFits buttons then Done buttons else Throws Refused.

(** The fields [embedSelectVoiceHeader] gives to [setFields]. *)
Definition headerFields (speaker : option StyledSpeaker) : list Field :=
  [ {| fName := "Speaker";
       fValue := or_else (spName <$> (ssSpeaker <$> speaker))
                   (lit "(Not set)");
       fInline := true |};
    {| fName := "Style";
       fValue := or_else (ssStyleName <$> speaker) (lit "(Not set)");
       fInline := true |} ].

(** [embedSelectVoiceHeader(speaker?)] *)
Definition embedSelectVoiceHeader (speaker : option StyledSpeaker)
    : Try EmbedData :=
  fields ← setFields (headerFields speaker);
  Done {| eFooter := "sarisia/zundacord"; eColor := COLOR_ACTION;
          eTitle := "Select your voice!"; eDescription := None;
          eFields := fields |}.

(** The option [getVoiceSpeakerSelectMenu] makes for a speaker. *)
Definition speakerOption (selectedSpeakerUuid : option jsstring)
    (s : Speaker) : SelectOption :=
  {| oLabel := spName s;
     oDescription := join (lit ", ") (map stName (styles s));
     oValue := speaker_uuid s;
     oDefault := bool_decide (Some (speaker_uuid s) = selectedSpeakerUuid) |}.

(** [getVoiceSpeakerSelectMenu(selectedSpeakerUuid?)] *)
Definition getVoiceSpeakerSelectMenu (selectedSpeakerUuid : option jsstring)
    : Try Component :=
  options ← addOptions (map (speakerOption selectedSpeakerUuid) getSpeakers);
  Done (SelectMenuRow (lit "speakerSelected") "Choose the speaker..."
          options).

(** The button [getVoiceSpeakerStyleButtons] makes for a style. *)
Definition styleButton (st : Style) : Button :=
  {| bLabel := stName st;
     bCustomId := lit "speakerStyleSelected/" ++ number_to_string (stId st);
     bStyle := Primary |}.

(** [getVoiceSpeakerStyleButtons(speakerUuid)] *)
Definition getVoiceSpeakerStyleButtons (speakerUuid : jsstring)
    : Try (list Component) :=
  match getSpeakerByUUID speakerUuid with
  | None =>
      Throws (Raised (lit "speakerUuid does not exist: " ++ speakerUuid))
  | Some speaker =>
      buttons ← buildButtons (map styleButton (styles speaker));
      Done [ButtonRow buttons]
  end.

(** The speaker of the style a member has stored, as [slashVoice] and
    [selectMenuSpeakerSelected] look it up. *)
Definition currentSpeaker (st : Zundacord) (g u : string)
    : option StyledSpeaker :=
  match getMemberVoiceStyleId st g u with
  | Some styleId => getSpeakerById (number_to_string styleId)
  | None => None
  end.

Definition slashVoice (st : Zundacord) (interaction : Interaction)
    : Outcome :=
  answer
    (header ← embedSelectVoiceHeader
                (currentSpeaker st (iGuildId interaction)
                   (iUserId interaction));
     menu ← getVoiceSpeakerSelectMenu None;
     Done (Reply true [header] [menu])).

(** The second embed of [selectMenuSpeakerSelected]. *)
Definition termsEmbed (policy : jsstring) : EmbedData :=
  {| eFooter := "sarisia/zundacord"; eColor := COLOR_ACTION;
     eTitle := "You need to agree to the terms of service";
     eDescription := Some policy; eFields := [] |}.

Definition selectMenuSpeakerSelected (st : Zundacord)
    (interaction : Interaction) (speakerUuid : jsstring) : Outcome :=
  answer
    (header ← embedSelectVoiceHeader
                (currentSpeaker st (iGuildId interaction)
                   (iUserId interaction));
     policy ← setDescription (speakerInfoPolicy speakerUuid);
     menu ← getVoiceSpeakerSelectMenu (Some speakerUuid);
     buttons ← getVoiceSpeakerStyleButtons speakerUuid;
     Done (Update [header; termsEmbed policy] (menu :: buttons))).

(** [/^speakerStyleSelected\//] without its anchor. *)
Definition re_style_prefix : regex := str (lit "speakerStyleSelected/").

(** [interaction.customId.replace(/^speakerStyleSelected\//, "")] *)
Definition pressedStyleId (customId : jsstring) : jsstring :=
  replace_at_start re_style_prefix [] customId.

(** The fields of the embed "Voice is set!". *)
Definition chosenFields (speaker : StyledSpeaker) : list Field :=
  [ {| fName := "Speaker"; fValue := spName (ssSpeaker speaker);
       fInline := true |};
    {| fName := "Style"; fValue := ssStyleName speaker; fInline := true |} ].

(** [buttonSpeakerStyleSeleceted]: the voice is stored before the answer is
    built. *)
Definition buttonSpeakerStyleSeleceted (st : Zundacord)
    (interaction : Interaction) (customId : jsstring)
    : Zundacord * Outcome :=
  let styleId := pressedStyleId customId in
  match getSpeakerById styleId with
  | None =>
      (st,
       Responded
         (Update
            [described (zundaEmbed COLOR_FAILURE "Cannot set voice"
                          "Specified speaker / style is not found")]
            []))
  | Some speaker =>
      (App.buttonSpeakerStyleSeleceted st (iGuildId interaction)
         (iUserId interaction) (Some (ssStyleId speaker)),
       answer
         (fields ← setFields (chosenFields speaker);
          Done (Update
                  [ {| eFooter := "sarisia/zundacord";
                       eColor := COLOR_SUCCESS;
                       eTitle := "Voice is set!"; eDescription := None;
                       eFields := fields |} ]
                  [])))
  end.

(** [customId.split("/", 1)[0]] *)
Definition customCommand (customId : jsstring) : option jsstring :=
  split_limit (chr "/") 1 customId !! 0%nat.

(** The reply of the handlers of [App], which answer with one embed. *)
Definition replied (r : Zundacord * Embed) : Zundacord * Outcome :=
  (r.1, Responded (Reply true [described r.2] [])).

Definition eqs (a b : jsstring) : bool := bool_decide (a = b).

Definition onInteractionCreate `{UnicodeData} (st : Zundacord)
    (interaction : AnyInteraction) : Zundacord * Outcome :=
  if negb (inCachedGuild (base interaction)) then (st, Ignored)
  else
    match kind interaction with
    | ChatInputCommand commandName =>
        if eqs commandName (lit "voice")
        then (st, slashVoice st (base interaction))
        else if eqs commandName (lit "join")
        then replied (slashJoin st (base interaction))
        else if eqs commandName (lit "skip")
        then replied (slashSkip st (base interaction))
        else (st, Ignored)
    | MessageContextMenuCommand commandName target =>
        if eqs commandName (lit "Read this message")
        then replied
               (messageContextReadThisMessage st
                  {| mcGuildId := iGuildId (base interaction);
                     mcUserId := iUserId (base interaction);
                     targetMessage := target |})
        else (st, Ignored)
    | SelectMenu customId value0 =>
        match customCommand customId with
        | Some cmd =>
            if eqs cmd (lit "speakerSelected")
            then (st, selectMenuSpeakerSelected st (base interaction) value0)
            else (st, Ignored)
        | None => (st, Ignored)
        end
    | ButtonPressed customId =>
        match customCommand customId with
        | Some cmd =>
            if eqs cmd (lit "speakerStyleSelected")
            then buttonSpeakerStyleSeleceted st (base interaction) customId
            else (st, Ignored)
        | None => (st, Ignored)
        end
    | OtherInteraction => (st, Ignored)
    end.

End WithVoiceVox.

(** *** Start-up *)

Inductive CommandType := ChatInput | MessageCommand.

(** A command as [registerCommands] sends it. *)
Record Command := {
  cName : jsstring;
  cDescription : option string;
  cType : CommandType
}.

(** The body of the request of [registerCommands]. *)
Definition registerCommands : list Command :=
  [ {| cName := lit "voice";
       cDescription := Some "Set the speaker voice / style";
       cType := ChatInput |};
    {| cName := lit "join";
       cDescription := Some "Join the bot to the voice";
       cType := ChatInput |};
    {| cName := lit "skip";
       cDescription := Some "Skip the message reading now";
       cType := ChatInput |};
    {| cName := lit "Read this message"; cDescription := None;
       cType := MessageCommand |} ].

(** [new Zundacord(token, apiEndpoint)] with the configuration that
    [start] loads: no application id yet, no player. *)
Definition construct (config : gmap (string * string) Z) : Zundacord :=
  {| applicationId := ""; config := config;
     guildPlayers := ∅; players := ∅; voiceConnections := ∅;
     nextPlayer := 0; nextConnection := 0 |}.

(** [onReady]: [application] is [this.client.application?.id].  The result
    is the new state with the commands registered, or [None] when the
    handler throws. *)
Definition onReady (st : Zundacord) (application : option string)
    : option (Zundacord * list Command) :=
  match application with
  | None => None
  | Some applicationId =>
      if String.eqb applicationId "" then None
      else
        Some ({| App.applicationId := applicationId; config := config st;
                 guildPlayers := guildPlayers st; players := players st;
                 voiceConnections := voiceConnections st;
                 nextPlayer := nextPlayer st;
                 nextConnection := nextConnection st |},
              registerCommands)
  end.

(** The interaction a registered command arrives as. *)
Definition invocation (c : Command) (target : GuildMessage) : Kind :=
  match cType c with
  | ChatInput => ChatInputCommand (cName c)
  | MessageCommand => MessageContextMenuCommand (cName c) target
  end.

End Ui.

(* ===================================================================== *)
(** ** What an input is about                                             *)
(* ===================================================================== *)

Module AppLib.
Import JS App.

(** The input is addressed to the guild [g] or to the [Player] object
    [ref]: a message of the guild, a command given or a message picked in
    it, the loss of its connection, a report reaching the object. *)
Definition concerns (x : Input) (g : string) (ref : nat) : Prop :=
  match x with
  | MessageCreate msg => guildId msg = Some g
  | SlashJoin i | SlashSkip i => iGuildId i = g
  | ReadThisMessage i => gmGuildId (targetMessage i) = g
  | SpeakerStyleSelected _ _ _ => False
  | VoiceDisconnected g' _ _ => g' = g
  | PlayerReport r _ => r = ref
  end.

(** The input is a [/join] given in the guild [g]. *)
Definition joins (g : string) (x : Input) : Prop :=
  match x with
  | SlashJoin i => iGuildId i = g
  | _ => False
  end.

(** The input stores a voice for the member [u] of the guild [g]. *)
Definition selects (g u : string) (x : Input) : Prop :=
  match x with
  | SpeakerStyleSelected g' u' (Some _) => g' = g /\ u' = u
  | _ => False
  end.

(** The input can add to or remove from the registry: a [/join], or a
    connection lost for good. *)
Definition registers (x : Input) : Prop :=
  match x with
  | SlashJoin _ => True
  | VoiceDisconnected _ _ Rejected => True
  | _ => False
  end.



End AppLib.

(* ===================================================================== *)
(** ** More of the scenario                                               *)
(* ===================================================================== *)

(** A second guild ["h"] with the member ["w"] in its voice channel, and a
    synthesis service with one speaker of two styles. *)
Module Samples.
Import JS JSLib App Ui.

Definition elsewhere : Interaction :=
  {| iGuildId := "h"; iUserId := "w"; inCachedGuild := true;
     iMember := Some {| voiceChannel :=
                          Some {| channelId := "d"; channelName := "Lobby" |} |} |}.

Definition normal : Style := {| stName := lit "Normal"; stId := 3 |}.

Definition sweet : Style := {| stName := lit "Sweet"; stId := 1 |}.

Definition zundamon : Speaker :=
  {| spName := lit "Zundamon"; speaker_uuid := lit "388f246b";
     styles := [normal; sweet] |}.

Definition styled (sp : Speaker) (st : Style) : StyledSpeaker :=
  {| ssStyleId := stId st; ssStyleName := stName st; ssSpeaker := sp |}.

(** The engine of the scenario is never asked to print a number beyond
    the safe integers. *)
Definition numbers : NumberToString := fun _ => [].

(** Builders that take whatever is within the two bounds written out. *)
Definition builders : Builders :=
  {| fieldFits := fun _ => true; descriptionFits := fun _ => true;
     optionFits := fun _ => true; buttonFits := fun _ => true |}.

Definition voicevox : VoiceVoxClient :=
  {| getSpeakers := [zundamon];
     getSpeakerById := fun id =>
       styled zundamon
         <$> List.find
               (fun st => bool_decide
                            (@number_to_string numbers (stId st) = id))
               (styles zundamon);
     getSpeakerByUUID := fun uuid =>
       if bool_decide (uuid = speaker_uuid zundamon) then Some zundamon
       else None;
     speakerInfoPolicy := fun _ => lit "Free to use with credit" |}.

(** A service with 26 speakers, and one whose only style has no name. *)
Definition crowd : VoiceVoxClient :=
  {| getSpeakers := replicate 26 zundamon;
     getSpeakerById := @getSpeakerById voicevox;
     getSpeakerByUUID := @getSpeakerByUUID voicevox;
     speakerInfoPolicy := @speakerInfoPolicy voicevox |}.

Definition nameless : StyledSpeaker :=
  {| ssStyleId := 7; ssStyleName := [];
     ssSpeaker := {| spName := lit "Metan"; speaker_uuid := lit "7ffcb7ce";
                     styles := [ {| stName := []; stId := 7 |} ] |} |}.

Definition odd : VoiceVoxClient :=
  {| getSpeakers := [ssSpeaker nameless];
     getSpeakerById := fun id =>
       if bool_decide (id = lit "7") then Some nameless else None;
     getSpeakerByUUID := fun _ => Some (ssSpeaker nameless);
     speakerInfoPolicy := fun _ => lit "Free to use with credit" |}.

(** The bot in voice in ["g"], its connection gone without the
    [Disconnected] handler having run: the entry of ["g"] is still in the
    registry. *)
Definition stale : Zundacord :=
  {| applicationId := applicationId Scenario.talking;
     config := config Scenario.talking;
     guildPlayers := guildPlayers Scenario.talking;
     players := players Scenario.talking;
     voiceConnections := ∅;
     nextPlayer := nextPlayer Scenario.talking;
     nextConnection := nextConnection Scenario.talking |}.

Definition press (customId : jsstring) : AnyInteraction :=
  {| base := Scenario.skip; kind := ButtonPressed customId |}.

Definition command (name : string) : AnyInteraction :=
  {| base := Scenario.skip; kind := ChatInputCommand (lit name) |}.

End Samples.

(* ===================================================================== *)
(** ** Properties of the regular expression functions                     *)
(* ===================================================================== *)

Module JSFacts.
Import JS.

(** *** Matching *)

Lemma exec_str w : forall s k,
  exec (str w) (w ++ s) k = k s.
Proof.
  induction w as [|c w IH]; intros s k; simpl; [done|].
  by rewrite Z.eqb_refl, IH.
Qed.

Lemma exec_chr_head c x t k :
  x <> c -> exec (Chr c) (x :: t) k = None.
Proof. intros Hne. simpl. by destruct (Z.eqb_spec x c). Qed.

Lemma exec_cat_chr_head c r x t k :
  x <> c -> exec (Cat (Chr c) r) (x :: t) k = None.
Proof. intros Hne. simpl. by destruct (Z.eqb_spec x c). Qed.

(** A run of the class followed by a stop is taken whole when the rest of
    the pattern matches behind it. *)
Lemma plus_greedy_run p l : forall t k r,
  l <> [] -> Forall (fun c => p c = true) l -> stops p t ->
  k t = Some r ->
  plus_greedy p (l ++ t) k = Some r.
Proof.
  induction l as [|x l IH]; intros t k r Hne Hall Hstop Hk; [done|].
  apply Forall_cons in Hall as [Hx Hall]. simpl. rewrite Hx.
  destruct l as [|y l].
  - simpl. destruct t as [|c t]; simpl; [done|].
    simpl in Hstop. by rewrite Hstop.
  - by rewrite (IH t k r).
Qed.

(** *** Replacing *)

Lemma unmatched_cons r c tok rest :
  unmatched r (c :: tok) rest ->
  match_here r (c :: tok ++ rest) = None /\ unmatched r tok rest.
Proof.
  intros Hu. split.
  - by apply (Hu [] (c :: tok)).
  - intros a b -> Hb. by apply (Hu (c :: a) b).
Qed.

Lemma replace_first_skip r by_ tok rest :
  unmatched r tok rest ->
  replace_first r by_ (tok ++ rest) = tok ++ replace_first r by_ rest.
Proof.
  induction tok as [|c tok IH]; intros Hu; [done|].
  apply unmatched_cons in Hu as [Hc Hu]. simpl. rewrite Hc.
  by rewrite IH.
Qed.

Lemma replace_first_match r by_ m rest :
  m <> [] -> match_here r (m ++ rest) = Some rest ->
  replace_first r by_ (m ++ rest) = by_ ++ rest.
Proof. destruct m as [|c m]; [done|]. intros _ Hm. simpl in *. by rewrite Hm. Qed.

Lemma replace_all_from_drop r by_ a b :
  replace_all_from r by_ (length a) (a ++ b) = replace_all_from r by_ 0 b.
Proof.
  induction a as [|c a IH]; simpl; [|done].
  destruct b; by simpl.
Qed.

Lemma replace_all_skip r by_ tok rest :
  unmatched r tok rest ->
  replace_all r by_ (tok ++ rest) = tok ++ replace_all r by_ rest.
Proof.
  unfold replace_all.
  induction tok as [|c tok IH]; intros Hu; [done|].
  apply unmatched_cons in Hu as [Hc Hu]. simpl. rewrite Hc.
  by rewrite IH.
Qed.

Lemma replace_all_match r by_ m rest :
  m <> [] -> match_here r (m ++ rest) = Some rest ->
  replace_all r by_ (m ++ rest) = by_ ++ replace_all r by_ rest.
Proof.
  destruct m as [|c m]; [done|]. intros _ Hm.
  unfold replace_all. simpl in *. rewrite Hm.
  replace (length (m ++ rest) - length rest)%nat with (length m)
    by (rewrite length_app; lia).
  replace (S (length (m ++ rest)) - length rest)%nat with (S (length m))
    by (rewrite length_app; lia).
  by rewrite replace_all_from_drop.
Qed.

(** Removing a character class everywhere is filtering. *)
Lemma replace_all_class p l :
  replace_all (Class p) [] l = filter (fun c => p c = false) l.
Proof.
  unfold replace_all. induction l as [|c l IH]; [done|].
  simpl. unfold match_here. simpl. destruct (p c) eqn:E.
  - replace (S (length l) - length l)%nat with 1%nat by lia.
    rewrite filter_cons_False by congruence. done.
  - rewrite filter_cons_True by done. by rewrite IH.
Qed.

End JSFacts.

(* ===================================================================== *)
(** ** Properties of [getReadableString]                                  *)
(* ===================================================================== *)

Module UtilsFacts.
Import JS Utils JSFacts.

(** Evaluate the character and string literals. *)
Ltac literals :=
  repeat match goal with
  | |- context [chr ?a] =>
      let v := eval vm_compute in (chr a) in change (chr a) with v
  | |- context [lit ?a] =>
      let v := eval vm_compute in (lit a) in change (lit a) with v
  | H : context [chr ?a] |- _ =>
      let v := eval vm_compute in (chr a) in change (chr a) with v in H
  | H : context [lit ?a] |- _ =>
      let v := eval vm_compute in (lit a) in change (lit a) with v in H
  end.

(** *** White space and code points *)

Lemma white_space_cases c :
  is_white_space c = true ->
  9 <= c <= 13 \/ c = 0x20 \/ c = 0xA0 \/ c = 0x1680
  \/ 0x2000 <= c <= 0x200A \/ c = 0x2028 \/ c = 0x2029 \/ c = 0x202F
  \/ c = 0x205F \/ c = 0x3000 \/ c = 0xFEFF.
Proof.
  unfold is_white_space.
  rewrite !orb_true_iff, andb_true_iff, !Z.eqb_eq, !Z.leb_le. lia.
Qed.

Lemma surrogate_false c : c < 0xD800 \/ 0xDFFF < c -> is_surrogate c = false.
Proof.
  unfold is_surrogate. intros Hc.
  destruct (Z.leb_spec 0xD800 c), (Z.leb_spec c 0xDFFF); simpl; try done; lia.
Qed.

Lemma surrogate_high c : is_surrogate c = false -> is_high_surrogate c = false.
Proof.
  unfold is_surrogate, is_high_surrogate.
  destruct (Z.leb_spec 0xD800 c), (Z.leb_spec c 0xDFFF),
    (Z.leb_spec c 0xDBFF); simpl; try done; lia.
Qed.

Lemma white_space_not_surrogate c :
  is_white_space c = true -> is_surrogate c = false.
Proof. intros Hc%white_space_cases. apply surrogate_false. lia. Qed.

Lemma to_code_points_single c t :
  is_high_surrogate c = false ->
  to_code_points (c :: t) = c :: to_code_points t.
Proof. intros Hc. destruct t as [|d t]; simpl; [done|]. by rewrite Hc. Qed.

Lemma encode_small cp : cp < 0x10000 -> encode_code_point cp = [cp].
Proof. unfold encode_code_point. intros Hc. by destruct (Z.ltb_spec cp 0x10000); [|lia]. Qed.

(** Decoding undoes encoding, whatever follows. *)
Lemma to_code_points_encode cp t :
  0 <= cp < 0x110000 -> is_surrogate cp = false ->
  to_code_points (encode_code_point cp ++ t) = cp :: to_code_points t.
Proof.
  intros Hrange Hs. unfold encode_code_point.
  destruct (Z.ltb_spec cp 0x10000) as [Hlt|Hge]; simpl app.
  - apply to_code_points_single. by apply surrogate_high.
  - pose proof (Z.div_mod (cp - 0x10000) 0x400 ltac:(lia)) as Hdm.
    pose proof (Z.mod_pos_bound (cp - 0x10000) 0x400 ltac:(lia)) as Hm.
    assert (Hq : 0 <= (cp - 0x10000) / 0x400 < 0x400).
    { split; [apply Z.div_pos; lia | apply Z.div_lt_upper_bound; lia]. }
    change (to_code_points (?c :: ?d :: t))
      with (if is_high_surrogate c && is_low_surrogate d
            then pair_code_point c d :: to_code_points t
            else c :: to_code_points (d :: t)).
    unfold is_high_surrogate, is_low_surrogate, pair_code_point.
    repeat match goal with
    | |- context [Z.leb ?a ?b] => destruct (Z.leb_spec a b); try lia
    end.
    simpl. f_equal. lia.
Qed.

(** *** The URL pattern *)

Lemma url_head c t : c <> chr "h" -> match_here re_url (c :: t) = None.
Proof.
  intros Hc. unfold match_here, re_url. literals. simpl.
  by destruct (Z.eqb_spec c 104).
Qed.

(** A match of the URL pattern begins with [http://] or [https://]. *)
Lemma url_shape s rest :
  match_here re_url s = Some rest ->
  exists t, s = lit "http://" ++ t \/ s = lit "https://" ++ t.
Proof.
  unfold match_here, re_url. literals. simpl.
  repeat (destruct s as [|? s]; simpl; [done|];
          match goal with
          | |- context [Z.eqb ?x ?c] =>
              destruct (Z.eqb_spec x c); [subst|done]
          end).
  destruct s as [|c5 s]; simpl; [done|].
  destruct (Z.eqb_spec c5 115) as [->|Hs].
  - destruct s as [|c6 s]; simpl; [done|].
    destruct (Z.eqb_spec c6 58) as [->|]; [|done].
    destruct s as [|c7 s]; simpl; [done|].
    destruct (Z.eqb_spec c7 47) as [->|]; [|done].
    destruct s as [|c8 s]; simpl; [done|].
    destruct (Z.eqb_spec c8 47) as [->|]; [|done].
    intros _. exists s. by right.
  - destruct (Z.eqb_spec c5 58) as [->|]; [|done].
    destruct s as [|c7 s]; simpl; [done|].
    destruct (Z.eqb_spec c7 47) as [->|]; [|done].
    destruct s as [|c8 s]; simpl; [done|].
    destruct (Z.eqb_spec c8 47) as [->|]; [|done].
    intros _. exists s. by left.
Qed.

(** No URL begins in a run without colon that a colon and a digit follow,
    as in the name of an emoji escape. *)
Lemma url_not_in_name n d t :
  Forall (fun c => c <> chr ":") n -> is_digit d = true ->
  match_here re_url (n ++ chr ":" :: d :: t) = None.
Proof.
  intros Hn Hd. destruct (match_here re_url _) as [rest|] eqn:E; [|done].
  exfalso. apply url_shape in E as [u [Hu | Hu]]; literals; revert Hu Hn Hd.
  - destruct n as [|c1 [|c2 [|c3 [|c4 [|c5 n]]]]]; simpl; intros Hu Hn Hd;
      simplify_eq/=; try done;
      repeat match goal with
             | H : Forall _ (_ :: _) |- _ => apply Forall_cons in H as [? H]
             end; done.
  - destruct n as [|c1 [|c2 [|c3 [|c4 [|c5 [|c6 n]]]]]]; simpl; intros Hu Hn Hd;
      simplify_eq/=; try done;
      repeat match goal with
             | H : Forall _ (_ :: _) |- _ => apply Forall_cons in H as [? H]
             end; done.
Qed.

Lemma unmatched_by_head r tok rest :
  Forall (fun c => forall t, match_here r (c :: t) = None) tok ->
  unmatched r tok rest.
Proof.
  intros Hall a b -> Hb. apply Forall_app in Hall as [_ Hall].
  destruct b as [|c b]; [done|]. apply Forall_cons in Hall as [Hc _].
  apply Hc.
Qed.

(** The URL pattern matches a well formed URL up to the white space that
    ends it. *)
Lemma url_match secure body rest :
  well_formed_url body -> stops (fun c => negb (is_white_space c)) rest ->
  match_here re_url (url_units secure body ++ rest) = Some rest.
Proof.
  intros [Hne Hbody] Hstop. unfold match_here, re_url, url_units.
  literals. rewrite <- !app_assoc.
  assert (Hrun : plus_greedy (fun c => negb (is_white_space c))
                   (body ++ rest) Some = Some rest).
  { apply plus_greedy_run; try done.
    eapply Forall_impl; [exact Hbody|]. intros c Hc. simpl. by rewrite Hc. }
  destruct secure; simpl; by rewrite Hrun.
Qed.

(** *** The emoji escape pattern *)

Lemma emoji_head c t :
  c <> chr "<" -> match_here re_discord_emoji (c :: t) = None.
Proof.
  intros Hc. unfold match_here, re_discord_emoji. literals. simpl.
  by destruct (Z.eqb_spec c 60).
Qed.

(** A [<] that neither [a] nor [:] follows begins no escape. *)
Lemma emoji_after_lt t :
  stops (fun c => (c =? chr "a") || (c =? chr ":")) t ->
  match_here re_discord_emoji (chr "<" :: t) = None.
Proof.
  unfold match_here, re_discord_emoji. literals. simpl.
  destruct t as [|c t]; simpl; [done|]. intros Hc.
  apply orb_false_elim in Hc as [-> ->]. done.
Qed.

(** The pattern matches a well formed escape, and exactly it. *)
Lemma emoji_match animated name id rest :
  name <> [] -> Forall (fun c => c <> chr ":") name ->
  id <> [] -> Forall (fun c => is_digit c = true) id ->
  match_here re_discord_emoji (filler_units (Custom animated name id) ++ rest)
  = Some rest.
Proof.
  intros Hname Hcolon Hid Hdigits.
  unfold match_here, re_discord_emoji, filler_units. literals.
  assert (Hrun_id : plus_greedy is_digit (id ++ 62 :: rest)
            (fun s' => exec (Chr 62) s' Some) = Some rest).
  { apply plus_greedy_run; try done. }
  assert (Hrun_name :
    plus_greedy (fun c => negb (c =? 58)) (name ++ 58 :: id ++ 62 :: rest)
      (fun s' => exec (Cat (Chr 58) (Cat (Plus is_digit) (Chr 62))) s' Some)
    = Some rest).
  { apply plus_greedy_run; try done.
    eapply Forall_impl; [exact Hcolon|]. intros c Hc. simpl.
    by destruct (Z.eqb_spec c 58). }
  simpl in Hrun_name.
  destruct animated; simpl; repeat (rewrite <- app_assoc; simpl);
    by rewrite Hrun_name.
Qed.

Section WithUnicodeData.
Context `{UnicodeData}.

(** *** What fillers begin with *)

Lemma readable_basic_latin cp :
  not_readable cp = true ->
  cp <> chr "h" /\ cp <> chr "a" /\ cp <> chr ":".
Proof. intros Hc. literals. repeat split; intros ->; by vm_compute in Hc. Qed.

Lemma pictograph_units cp :
  well_formed (Pictograph cp) ->
  Forall (fun u => u <> chr "h" /\ u <> chr "a" /\ u <> chr ":")
    (encode_code_point cp).
Proof.
  intros (Hrange & Hs & Hnr). unfold encode_code_point.
  destruct (Z.ltb_spec cp 0x10000) as [Hlt|Hge].
  - apply readable_basic_latin in Hnr.
    apply List.Forall_cons; [exact Hnr | apply List.Forall_nil].
  - assert (Hq : 0 <= (cp - 0x10000) / 0x400).
    { apply Z.div_pos; lia. }
    pose proof (Z.mod_pos_bound (cp - 0x10000) 0x400 ltac:(lia)) as Hm.
    literals.
    repeat (apply List.Forall_cons || apply List.Forall_nil); lia.
Qed.

Lemma white_space_letters c :
  is_white_space c = true ->
  c <> chr "h" /\ c <> chr "a" /\ c <> chr ":" /\ c <> chr "<".
Proof. intros Hc%white_space_cases. literals. lia. Qed.

Lemma digit_letters c :
  is_digit c = true -> c <> chr "h".
Proof.
  unfold is_digit. rewrite andb_true_iff, !Z.leb_le. literals. lia.
Qed.

Lemma units_cons f fs : units (f :: fs) = filler_units f ++ units fs.
Proof. reflexivity. Qed.

Lemma units_app fs gs : units (fs ++ gs) = units fs ++ units gs.
Proof. apply flat_map_app. Qed.

(** *** First stage: the fillers hold no URL *)

Lemma replace_first_url_filler f rest :
  well_formed f ->
  replace_first re_url [] (filler_units f ++ rest)
  = filler_units f ++ replace_first re_url [] rest.
Proof.
  destruct f as [c|animated name id|cp]; cbn [filler_units well_formed].
  - intros Hc%white_space_letters. apply (replace_first_skip _ _ [c]).
    apply unmatched_by_head. apply List.Forall_cons; [|apply List.Forall_nil].
    intros t. apply url_head. tauto.
  - intros (Hname & Hcolon & Hid & Hdigits).
    pose (front := chr "<" :: (if animated then [chr "a"] else []) ++ [chr ":"]).
    pose (back := chr ":" :: id ++ [chr ">"]).
    assert (Hu : chr "<" :: (if animated then [chr "a"] else [])
                   ++ chr ":" :: name ++ chr ":" :: id ++ [chr ">"]
                 = front ++ name ++ back).
    { unfold front, back. simpl. by repeat (rewrite <- app_assoc; simpl). }
    rewrite Hu, <- !app_assoc.
    rewrite (replace_first_skip _ _ front).
    2: { apply unmatched_by_head. unfold front. literals.
         destruct animated; simpl;
           repeat (apply List.Forall_cons || apply List.Forall_nil);
           intros t; by apply url_head. }
    f_equal. rewrite (replace_first_skip _ _ name).
    2: { intros a b -> Hb. apply Forall_app in Hcolon as [_ Hcolon].
         destruct id as [|d id]; [done|].
         apply Forall_cons in Hdigits as [Hd _].
         unfold back. cbn [app]. by apply url_not_in_name. }
    f_equal. rewrite (replace_first_skip _ _ back); [done|].
    apply unmatched_by_head. unfold back.
    apply List.Forall_cons; [intros t; by apply url_head|].
    apply Forall_app. split.
    + eapply Forall_impl; [exact Hdigits|]. intros c Hc t. simpl in Hc.
      apply url_head. by apply digit_letters.
    + apply List.Forall_cons; [|apply List.Forall_nil].
      intros t. by apply url_head.
  - intros Hwf. apply replace_first_skip, unmatched_by_head.
    eapply Forall_impl; [by apply pictograph_units|].
    intros u (Hu & _) t. by apply url_head.
Qed.

Lemma replace_first_url_fillers fs rest :
  Forall well_formed fs ->
  replace_first re_url [] (units fs ++ rest)
  = units fs ++ replace_first re_url [] rest.
Proof.
  induction fs as [|f fs IH]; intros Hfs; [done|].
  apply Forall_cons in Hfs as [Hf Hfs].
  rewrite units_cons, <- !app_assoc, replace_first_url_filler by done.
  by rewrite IH.
Qed.

(** *** Second stage: the escapes go, the rest stays *)

Lemma units_head fs :
  Forall well_formed fs ->
  stops (fun c => (c =? chr "a") || (c =? chr ":")) (units fs).
Proof.
  destruct fs as [|f fs]; [done|]. intros [Hf _]%Forall_cons.
  rewrite units_cons. destruct f as [c|animated name id|cp]; simpl.
  - apply white_space_letters in Hf. literals.
    destruct (Z.eqb_spec c 97), (Z.eqb_spec c 58); simpl; try done; lia.
  - done.
  - pose proof (pictograph_units cp Hf) as Hu. revert Hu. literals.
    unfold encode_code_point. destruct (cp <? 0x10000); simpl;
      intros [Hu _]%Forall_cons;
      match goal with |- (?u =? 97) || _ = false =>
        destruct (Z.eqb_spec u 97), (Z.eqb_spec u 58); simpl; try done; lia
      end.
Qed.

Lemma replace_all_emoji_fillers fs :
  Forall well_formed fs ->
  replace_all re_discord_emoji [] (units fs)
  = units (filter (fun f => is_custom f = false) fs).
Proof.
  induction fs as [|f fs IH]; intros Hfs; [done|].
  apply Forall_cons in Hfs as [Hf Hfs]. rewrite units_cons.
  destruct f as [c|animated name id|cp].
  - rewrite filter_cons_True by done. rewrite units_cons.
    rewrite replace_all_skip; [by rewrite IH|].
    apply unmatched_by_head. apply List.Forall_cons; [|apply List.Forall_nil].
    intros t. apply emoji_head. apply white_space_letters in Hf. tauto.
  - rewrite filter_cons_False by done.
    destruct Hf as (Hname & Hcolon & Hid & Hdigits).
    rewrite replace_all_match; [by rewrite IH | done | by apply emoji_match].
  - rewrite filter_cons_True by done. rewrite units_cons.
    rewrite replace_all_skip; [by rewrite IH|].
    destruct Hf as (Hrange & Hs & Hnr). simpl. unfold encode_code_point.
    destruct (Z.ltb_spec cp 0x10000) as [Hlt|Hge].
    + intros a b Hab Hb.
      destruct a as [|x a]; simpl in Hab; [subst b|].
      2: { destruct a; simplify_eq/=. }
      simpl. destruct (decide (cp = chr "<")) as [->|Hne].
      * apply emoji_after_lt. by apply units_head.
      * by apply emoji_head.
    + apply unmatched_by_head.
      assert (Hq : 0 <= (cp - 0x10000) / 0x400) by (apply Z.div_pos; lia).
      pose proof (Z.mod_pos_bound (cp - 0x10000) 0x400 ltac:(lia)) as Hm.
      repeat (apply List.Forall_cons || apply List.Forall_nil);
        intros t; apply emoji_head; literals; lia.
Qed.

(** *** Third and fourth stage: white space is all that is left *)

Lemma to_code_points_fillers fs :
  Forall well_formed fs -> Forall (fun f => is_custom f = false) fs ->
  to_code_points (units fs) = map filler_code_point fs.
Proof.
  induction fs as [|f fs IH]; intros Hfs Hnc; [done|].
  apply Forall_cons in Hfs as [Hf Hfs]. apply Forall_cons in Hnc as [Hc Hnc].
  rewrite units_cons.
  destruct f as [c|animated name id|cp]; [| done |];
    cbn [filler_units filler_code_point map app].
  - rewrite to_code_points_single, IH; try done.
    by apply surrogate_high, white_space_not_surrogate.
  - destruct Hf as (Hrange & Hs & Hnr).
    by rewrite to_code_points_encode, IH.
Qed.

Lemma readable_fillers_are_space fs :
  Forall well_formed fs -> Forall (fun f => is_custom f = false) fs ->
  Forall (fun c => is_white_space c = true)
    (filter (fun c => not_readable c = false) (map filler_code_point fs)).
Proof.
  induction fs as [|f fs IH]; intros Hfs Hnc; [constructor|].
  apply Forall_cons in Hfs as [Hf Hfs]. apply Forall_cons in Hnc as [Hc Hnc].
  destruct f as [c|animated name id|cp]; [| done |]; simpl.
  - rewrite filter_cons. destruct (decide _); [|by apply IH].
    apply List.Forall_cons; [done | by apply IH].
  - destruct Hf as (Hrange & Hs & Hnr).
    rewrite filter_cons_False by congruence. by apply IH.
Qed.

Lemma from_code_points_white_space l :
  Forall (fun c => is_white_space c = true) l -> from_code_points l = l.
Proof.
  induction l as [|c l IH]; intros Hl; [done|].
  apply Forall_cons in Hl as [Hc Hl]. unfold from_code_points in *. simpl.
  rewrite IH by done. rewrite encode_small; [done|].
  apply white_space_cases in Hc. lia.
Qed.

Lemma trimStart_white_space l :
  Forall (fun c => is_white_space c = true) l -> trimStart l = [].
Proof.
  induction l as [|c l IH]; intros Hl; [done|].
  apply Forall_cons in Hl as [Hc Hl]. simpl. rewrite Hc. by apply IH.
Qed.

Lemma trim_white_space l :
  Forall (fun c => is_white_space c = true) l -> trim l = [].
Proof. intros Hl. unfold trim. by rewrite trimStart_white_space. Qed.

(** Fillers alone leave nothing to read. *)
Lemma fillers_unreadable fs :
  Forall well_formed fs ->
  trim (replace_all_u re_unicode_emoji []
          (replace_all re_discord_emoji [] (units fs))) = [].
Proof.
  intros Hfs. rewrite replace_all_emoji_fillers by done.
  set (gs := filter (fun f => is_custom f = false) fs).
  assert (Hgs : Forall well_formed gs).
  { apply Forall_forall. intros f [_ Hf]%list_elem_of_filter.
    by apply (proj1 (Forall_forall _ _) Hfs). }
  assert (Hnc : Forall (fun f => is_custom f = false) gs).
  { apply Forall_forall. by intros f [Hf _]%list_elem_of_filter. }
  unfold replace_all_u, re_unicode_emoji.
  rewrite to_code_points_fillers, replace_all_class by done.
  pose proof (readable_fillers_are_space gs Hgs Hnc) as Hws.
  rewrite from_code_points_white_space by done.
  by apply trim_white_space.
Qed.

(** The fillers a URL takes with it, and those it leaves. *)
Lemma digit_not_white_space c : is_digit c = true -> is_white_space c = false.
Proof.
  unfold is_digit. rewrite andb_true_iff, !Z.leb_le. intros Hc.
  destruct (is_white_space c) eqn:E; [|done].
  apply white_space_cases in E. lia.
Qed.

Lemma solid_custom animated name id :
  well_formed (Custom animated name id) ->
  Forall (fun c => is_white_space c = false) name ->
  Forall (fun c => is_white_space c = false)
    (filler_units (Custom animated name id)).
Proof.
  intros (_ & _ & _ & Hdigits) Hname. cbn [filler_units].
  apply List.Forall_cons; [by vm_compute|]. apply Forall_app. split.
  { destruct animated; [|apply List.Forall_nil].
    apply List.Forall_cons; [by vm_compute | apply List.Forall_nil]. }
  apply List.Forall_cons; [by vm_compute|]. apply Forall_app. split; [done|].
  apply List.Forall_cons; [by vm_compute|]. apply Forall_app. split.
  - eapply Forall_impl; [exact Hdigits|]. intros c Hc.
    by apply digit_not_white_space.
  - apply List.Forall_cons; [by vm_compute | apply List.Forall_nil].
Qed.

Lemma solid_pictograph cp :
  0 <= cp < 0x110000 -> is_white_space cp = false ->
  Forall (fun c => is_white_space c = false) (encode_code_point cp).
Proof.
  intros Hrange Hcp. unfold encode_code_point.
  destruct (Z.ltb_spec cp 0x10000) as [Hlt|Hge].
  - apply List.Forall_cons; [done | apply List.Forall_nil].
  - assert (Hq : 0 <= (cp - 0x10000) / 0x400 < 0x400).
    { split; [apply Z.div_pos; lia | apply Z.div_lt_upper_bound; lia]. }
    pose proof (Z.mod_pos_bound (cp - 0x10000) 0x400 ltac:(lia)) as Hm.
    repeat (apply List.Forall_cons || apply List.Forall_nil);
      match goal with |- is_white_space ?c = false =>
        destruct (is_white_space c) eqn:E; [|done];
        apply white_space_cases in E; lia
      end.
Qed.

Lemma delimited_split post :
  Forall well_formed post -> delimited post ->
  exists taken rest,
    post = taken ++ rest
    /\ Forall (fun c => is_white_space c = false) (units taken)
    /\ stops (fun c => negb (is_white_space c)) (units rest).
Proof.
  induction post as [|f post IH]; intros Hwf Hd.
  - by exists [], [].
  - apply Forall_cons in Hwf as [Hf Hwf].
    destruct f as [c|animated name id|cp].
    + exists [], (Space c :: post). split; [done|]. split; [constructor|].
      simpl in *. by rewrite Hf.
    + destruct Hd as [Hname Hd].
      destruct (IH Hwf Hd) as (taken & rest & -> & Htaken & Hrest).
      exists (Custom animated name id :: taken), rest.
      split; [done|]. split; [|done].
      rewrite units_cons. apply Forall_app. split; [|done].
      by apply solid_custom.
    + destruct (is_white_space cp) eqn:Hcp.
      * exists [], (Pictograph cp :: post). split; [done|].
        split; [constructor|]. rewrite units_cons. cbn [filler_units].
        rewrite encode_small by (apply white_space_cases in Hcp; lia).
        simpl. by rewrite Hcp.
      * destruct Hd as [Hd|Hd]; [congruence|].
        destruct (IH Hwf Hd) as (taken & rest & -> & Htaken & Hrest).
        exists (Pictograph cp :: taken), rest.
        split; [done|]. split; [|done].
        rewrite units_cons. apply Forall_app. split; [|done].
        destruct Hf as (Hrange & _). by apply solid_pictograph.
Qed.

(** A URL among fillers, ended by white space or by the end of the
    content: nothing is left to read. *)
Lemma url_and_fillers_unreadable pre secure body post :
  Forall well_formed pre -> well_formed_url body ->
  Forall well_formed post -> delimited post ->
  getReadableString (units pre ++ url_units secure body ++ units post) = [].
Proof.
  intros Hpre [Hne Hbody] Hpost Hd. unfold getReadableString.
  destruct (delimited_split post Hpost Hd)
    as (taken & rest & -> & Htaken & Hrest).
  apply Forall_app in Hpost as [_ Hrest_wf].
  rewrite replace_first_url_fillers by done.
  assert (Hurl : url_units secure body ++ units (taken ++ rest)
                 = url_units secure (body ++ units taken) ++ units rest).
  { unfold url_units. rewrite units_app. by rewrite <- !app_assoc. }
  rewrite Hurl, replace_first_match.
  - simpl. rewrite <- units_app. apply fillers_unreadable.
    apply Forall_app. by split.
  - unfold url_units. by literals.
  - apply url_match; [|done]. split; [by destruct body|].
    apply Forall_app. by split.
Qed.

(** Nothing is left of a content with nothing to read in it. *)
Lemma nothing_to_read_unreadable content :
  nothing_to_read content -> getReadableString content = [].
Proof.
  intros [(fs & Hfs & ->)
         |(pre & secure & body & post & Hpre & Hbody & Hpost & Hd & ->)].
  - unfold getReadableString.
    rewrite <- (app_nil_r (units fs)), replace_first_url_fillers by done.
    simpl. rewrite app_nil_r. by apply fillers_unreadable.
  - by apply url_and_fillers_unreadable.
Qed.

(** The digit of a keycap emoji is kept, whatever the categories of the
    variation selector and of the enclosing keycap are. *)
Lemma keycap_digit_is_kept :
  head (getReadableString (lit "http://x.example " ++ keycap_one))
  = Some 0x31.
Proof.
  unfold getReadableString, replace_all_u, re_unicode_emoji.
  rewrite replace_all_class.
  change (replace_all re_discord_emoji []
            (replace_first re_url [] (lit "http://x.example " ++ keycap_one)))
    with [0x20; 0x31; 0xFE0F; 0x20E3].
  change (to_code_points [0x20; 0x31; 0xFE0F; 0x20E3])
    with [0x20; 0x31; 0xFE0F; 0x20E3].
  rewrite !filter_cons_True by (by vm_compute).
  destruct (not_readable 0xFE0F) eqn:E1, (not_readable 0x20E3) eqn:E2;
    repeat first [rewrite filter_cons_True by congruence
                 |rewrite filter_cons_False by congruence];
    rewrite filter_nil; reflexivity.
Qed.

End WithUnicodeData.
End UtilsFacts.

(* ===================================================================== *)
(** ** The claim about [getReadableString]                                *)
(* ===================================================================== *)

Module UtilsClaims.
Import JS Utils JSFacts UtilsFacts.

(** C8: the URL pattern is applied once: the leftmost match is removed and
    the text behind it is returned as it is, further URLs included; the
    emoji escape pattern is applied along the whole text: behind each match
    the scan goes on; of the code points, exactly those in the letter,
    number, punctuation and separator classes are kept.  So the second of
    two URLs separated by text survives, while every escape and every
    symbol of the same message is removed. *)
Theorem url_once_emoji_everywhere `{UnicodeData} :
  (forall pre m post,
     unmatched re_url pre (m ++ post) -> m <> [] ->
     match_here re_url (m ++ post) = Some post ->
     replace_first re_url [] (pre ++ m ++ post) = pre ++ post)
  /\ (forall pre m post,
        unmatched re_discord_emoji pre (m ++ post) -> m <> [] ->
        match_here re_discord_emoji (m ++ post) = Some post ->
        replace_all re_discord_emoji [] (pre ++ m ++ post)
        = pre ++ replace_all re_discord_emoji [] post)
  /\ (forall s,
        replace_all_u re_unicode_emoji [] s
        = from_code_points
            (filter (fun cp => not_readable cp = false) (to_code_points s)))
  /\ getReadableString (lit "http://a.example see http://b.example")
     = lit "see http://b.example"
  /\ getReadableString (lit "<:a:1> http://x <a:b:22> y $+ http://z")
     = lit "y  http://z".
Proof.
  split; [|split; [|split; [|split]]].
  - intros pre m post Hpre Hm Hmatch.
    rewrite replace_first_skip by done. by rewrite replace_first_match.
  - intros pre m post Hpre Hm Hmatch.
    rewrite replace_all_skip by done. by rewrite replace_all_match.
  - intros s. unfold replace_all_u, re_unicode_emoji.
    by rewrite replace_all_class.
  - by vm_compute.
  - by vm_compute.
Qed.

Lemma url_once_emoji_everywhere_witness :
  unmatched re_url (lit "see ") (lit "http://a" ++ lit " or http://b")
  /\ replace_first re_url [] (lit "see http://a or http://b")
     = lit "see  or http://b"
  /\ replace_all re_discord_emoji [] (lit "<:a:1><:b:2>.")
     = replace_all re_discord_emoji [] (lit "<:b:2>.").
Proof.
  destruct (@url_once_emoji_everywhere basic_latin_only)
    as (Hurl & Hemoji & _).
  assert (Hpre : unmatched re_url (lit "see ") (lit "http://a" ++ lit " or http://b")).
  { intros a b Hab Hb.
    destruct a as [|? [|? [|? [|? [|? a]]]]]; vm_compute in Hab;
      simplify_eq; by vm_compute. }
  split; [exact Hpre|]. split.
  - exact (Hurl (lit "see ") (lit "http://a") (lit " or http://b")
             Hpre ltac:(done) eq_refl).
  - assert (Hnil : unmatched re_discord_emoji []
                       (lit "<:a:1>" ++ lit "<:b:2>.")).
    { intros [|? ?] b Hab Hb; by simplify_eq/=. }
    exact (Hemoji [] (lit "<:a:1>") (lit "<:b:2>.") Hnil ltac:(done) eq_refl).
Defined.

End UtilsClaims.

(* ===================================================================== *)
(** ** More properties of [getReadableString]                             *)
(* ===================================================================== *)

Module UtilsExtras.
Import JS Utils JSLib JSFacts UtilsFacts.

(** *** What is left after a match is a suffix of the input *)

Lemma plus_greedy_suffix p s : forall k rest,
  (forall t r, k t = Some r -> r `suffix_of` t) ->
  plus_greedy p s k = Some rest -> rest `suffix_of` s.
Proof.
  induction s as [|c s IH]; intros k rest Hk; simpl; [done|].
  destruct (p c); [|done].
  destruct (plus_greedy p s k) as [r|] eqn:E.
  - intros [= <-]. apply suffix_cons_r. by apply (IH k).
  - intros Hr. apply suffix_cons_r. by apply Hk.
Qed.

Lemma exec_suffix r : forall s k rest,
  (forall t r', k t = Some r' -> r' `suffix_of` t) ->
  exec r s k = Some rest -> rest `suffix_of` s.
Proof.
  induction r as [|c|p|r IH|r1 IH1 r2 IH2|p]; intros s k rest Hk; simpl.
  - apply Hk.
  - destruct s as [|x t]; [done|]. destruct (x =? c); [|done].
    intros Hr. apply suffix_cons_r. by apply Hk.
  - destruct s as [|x t]; [done|]. destruct (p x); [|done].
    intros Hr. apply suffix_cons_r. by apply Hk.
  - destruct (exec r s k) as [r'|] eqn:E.
    + intros [= <-]. by apply (IH s k).
    + apply Hk.
  - apply IH1. intros t r' Hr'. by apply (IH2 t k).
  - by apply plus_greedy_suffix.
Qed.

Lemma match_here_suffix r s rest :
  match_here r s = Some rest -> rest `suffix_of` s.
Proof. apply exec_suffix. intros t r' [= <-]. done. Qed.

Lemma suffix_sublist (l k : list Z) : l `suffix_of` k -> l `sublist_of` k.
Proof. intros [pre ->]. apply sublist_inserts_l. done. Qed.

(** *** Each stage only deletes *)

Lemma replace_first_sublist r s : replace_first r [] s `sublist_of` s.
Proof.
  induction s as [|c s IH]; simpl.
  - by destruct (match_here r []).
  - destruct (match_here r (c :: s)) as [rest|] eqn:E.
    + by apply suffix_sublist, match_here_suffix with r.
    + by apply sublist_skip.
Qed.

Lemma replace_all_from_sublist r s : forall n,
  replace_all_from r [] n s `sublist_of` s.
Proof.
  induction s as [|c s IH]; intros n; simpl.
  - by destruct n, (match_here r []).
  - destruct n as [|n]; [|by apply sublist_cons].
    destruct (match_here r (c :: s)) as [rest|].
    + simpl. destruct (S (length s) - length rest)%nat.
      * by apply sublist_skip.
      * by apply sublist_cons.
    + by apply sublist_skip.
Qed.

Lemma replace_all_sublist r s : replace_all r [] s `sublist_of` s.
Proof. apply replace_all_from_sublist. Qed.

(** Induction along the way [to_code_points] reads its input. *)
Lemma code_point_ind (P : list Z -> Prop) :
  P [] -> (forall c, P [c]) ->
  (forall c d t, P t -> P (d :: t) -> P (c :: d :: t)) ->
  forall s, P s.
Proof.
  intros Hnil Hone Hstep s.
  assert (H : P s /\ forall c, P (c :: s)); [|by destruct H].
  induction s as [|d t [IH1 IH2]]; [by split|].
  split; [apply IH2|]. intros c. apply Hstep; [done | apply IH2].
Qed.

Lemma encode_pair c d :
  is_high_surrogate c = true -> is_low_surrogate d = true ->
  encode_code_point (pair_code_point c d) = [c; d].
Proof.
  unfold is_high_surrogate, is_low_surrogate, encode_code_point,
    pair_code_point.
  rewrite !andb_true_iff, !Z.leb_le. intros [Hc1 Hc2] [Hd1 Hd2].
  destruct (Z.ltb_spec (0x10000 + (c - 0xD800) * 0x400 + (d - 0xDC00)) 0x10000);
    [lia|].
  replace (0x10000 + (c - 0xD800) * 0x400 + (d - 0xDC00) - 0x10000)
    with ((d - 0xDC00) + (c - 0xD800) * 0x400) by lia.
  rewrite Z.div_add, Z.mod_add by lia.
  rewrite Z.div_small, Z.mod_small by lia. f_equal; [lia | f_equal; lia].
Qed.

Lemma filtered_code_points_sublist (P : Z -> Prop)
    `{!forall c, Decision (P c)} s :
  code_units s ->
  from_code_points (filter P (to_code_points s)) `sublist_of` s.
Proof.
  unfold code_units, from_code_points.
  induction s as [| c | c d t IH1 IH2] using code_point_ind; intros Hs.
  - done.
  - apply Forall_cons in Hs as [Hc _]. simpl.
    rewrite filter_cons. destruct (decide (P c)); simpl.
    + by rewrite encode_small by lia.
    + by apply sublist_cons.
  - pose proof Hs as Hs'.
    apply Forall_cons in Hs as [Hc Hs]. apply Forall_cons in Hs as [Hd Ht].
    change (to_code_points (c :: d :: t))
      with (if is_high_surrogate c && is_low_surrogate d
            then pair_code_point c d :: to_code_points t
            else c :: to_code_points (d :: t)).
    destruct (is_high_surrogate c && is_low_surrogate d) eqn:E.
    + apply andb_prop in E as [Ehi Elo].
      rewrite filter_cons. destruct (decide (P _)); simpl.
      * rewrite encode_pair by done. simpl.
        by apply sublist_skip, sublist_skip, IH1.
      * by apply sublist_cons, sublist_cons, IH1.
    + rewrite filter_cons. destruct (decide (P c)); simpl.
      * rewrite encode_small by lia. simpl. apply sublist_skip, IH2.
        by apply Forall_cons.
      * apply sublist_cons, IH2. by apply Forall_cons.
Qed.

Lemma trimStart_suffix s : trimStart s `suffix_of` s.
Proof.
  induction s as [|c s IH]; simpl; [done|].
  destruct (is_white_space c); [by apply suffix_cons_r | done].
Qed.

Lemma trimEnd_snoc l c :
  trimEnd (l ++ [c]) = if is_white_space c then trimEnd l else l ++ [c].
Proof.
  unfold trimEnd. rewrite rev_unit. simpl.
  destruct (is_white_space c); [done|]. simpl. by rewrite rev_involutive.
Qed.

Lemma trimEnd_prefix s : trimEnd s `prefix_of` s.
Proof.
  induction s as [|c s IH] using rev_ind; [done|].
  rewrite trimEnd_snoc. destruct (is_white_space c); [|done].
  by apply prefix_app_r.
Qed.

Lemma prefix_sublist (l k : list Z) : l `prefix_of` k -> l `sublist_of` k.
Proof. intros [post ->]. by apply sublist_inserts_r. Qed.

Lemma trim_sublist s : trim s `sublist_of` s.
Proof.
  unfold trim. etrans.
  - apply prefix_sublist, trimEnd_prefix.
  - apply suffix_sublist, trimStart_suffix.
Qed.

Lemma sublist_code_units s t :
  s `sublist_of` t -> code_units t -> code_units s.
Proof.
  unfold code_units. intros Hs Ht. apply Forall_forall. intros c Hc.
  apply (proj1 (Forall_forall _ _) Ht). by eapply elem_of_sublist.
Qed.


Section WithUnicodeData.
Context `{UnicodeData}.

(** X1: [getReadableString] only deletes: for every string of 16-bit code
    units the result is a subsequence of the input: no character is
    added, changed or moved. *)
Theorem readable_is_subsequence s :
  code_units s -> getReadableString s `sublist_of` s.
Proof.
  intros Hs. unfold getReadableString, replace_all_u, re_unicode_emoji.
  set (s1 := replace_first re_url [] s).
  set (s2 := replace_all re_discord_emoji [] s1).
  assert (H1 : s1 `sublist_of` s) by apply replace_first_sublist.
  assert (H2 : s2 `sublist_of` s1) by apply replace_all_sublist.
  assert (Hs2 : code_units s2).
  { apply sublist_code_units with s; [by etrans | done]. }
  etrans; [apply trim_sublist|]. rewrite replace_all_class. simpl.
  etrans; [by apply filtered_code_points_sublist|]. by etrans.
Qed.

(** *** The result is trimmed *)

Lemma trimStart_head s c :
  head (trimStart s) = Some c -> is_white_space c = false.
Proof.
  induction s as [|x s IH]; simpl; [done|].
  destruct (is_white_space x) eqn:E; [done|]. simpl. by intros [= <-].
Qed.

Lemma last_rev (l : list Z) : last (rev l) = head l.
Proof. destruct l as [|c l]; [done|]. simpl. apply last_snoc. Qed.

Lemma trimEnd_last s c :
  last (trimEnd s) = Some c -> is_white_space c = false.
Proof. unfold trimEnd. rewrite last_rev. apply trimStart_head. Qed.

Lemma trimEnd_head s c :
  head s = Some c -> is_white_space c = false -> head (trimEnd s) = Some c.
Proof.
  induction s as [|x s IH] using rev_ind; [done|]. intros Hh Hc.
  rewrite trimEnd_snoc. destruct (is_white_space x) eqn:E; [|done].
  destruct s as [|y s]; simpl in *.
  - injection Hh as ->. congruence.
  - by apply IH.
Qed.

(** X2: the result of [getReadableString] is trimmed: it neither begins
    nor ends with a white space character, whatever the input. *)
Theorem readable_is_trimmed s c :
  head (getReadableString s) = Some c \/ last (getReadableString s) = Some c ->
  is_white_space c = false.
Proof.
  unfold getReadableString, trim.
  set (t := replace_all_u _ _ _). intros [Hh | Hl].
  - destruct (head (trimStart t)) as [x|] eqn:E.
    + pose proof (trimStart_head _ _ E) as Hx.
      rewrite (trimEnd_head _ x E Hx) in Hh. by injection Hh as <-.
    + destruct (trimStart t); [|done]. done.
  - by apply trimEnd_last in Hl.
Qed.

(** *** What the result is made of *)

Lemma scalar_round_trip ks :
  Forall scalar ks -> to_code_points (from_code_points ks) = ks.
Proof.
  unfold from_code_points.
  induction ks as [|k ks IH]; intros Hks; [done|].
  apply Forall_cons in Hks as [[Hr Hs] Hks]. simpl.
  by rewrite to_code_points_encode, IH.
Qed.

Lemma to_code_points_range s :
  code_units s -> Forall (fun cp => 0 <= cp < 0x110000) (to_code_points s).
Proof.
  unfold code_units.
  induction s as [| c | c d t IH1 IH2] using code_point_ind; intros Hs.
  - constructor.
  - apply Forall_cons in Hs as [Hc _]. simpl.
    apply List.Forall_cons; [lia | constructor].
  - pose proof Hs as Hs'.
    apply Forall_cons in Hs as [Hc Hs]. apply Forall_cons in Hs as [Hd Ht].
    change (to_code_points (c :: d :: t))
      with (if is_high_surrogate c && is_low_surrogate d
            then pair_code_point c d :: to_code_points t
            else c :: to_code_points (d :: t)).
    destruct (is_high_surrogate c && is_low_surrogate d) eqn:E.
    + apply List.Forall_cons; [|by apply IH1].
      apply andb_prop in E as [Ehi Elo].
      unfold is_high_surrogate, is_low_surrogate, pair_code_point in *.
      rewrite andb_true_iff, !Z.leb_le in Ehi, Elo. lia.
    + apply List.Forall_cons; [lia|]. apply IH2. by apply Forall_cons.
Qed.

Lemma readable_not_surrogate cp :
  not_readable cp = false -> is_surrogate cp = false.
Proof.
  intros Hr. destruct (is_surrogate cp) eqn:E; [|done].
  unfold is_surrogate in E. rewrite andb_true_iff, !Z.leb_le in E.
  revert Hr. unfold not_readable, has_category, general_category.
  destruct (Z.ltb_spec cp 0x80); [lia|].
  unfold is_surrogate.
  destruct (Z.leb_spec 0xD800 cp), (Z.leb_spec cp 0xDFFF); simpl;
    try lia; done.
Qed.

Lemma encode_app k ks :
  from_code_points (k :: ks) = encode_code_point k ++ from_code_points ks.
Proof. reflexivity. Qed.

Lemma from_code_points_app ks ls :
  from_code_points (ks ++ ls) = from_code_points ks ++ from_code_points ls.
Proof. apply flat_map_app. Qed.

(** Trimming a string given by its code points trims the code points. *)
Lemma trimStart_code_points ks :
  Forall scalar ks ->
  exists ks', trimStart (from_code_points ks) = from_code_points ks'
              /\ ks' `suffix_of` ks.
Proof.
  induction ks as [|k ks IH]; intros Hks; [by exists []|].
  apply Forall_cons in Hks as [[Hr Hs] Hks]. rewrite encode_app.
  unfold encode_code_point. destruct (Z.ltb_spec k 0x10000) as [Hlt|Hge].
  - simpl. destruct (is_white_space k).
    + destruct (IH Hks) as (ks' & Heq & Hsuf). exists ks'.
      split; [done | by apply suffix_cons_r].
    + exists (k :: ks). split; [|done].
      by rewrite encode_app, encode_small.
  - exists (k :: ks). split; [|done].
    assert (Hq : 0 <= (k - 0x10000) / 0x400 < 0x400).
    { split; [apply Z.div_pos; lia | apply Z.div_lt_upper_bound; lia]. }
    assert (E : is_white_space (0xD800 + (k - 0x10000) / 0x400) = false).
    { destruct (is_white_space _) eqn:E; [|done].
      apply white_space_cases in E. lia. }
    rewrite encode_app. unfold encode_code_point.
    destruct (Z.ltb_spec k 0x10000); [lia|].
    cbn [app trimStart]. by rewrite E.
Qed.

Lemma trimEnd_code_points ks :
  Forall scalar ks ->
  exists ks', trimEnd (from_code_points ks) = from_code_points ks'
              /\ ks' `prefix_of` ks.
Proof.
  induction ks as [|k ks IH] using rev_ind; intros Hks; [by exists []|].
  apply Forall_app in Hks as [Hks [[Hr Hs] _]%Forall_cons].
  rewrite from_code_points_app. unfold from_code_points at 2. simpl.
  rewrite app_nil_r. unfold encode_code_point.
  destruct (Z.ltb_spec k 0x10000) as [Hlt|Hge].
  - rewrite trimEnd_snoc. destruct (is_white_space k).
    + destruct (IH Hks) as (ks' & Heq & Hpre). exists ks'.
      split; [done | by apply prefix_app_r].
    + exists (ks ++ [k]). split; [|done].
      rewrite from_code_points_app. unfold from_code_points at 3. simpl.
      by rewrite encode_small.
  - exists (ks ++ [k]). split; [|done].
    pose proof (Z.mod_pos_bound (k - 0x10000) 0x400 ltac:(lia)) as Hm.
    change [?a; ?b] with ([a] ++ [b]). rewrite app_assoc, trimEnd_snoc.
    destruct (is_white_space (0xDC00 + (k - 0x10000) mod 0x400)) eqn:E.
    + apply white_space_cases in E. lia.
    + rewrite from_code_points_app. unfold from_code_points at 3. simpl.
      rewrite app_nil_r. unfold encode_code_point.
      destruct (Z.ltb_spec k 0x10000); [lia|]. by rewrite <- app_assoc.
Qed.

(** The result is the encoding of code points that are all letters,
    numbers, punctuation marks or separators. *)
Lemma readable_code_points s :
  code_units s ->
  exists ks, getReadableString s = from_code_points ks
             /\ Forall scalar ks
             /\ Forall (fun cp => not_readable cp = false) ks.
Proof.
  intros Hs. unfold getReadableString, replace_all_u, re_unicode_emoji.
  set (s2 := replace_all re_discord_emoji [] (replace_first re_url [] s)).
  assert (Hs2 : code_units s2).
  { apply sublist_code_units with s; [|done]. etrans.
    - apply replace_all_sublist.
    - apply replace_first_sublist. }
  rewrite replace_all_class. simpl.
  set (ks0 := filter (fun c => not_readable c = false) (to_code_points s2)).
  assert (Hread0 : Forall (fun cp => not_readable cp = false) ks0).
  { apply Forall_forall. by intros cp [Hcp _]%list_elem_of_filter. }
  assert (Hscalar0 : Forall scalar ks0).
  { apply Forall_forall. intros cp [Hcp Hin]%list_elem_of_filter.
    split; [|by apply readable_not_surrogate].
    by apply (proj1 (Forall_forall _ _) (to_code_points_range s2 Hs2)). }
  unfold trim.
  destruct (trimStart_code_points ks0 Hscalar0) as (ks1 & -> & Hsuf).
  assert (Hsub1 : forall cp, cp ∈ ks1 -> cp ∈ ks0).
  { intros cp Hcp. destruct Hsuf as [pre ->]. apply elem_of_app. by right. }
  assert (Hscalar1 : Forall scalar ks1).
  { apply Forall_forall. intros cp Hcp.
    by apply (proj1 (Forall_forall _ _) Hscalar0), Hsub1. }
  destruct (trimEnd_code_points ks1 Hscalar1) as (ks2 & -> & Hpre).
  assert (Hsub2 : forall cp, cp ∈ ks2 -> cp ∈ ks0).
  { intros cp Hcp. apply Hsub1. destruct Hpre as [post ->].
    apply elem_of_app. by left. }
  exists ks2. split; [done|]. split; apply Forall_forall; intros cp Hcp.
  - by apply (proj1 (Forall_forall _ _) Hscalar0), Hsub2.
  - by apply (proj1 (Forall_forall _ _) Hread0), Hsub2.
Qed.

(** X3: nothing but letters, numbers, punctuation and separators is left:
    for every string of 16-bit code units, each code point of the result
    of [getReadableString] is in one of the four classes the last pattern
    keeps: emoji, symbols, control characters and lone surrogates are
    gone wherever they stood. *)
Theorem readable_keeps_four_classes s :
  code_units s ->
  Forall (fun cp => not_readable cp = false)
    (to_code_points (getReadableString s)).
Proof.
  intros Hs. destruct (readable_code_points s Hs) as (ks & -> & Hsc & Hr).
  by rewrite scalar_round_trip.
Qed.

(** X4: no Discord emoji escape is left: the result of [getReadableString]
    holds neither [<] nor [>], so the escape pattern matches nowhere in
    it, even where removing one escape made a new one out of its
    neighbours. *)
Theorem readable_has_no_escape s :
  code_units s ->
  (chr "<" ∉ getReadableString s)
  /\ (chr ">" ∉ getReadableString s)
  /\ unmatched re_discord_emoji (getReadableString s) [].
Proof.
  intros Hs. destruct (readable_code_points s Hs) as (ks & -> & Hsc & Hr).
  assert (Hno : forall c, c = chr "<" \/ c = chr ">" ->
                          c ∉ from_code_points ks).
  { intros c Hc Hin. unfold from_code_points in Hin.
    apply list_elem_of_In, in_flat_map in Hin as (k & Hk & Hin).
    apply list_elem_of_In in Hk, Hin.
    pose proof (proj1 (Forall_forall _ _) Hsc k Hk) as [Hrange Hsur].
    pose proof (proj1 (Forall_forall _ _) Hr k Hk) as Hread.
    revert Hin. unfold encode_code_point.
    destruct (Z.ltb_spec k 0x10000) as [Hlt|Hge].
    - intros ->%list_elem_of_singleton.
      destruct Hc as [-> | ->]; by vm_compute in Hread.
    - assert (Hq : 0 <= (k - 0x10000) / 0x400) by (apply Z.div_pos; lia).
      pose proof (Z.mod_pos_bound (k - 0x10000) 0x400 ltac:(lia)) as Hm.
      rewrite !elem_of_cons, elem_of_nil.
      destruct Hc as [-> | ->]; literals; lia. }
  split; [apply Hno; by left|]. split; [apply Hno; by right|].
  apply unmatched_by_head. apply Forall_forall. intros c Hc t.
  apply emoji_head. intros ->. apply (Hno (chr "<")); [by left | done].
Qed.

(** *** Text that passes *)

Lemma replace_first_unmatched r s :
  unmatched r s [] -> match_here r [] = None -> replace_first r [] s = s.
Proof.
  intros Hu Hnil. rewrite <- (app_nil_r s) at 1.
  rewrite replace_first_skip by done. simpl. rewrite Hnil.
  apply app_nil_r.
Qed.

Lemma replace_all_unmatched r s :
  unmatched r s [] -> match_here r [] = None -> replace_all r [] s = s.
Proof.
  intros Hu Hnil. rewrite <- (app_nil_r s) at 1.
  rewrite replace_all_skip by done. unfold replace_all. simpl.
  rewrite Hnil. apply app_nil_r.
Qed.

Lemma url_needs_colon s rest :
  match_here re_url s = Some rest -> chr ":" ∈ s.
Proof.
  intros [t [-> | ->]]%url_shape; literals; simpl;
    rewrite !elem_of_cons; auto 10.
Qed.

Lemma to_code_points_plain s :
  Forall plain s -> to_code_points s = s.
Proof.
  induction s as [|c s IH]; intros Hs; [done|].
  apply Forall_cons in Hs as [(_ & Hc & _) Hs].
  rewrite to_code_points_single by (by apply surrogate_high).
  by rewrite IH.
Qed.

Lemma from_code_points_plain s :
  Forall plain s -> from_code_points s = s.
Proof.
  unfold from_code_points.
  induction s as [|c s IH]; intros Hs; [done|].
  apply Forall_cons in Hs as [(Hc & _ & _) Hs]. simpl.
  rewrite encode_small by lia. by rewrite IH.
Qed.

Lemma filter_plain s :
  Forall plain s -> filter (fun c => not_readable c = false) s = s.
Proof.
  induction s as [|c s IH]; intros Hs; [done|].
  apply Forall_cons in Hs as [(_ & _ & Hc) Hs].
  rewrite filter_cons_True by done. by rewrite IH.
Qed.

(** None of the three replacements changes a plain text without colon. *)
Lemma replacements_pass s :
  Forall plain s -> chr ":" ∉ s ->
  replace_all_u re_unicode_emoji []
    (replace_all re_discord_emoji [] (replace_first re_url [] s)) = s.
Proof.
  intros Hs Hcolon.
  assert (Hurl : replace_first re_url [] s = s).
  { apply replace_first_unmatched; [|done]. intros a b -> Hb.
    rewrite app_nil_r.
    destruct (match_here re_url b) as [rest|] eqn:E; [|done].
    exfalso. apply Hcolon, elem_of_app. right.
    by apply url_needs_colon with rest. }
  assert (Hemoji : replace_all re_discord_emoji [] s = s).
  { apply replace_all_unmatched; [|done]. apply unmatched_by_head.
    eapply Forall_impl; [exact Hs|].
    intros c (_ & _ & Hc) t. apply emoji_head. intros ->.
    by vm_compute in Hc. }
  rewrite Hurl, Hemoji. unfold replace_all_u, re_unicode_emoji.
  rewrite replace_all_class, to_code_points_plain by done. simpl.
  by rewrite filter_plain, from_code_points_plain.
Qed.

(** X5: plain text passes: a text without colon whose characters are all
    letters, numbers, punctuation marks or separators of the Basic
    Multilingual Plane comes out of [getReadableString] as [trim] leaves
    it: nothing inside it is touched. *)
Theorem plain_text_is_only_trimmed s :
  Forall plain s -> chr ":" ∉ s -> getReadableString s = trim s.
Proof.
  intros Hs Hcolon. unfold getReadableString, replace_all_u, re_unicode_emoji.
  rewrite replace_first_unmatched; [| |done].
  2: { intros a b -> Hb. rewrite app_nil_r.
       destruct (match_here re_url b) as [rest|] eqn:E; [|done].
       exfalso. apply Hcolon, elem_of_app. right.
       by apply url_needs_colon with rest. }
  rewrite (replace_all_unmatched re_discord_emoji); [| |done].
  2: { apply unmatched_by_head. eapply Forall_impl; [exact Hs|].
       intros c (_ & _ & Hc) t. apply emoji_head. intros ->.
       by vm_compute in Hc. }
  rewrite replace_all_class, to_code_points_plain by done. simpl.
  by rewrite filter_plain, from_code_points_plain.
Qed.

End WithUnicodeData.

Lemma readable_is_subsequence_witness :
  code_units (lit " <:a:1> see http://x $ now ")
  /\ @getReadableString basic_latin_only (lit " <:a:1> see http://x $ now ")
     `sublist_of` lit " <:a:1> see http://x $ now ".
Proof.
  assert (Hs : code_units (lit " <:a:1> see http://x $ now ")).
  { unfold code_units. literals.
    repeat (apply List.Forall_cons; [lia|]). constructor. }
  split; [exact Hs|].
  exact (@readable_is_subsequence basic_latin_only _ Hs).
Defined.

Lemma readable_is_trimmed_witness :
  head (@getReadableString basic_latin_only (lit "  hello world  "))
  = Some (chr "h")
  /\ is_white_space (chr "h") = false.
Proof.
  assert (Hh : head (@getReadableString basic_latin_only
                       (lit "  hello world  ")) = Some (chr "h"))
    by reflexivity.
  split; [exact Hh|].
  exact (@readable_is_trimmed basic_latin_only _ _ (or_introl Hh)).
Defined.

Lemma readable_keeps_four_classes_witness :
  code_units (lit "a $ b <:x:1> ~")
  /\ Forall (fun cp => @not_readable basic_latin_only cp = false)
       (to_code_points
          (@getReadableString basic_latin_only (lit "a $ b <:x:1> ~"))).
Proof.
  assert (Hs : code_units (lit "a $ b <:x:1> ~")).
  { unfold code_units. literals.
    repeat (apply List.Forall_cons; [lia|]). constructor. }
  split; [exact Hs|].
  exact (@readable_keeps_four_classes basic_latin_only _ Hs).
Defined.

Lemma readable_has_no_escape_witness :
  code_units (lit "<:a<:b:1>:2> ok")
  /\ replace_all re_discord_emoji [] (lit "<:a<:b:1>:2> ok")
     = lit "<:a:2> ok"
  /\ unmatched re_discord_emoji
       (@getReadableString basic_latin_only (lit "<:a<:b:1>:2> ok")) [].
Proof.
  assert (Hs : code_units (lit "<:a<:b:1>:2> ok")).
  { unfold code_units. literals.
    repeat (apply List.Forall_cons; [lia|]). constructor. }
  split; [exact Hs|]. split; [reflexivity|].
  exact (proj2 (proj2 (@readable_has_no_escape basic_latin_only _ Hs))).
Defined.

Lemma plain_text_is_only_trimmed_witness :
  Forall (@plain basic_latin_only) (lit "  Hello, world 42!  ")
  /\ (chr ":" ∉ lit "  Hello, world 42!  ")
  /\ @getReadableString basic_latin_only (lit "  Hello, world 42!  ")
     = lit "Hello, world 42!".
Proof.
  assert (Hs : Forall (@plain basic_latin_only) (lit "  Hello, world 42!  ")).
  { literals.
    repeat (apply List.Forall_cons; [by vm_compute|]). constructor. }
  assert (Hc : chr ":" ∉ lit "  Hello, world 42!  ").
  { literals. rewrite !elem_of_cons, elem_of_nil. lia. }
  split; [exact Hs|]. split; [exact Hc|].
  exact (@plain_text_is_only_trimmed basic_latin_only _ Hs Hc).
Defined.

End UtilsExtras.

(* ===================================================================== *)
(** ** Properties of the engine                                           *)
(* ===================================================================== *)

Module EngineFacts.
Import JS Engine.

(** Case analysis on the fields the transitions branch on. *)
Ltac engine_cases p :=
  let ph := fresh "ph" in
  let cur := fresh "cur" in
  let rt := fresh "rt" in
  let q := fresh "q" in
  let sk := fresh "sk" in
  let n := fresh "n" in
  let o := fresh "o" in
  destruct p as [ph cur rt q sk n o]; simpl in *;
  destruct ph; simpl in *.

Lemma wf_create : wf create.
Proof. reflexivity. Qed.

Lemma wf_pull_next p : wf (pull_next p).
Proof. unfold pull_next, wf. destruct (queue p); simpl; eauto. Qed.

Lemma live_pull_next p : live (pull_next p).
Proof. unfold pull_next, live. by destruct (queue p). Qed.

Lemma sink_pull_next p : sink (pull_next p) = sink p.
Proof. unfold pull_next. by destruct (queue p). Qed.

Lemma sink_emit fx p : sink (emit fx p) = sink p.
Proof. reflexivity. Qed.

Lemma is_current_Some id p e :
  is_current id p = Some e -> current p = Some e /\ ident e = id.
Proof.
  unfold is_current. destruct (current p) as [c|]; [|done].
  destruct (Nat.eqb_spec (ident c) id); [|done]. by intros [= ->].
Qed.

(** Unfold the transitions and split on every test they make. *)
Ltac transitions :=
  unfold wf, live, bound, step, queueMessage, skipCurrentMessage,
    setStreamTarget, shutdown, onSynthDone, onSynthFailed, onStreamEnd,
    pull_next, emit, is_current in *;
  simpl in *; repeat case_match; simplify_eq/=;
  try done; eauto; try solve [intuition (eauto; congruence)].

Lemma wf_step p ev : wf p -> wf (step p ev).
Proof. destruct ev; engine_cases p; transitions. Qed.

(** Only [shutdown] drains an engine, and only [shutdown] unbinds it. *)
Lemma live_step p ev : ev <> Shutdown -> live p -> live (step p ev).
Proof. destruct ev; engine_cases p; transitions. Qed.

Lemma bound_step p ev : ev <> Shutdown -> bound p -> bound (step p ev).
Proof. destruct ev; engine_cases p; transitions. Qed.

(** [enqueue] on a live engine adds the utterance at the tail of what the
    engine holds, under the next identity. *)
Lemma pending_queueMessage u p :
  wf p -> live p ->
  pending (queueMessage u p)
  = pending p ++ [{| ident := nextIdent p; utt := u |}].
Proof.
  engine_cases p; unfold pending; transitions.
  all: try by rewrite <- ?app_assoc.
  - intros -> _. by destruct q.
  - intros -> _. simpl.
    by match goal with Hq : _ ++ [_] = _ |- _ => rewrite <- Hq end.
Qed.

(** [skipCurrent] with nothing active changes nothing. *)
Lemma skip_inactive p :
  phase p = Idle \/ phase p = Draining -> skipCurrentMessage p = p.
Proof. unfold skipCurrentMessage. by intros [-> | ->]. Qed.

(** *** Identities and histories *)

Lemma tag_app us vs : forall n,
  tag n (us ++ vs) = tag n us ++ tag (n + length us) vs.
Proof.
  induction us as [|u us IH]; intros n; simpl.
  - by rewrite Nat.add_0_r.
  - rewrite IH. do 3 f_equal. lia.
Qed.

Lemma tag_length us : forall n, length (tag n us) = length us.
Proof. induction us as [|u us IH]; intros n; simpl; [done|]. by rewrite IH. Qed.

Lemma tag_ident_ge us : forall n e, e ∈ tag n us -> (n <= ident e)%nat.
Proof.
  induction us as [|u us IH]; intros n e; simpl.
  - by intros ?%elem_of_nil.
  - intros [->|He]%elem_of_cons; simpl; [lia|]. apply IH in He. lia.
Qed.

(** Identities are distinct: two entries of one trace are never equal. *)
Lemma tag_NoDup us : forall n, NoDup (tag n us).
Proof.
  induction us as [|u us IH]; intros n; simpl; constructor; [|apply IH].
  intros He%tag_ident_ge. simpl in He. lia.
Qed.

Lemma gone_app a b : gone (a ++ b) = gone a ++ gone b.
Proof. apply omap_app. Qed.

Lemma begun_app a b : begun (a ++ b) = begun a ++ begun b.
Proof. apply omap_app. Qed.

Lemma completed_app a b : completed (a ++ b) = completed a ++ completed b.
Proof. apply omap_app. Qed.

Lemma skipped_app a b : skipped (a ++ b) = skipped a ++ skipped b.
Proof. apply omap_app. Qed.

Lemma enqueues_app a b : enqueues (a ++ b) = enqueues a ++ enqueues b.
Proof. apply omap_app. Qed.

Lemma ended_app a b : ended (a ++ b) = ended a ++ ended b.
Proof. apply omap_app. Qed.

Lemma dropped_app a b : dropped (a ++ b) = dropped a ++ dropped b.
Proof. apply omap_app. Qed.

Lemma skipped_gone fx e : e ∈ skipped fx -> e ∈ gone fx.
Proof.
  induction fx as [|f fx IH]; [done|].
  destruct f; simpl; rewrite ?elem_of_cons; tauto.
Qed.

Lemma dropped_gone fx e : e ∈ dropped fx -> e ∈ gone fx.
Proof.
  induction fx as [|f fx IH]; [done|].
  destruct f; simpl; rewrite ?elem_of_cons; tauto.
Qed.

Lemma filter_agree (P Q : Entry -> Prop)
    `{!forall e, Decision (P e)} `{!forall e, Decision (Q e)} (l : list Entry) :
  (forall e, e ∈ l -> P e <-> Q e) -> filter P l = filter Q l.
Proof.
  induction l as [|x l IH]; intros Hl; [done|].
  assert (Hx : P x <-> Q x) by (apply Hl; left).
  assert (Hrest : filter P l = filter Q l).
  { apply IH. intros e He. apply Hl. by right. }
  destruct (decide (P x)) as [HP|HP].
  - rewrite !filter_cons_True by tauto. by f_equal.
  - rewrite !filter_cons_False by tauto. done.
Qed.

Lemma filter_all (P : Entry -> Prop) `{!forall e, Decision (P e)}
    (l : list Entry) :
  (forall e, e ∈ l -> P e) -> filter P l = l.
Proof.
  induction l as [|x l IH]; intros Hl; [done|].
  rewrite filter_cons_True by (apply Hl; left).
  f_equal. apply IH. intros e He. apply Hl. by right.
Qed.

(** In a clean history whatever left the engine without being skipped was
    played to the end. *)
Lemma completed_filter_gone fx :
  Forall clean fx -> NoDup (gone fx) ->
  filter (fun e => e ∉ skipped fx) (gone fx) = completed fx.
Proof.
  induction fx as [|f fx IH]; [done|].
  intros [Hf Hfx]%Forall_cons.
  destruct f as [e|e s|e|e [|]|e|e]; simpl in *; try done; try by apply IH.
  - intros [Hnotin Hnd]%NoDup_cons. rewrite filter_cons_True.
    + f_equal. by apply IH.
    + intros Hin. by apply Hnotin, skipped_gone.
  - intros [Hnotin Hnd]%NoDup_cons.
    rewrite filter_cons_False by (rewrite elem_of_cons; tauto).
    rewrite <- IH by done. apply filter_agree.
    intros x Hx. rewrite elem_of_cons.
    split; [tauto|]. intros Hs [->|Hin]; [done|]. by apply Hs.
Qed.

(** Whatever left the engine without being skipped or dropped had its
    stream ended by the sink. *)
Lemma ended_filter_gone fx :
  NoDup (gone fx) ->
  filter (fun e => (e ∉ skipped fx) /\ (e ∉ dropped fx)) (gone fx) = ended fx.
Proof.
  induction fx as [|f fx IH]; [done|].
  destruct f as [e|e s|e|e b|e|e]; simpl in *; try done.
  - intros [Hnotin Hnd]%NoDup_cons. rewrite filter_cons_True.
    + f_equal. by apply IH.
    + split; intros Hin; apply Hnotin.
      * by apply skipped_gone.
      * by apply dropped_gone.
  - intros [Hnotin Hnd]%NoDup_cons.
    rewrite filter_cons_False by (rewrite elem_of_cons; tauto).
    rewrite <- IH by done. apply filter_agree.
    intros x Hx. rewrite elem_of_cons.
    split; intros [Hs Hd]; (split; [|done]); [tauto|].
    intros [->|Hin]; [done|]. by apply Hs.
  - intros [Hnotin Hnd]%NoDup_cons.
    rewrite filter_cons_False by (rewrite elem_of_cons; tauto).
    rewrite <- IH by done. apply filter_agree.
    intros x Hx. rewrite elem_of_cons.
    split; intros [Hs Hd]; (split; [done|]); [tauto|].
    intros [->|Hin]; [done|]. by apply Hd.
Qed.

(** A clean history has no dropped utterance, and every stream that ended
    in it was completed. *)
Lemma clean_ended fx :
  Forall clean fx -> ended fx = completed fx /\ dropped fx = [].
Proof.
  induction fx as [|f fx IH]; [done|].
  intros [Hf Hfx]%Forall_cons. destruct (IH Hfx) as [He Hd].
  destruct f as [e|e s|e|e [|]|e|e]; simpl in *; try done.
  by rewrite He.
Qed.

(** *** One step *)

Lemma ready_step p ev : ev <> Shutdown -> ready p -> ready (step p ev).
Proof.
  intros Hev (Hwf & Hl & Hb & Hq).
  split; [by apply wf_step|]. split; [by apply live_step|].
  split; [by apply bound_step|].
  clear Hwf Hl. destruct ev; engine_cases p; transitions.
Qed.

Lemma conserved_step p ev us :
  ev <> Shutdown -> wf p -> live p -> conserved p us ->
  conserved (step p ev) (us ++ enqueues [ev]).
Proof.
  intros Hev Hwf Hl [Hn Hc]. unfold conserved.
  destruct ev; try done; simpl enqueues;
    rewrite ?app_nil_r, ?tag_app, ?length_app.
  all: rewrite <- ?Hc, <- ?Hn; clear Hc Hn.
  all: engine_cases p; unfold pending; transitions.
  all: rewrite ?gone_app; simpl; rewrite <- ?app_assoc; simpl;
    try done; try (split; [lia|done]).
  - by destruct q.
  - match goal with Hq : _ ++ [_] = _ |- _ => rewrite <- Hq end.
    split; [lia|done].
Qed.

(** A stream begins only for the current utterance, on its way from
    Synthesizing to Playing, and nothing returns there once gone. *)
Lemma begun_step p ev :
  undisturbed ev = true -> wf p ->
  begun (out p) `sublist_of` gone (out p) ++ playing p ->
  begun (out (step p ev)) `sublist_of` gone (out (step p ev)) ++ playing (step p ev).
Proof.
  intros Hev Hwf. destruct ev; try done.
  all: engine_cases p; unfold playing; transitions.
  all: rewrite ?begun_app, ?gone_app; simpl; rewrite ?app_nil_r; try done.
  all: try (intros Hs; by apply sublist_inserts_r).
  intros Hs. by apply sublist_app.
Qed.

Lemma clean_step p ev :
  nominal ev = true -> Forall clean (out p) -> Forall clean (out (step p ev)).
Proof.
  intros Hev. destruct ev; try done.
  all: engine_cases p; transitions.
  all: rewrite ?Forall_app; intros Hc; repeat split; try done.
  all: repeat constructor.
Qed.

Lemma skipped_step p ev :
  is_skip ev = false -> skipped (out (step p ev)) = skipped (out p).
Proof.
  intros Hev. destruct ev; try done.
  all: engine_cases p; transitions.
  all: rewrite ?skipped_app; simpl; by rewrite ?app_nil_r.
Qed.

(** Only a failed synthesis drops an utterance. *)
Lemma dropped_step p ev :
  nominal ev = true -> dropped (out (step p ev)) = dropped (out p).
Proof.
  intros Hev. destruct ev; try done.
  all: engine_cases p; transitions.
  all: rewrite ?dropped_app; simpl; by rewrite ?app_nil_r.
Qed.

(** A stream ends only after it began: the streams the sink ended, and
    the one being played, began in that order. *)
Lemma ended_step p ev :
  undisturbed ev = true ->
  ended (out p) ++ playing p `sublist_of` begun (out p) ->
  ended (out (step p ev)) ++ playing (step p ev)
    `sublist_of` begun (out (step p ev)).
Proof.
  intros Hev. destruct ev; try done.
  all: engine_cases p; unfold playing; transitions.
  all: rewrite ?ended_app, ?begun_app; simpl; rewrite ?app_nil_r; try done.
  all: try (intros Hs; by apply sublist_app).
  all: intros Hs; etrans; [|exact Hs]; by apply sublist_inserts_r.
Qed.

Lemma sourced_step p ev us :
  sourced p us -> sourced (step p ev) (us ++ enqueues [ev]).
Proof.
  unfold sourced. intros Hs e.
  assert (Hold : forall x, x ∈ pending p \/ x ∈ map entry_of (out p) ->
                           utt x ∈ us ++ enqueues [ev]).
  { intros x Hx. apply elem_of_app. left. by apply Hs. }
  clear Hs. revert Hold.
  destruct ev; engine_cases p; unfold pending; transitions.
  all: rewrite ?map_app; simpl; intros Hold He;
    rewrite ?elem_of_app, ?elem_of_cons, ?elem_of_nil in He.
  all: try (apply Hold; simpl;
            rewrite ?elem_of_app, ?elem_of_cons, ?elem_of_nil; tauto).
  all: try (destruct He as [[He|[He|[->|[]]]]|He];
            [| | apply elem_of_app; right; by left |];
            apply Hold; rewrite ?elem_of_app; tauto).
  match goal with Hq : _ ++ [_] = _ |- _ => rename Hq into Hq' end.
  assert (Hin : e ∈ q ++ [{| ident := n; utt := u |}]
                  \/ e ∈ map entry_of o).
  { rewrite Hq', elem_of_cons. tauto. }
  rewrite elem_of_app, list_elem_of_singleton in Hin.
  destruct Hin as [[Hq | ->] | Ho].
  - apply Hold. rewrite ?elem_of_app. tauto.
  - apply elem_of_app. right. by left.
  - apply Hold. tauto.
Qed.

(** *** Runs *)

Lemma run_app p evs evs' : run p (evs ++ evs') = run (run p evs) evs'.
Proof. apply fold_left_app. Qed.

Lemma nominal_not_shutdown ev : nominal ev = true -> ev <> Shutdown.
Proof. by destruct ev. Qed.

Lemma undisturbed_not_shutdown ev : undisturbed ev = true -> ev <> Shutdown.
Proof. by destruct ev. Qed.

Lemma nominal_undisturbed evs :
  forallb nominal evs = true -> forallb undisturbed evs = true.
Proof.
  induction evs as [|ev evs IH]; [done|]. simpl.
  intros [Hev Hn]%andb_prop. rewrite IH by done. by destruct ev.
Qed.

Lemma ready_run evs : forall p,
  forallb undisturbed evs = true -> ready p -> ready (run p evs).
Proof.
  induction evs as [|ev evs IH]; intros p Hn Hr; [done|].
  simpl in Hn. apply andb_prop in Hn as [Hev Hn].
  apply IH; [done|].
  apply ready_step; [by apply undisturbed_not_shutdown|done].
Qed.

Lemma enqueues_cons ev evs :
  enqueues (ev :: evs) = enqueues [ev] ++ enqueues evs.
Proof. apply (enqueues_app [ev] evs). Qed.

Lemma conserved_run evs : forall p us,
  forallb undisturbed evs = true -> ready p -> conserved p us ->
  conserved (run p evs) (us ++ enqueues evs).
Proof.
  induction evs as [|ev evs IH]; intros p us Hn Hr Hc.
  - by rewrite app_nil_r.
  - simpl in Hn. apply andb_prop in Hn as [Hev Hn].
    pose proof (undisturbed_not_shutdown ev Hev) as Hne.
    rewrite enqueues_cons, app_assoc.
    apply (IH (step p ev)); [done | by apply ready_step |].
    destruct Hr as (Hwf & Hl & _). by apply conserved_step.
Qed.

Lemma begun_run evs : forall p,
  forallb undisturbed evs = true -> ready p ->
  begun (out p) `sublist_of` gone (out p) ++ playing p ->
  begun (out (run p evs)) `sublist_of`
    gone (out (run p evs)) ++ playing (run p evs).
Proof.
  induction evs as [|ev evs IH]; intros p Hn Hr Hs; [done|].
  simpl in Hn. apply andb_prop in Hn as [Hev Hn].
  apply IH; [done | |].
  - apply ready_step; [by apply undisturbed_not_shutdown|done].
  - apply begun_step; [done | by destruct Hr | done].
Qed.

Lemma clean_run evs : forall p,
  forallb nominal evs = true -> Forall clean (out p) ->
  Forall clean (out (run p evs)).
Proof.
  induction evs as [|ev evs IH]; intros p Hn Hc; [done|].
  simpl in Hn. apply andb_prop in Hn as [Hev Hn].
  apply IH; [done|]. by apply clean_step.
Qed.

Lemma skipped_run evs : forall p,
  forallb (fun ev => negb (is_skip ev)) evs = true ->
  skipped (out (run p evs)) = skipped (out p).
Proof.
  induction evs as [|ev evs IH]; intros p Hn; [done|].
  simpl in Hn. apply andb_prop in Hn as [Hev Hn]. simpl.
  rewrite IH by done. apply skipped_step. by destruct (is_skip ev).
Qed.

Lemma dropped_run evs : forall p,
  forallb nominal evs = true -> dropped (out (run p evs)) = dropped (out p).
Proof.
  induction evs as [|ev evs IH]; intros p Hn; [done|].
  simpl in Hn. apply andb_prop in Hn as [Hev Hn]. simpl.
  rewrite IH by done. by apply dropped_step.
Qed.

Lemma ended_run evs : forall p,
  forallb undisturbed evs = true ->
  ended (out p) ++ playing p `sublist_of` begun (out p) ->
  ended (out (run p evs)) ++ playing (run p evs)
    `sublist_of` begun (out (run p evs)).
Proof.
  induction evs as [|ev evs IH]; intros p Hn Hs; [done|].
  simpl in Hn. apply andb_prop in Hn as [Hev Hn].
  apply IH; [done|]. by apply ended_step.
Qed.

Lemma sourced_run evs : forall p us,
  sourced p us -> sourced (run p evs) (us ++ enqueues evs).
Proof.
  induction evs as [|ev evs IH]; intros p us Hs.
  - by rewrite app_nil_r.
  - rewrite enqueues_cons, app_assoc.
    apply (IH (step p ev)). by apply sourced_step.
Qed.

(** *** The collaborators answer *)

Lemma respond_None p : ready p -> respond p = None -> phase p = Idle.
Proof.
  intros (Hwf & Hl & _). unfold respond, wf, live in *.
  destruct (phase p), (current p); try done; by destruct Hwf.
Qed.

Lemma respond_Some p ev :
  ready p -> respond p = Some ev ->
  (owed (step p ev) < owed p)%nat
  /\ nominal ev = true /\ is_skip ev = false /\ enqueues [ev] = [].
Proof.
  intros (Hwf & Hl & Hb & Hq). unfold respond, owed, bound in *.
  engine_cases p; destruct cur as [e|]; try done; intros [= <-]; simpl.
  - destruct Hb as [s ->].
    unfold onSynthDone, is_current, pending. simpl. rewrite Nat.eqb_refl.
    simpl. split; [lia|done].
  - unfold onStreamEnd, is_current, pull_next, pending. simpl.
    rewrite Nat.eqb_refl. simpl. destruct q; simpl; split; try done; lia.
Qed.

Lemma ready_idle p : ready p -> phase p = Idle -> pending p = [].
Proof.
  intros (Hwf & _ & _ & Hq) Hi. unfold pending, wf in *.
  rewrite Hi in Hwf. by rewrite Hwf, Hq.
Qed.

(** With enough answers the engine comes to rest, and the answers form a
    trace without calls. *)
Lemma settle_spec fuel : forall p,
  ready p -> (owed p <= fuel)%nat ->
  exists evs,
    settle fuel p = run p evs
    /\ forallb nominal evs = true
    /\ forallb (fun ev => negb (is_skip ev)) evs = true
    /\ enqueues evs = []
    /\ phase (settle fuel p) = Idle.
Proof.
  induction fuel as [|fuel IH]; intros p Hr Ho; simpl.
  - exists []. repeat split; try done.
    destruct (respond p) as [ev|] eqn:E; [|by apply respond_None].
    destruct (respond_Some p ev Hr E) as (Hlt & _). lia.
  - destruct (respond p) as [ev|] eqn:E.
    + destruct (respond_Some p ev Hr E) as (Hlt & Hnom & Hskip & Henq).
      destruct (IH (step p ev)) as (evs & Hrun & Hn & Hs & He & Hi).
      * apply ready_step; [by apply nominal_not_shutdown|done].
      * lia.
      * exists (ev :: evs). rewrite enqueues_cons, Henq, He. simpl.
        by rewrite Hnom, Hskip, Hn, Hs.
    + exists []. repeat split; try done. by apply respond_None.
Qed.

Lemma owed_bound p : wf p -> (owed p <= 2 * length (pending p))%nat.
Proof. unfold owed. destruct (phase p); lia. Qed.

(** *** An engine as [slashJoin] creates it *)

Lemma ready_fresh s : ready (setStreamTarget s create).
Proof. repeat split; unfold live, bound; simpl; eauto. Qed.

(** What the sink played to its end and what the engine still holds is
    what was enqueued less what was skipped or dropped. *)
Lemma accounting s tr :
  forallb undisturbed tr = true ->
  let p := run (setStreamTarget s create) tr in
  ended (out p) ++ pending p
  = filter (fun e => (e ∉ skipped (out p)) /\ (e ∉ dropped (out p)))
      (tag 0 (enqueues tr)).
Proof.
  intros Hn p.
  destruct (conserved_run tr (setStreamTarget s create) [] Hn (ready_fresh s))
    as [_ Hc]; [done|]. simpl in Hc. fold p in Hc.
  pose proof (tag_NoDup (enqueues tr) 0) as Hnd. rewrite <- Hc in *.
  apply NoDup_app in Hnd as (Hnd1 & Hdisj & Hnd2).
  rewrite filter_app, ended_filter_gone by done. f_equal.
  symmetry. apply filter_all. intros e He.
  split; intros Hs; apply (Hdisj e); try done.
  - by apply skipped_gone.
  - by apply dropped_gone.
Qed.

(** With collaborators that do not fail, what was played to the end and
    what the engine still holds is what was enqueued less what was
    skipped. *)
Lemma nominal_accounting s tr :
  forallb nominal tr = true ->
  let p := run (setStreamTarget s create) tr in
  completed (out p) ++ pending p
  = filter (fun e => e ∉ skipped (out p)) (tag 0 (enqueues tr)).
Proof.
  intros Hn p.
  pose proof (accounting s tr (nominal_undisturbed tr Hn)) as Hacc.
  simpl in Hacc. fold p in Hacc.
  destruct (clean_ended (out p)) as [He Hd]; [by apply clean_run|].
  rewrite He, Hd in Hacc. rewrite Hacc. apply filter_agree.
  intros e _. split; [tauto|]. intros Hs. split; [done|].
  apply not_elem_of_nil.
Qed.

(** The streams begun are enqueued utterances, in enqueue order and each
    once, and the streams ended are among them. *)
Lemma streams s tr :
  forallb undisturbed tr = true ->
  let p := run (setStreamTarget s create) tr in
  ended (out p) `sublist_of` begun (out p)
  /\ begun (out p) `sublist_of` tag 0 (enqueues tr)
  /\ NoDup (begun (out p)).
Proof.
  intros Hu p. pose proof (ready_fresh s) as Hr0.
  destruct (conserved_run tr (setStreamTarget s create) [] Hu Hr0)
    as [_ Hc]; [done|]. simpl in Hc. fold p in Hc.
  assert (Hsub : begun (out p) `sublist_of` tag 0 (enqueues tr)).
  { rewrite <- Hc. etrans.
    - apply (begun_run tr (setStreamTarget s create) Hu Hr0). simpl.
      constructor.
    - fold p. apply sublist_app; [done|]. unfold playing, pending.
      destruct (phase p); try apply sublist_nil_l.
      by apply sublist_inserts_r. }
  split; [|split; [done|]].
  - etrans; [|apply (ended_run tr (setStreamTarget s create) Hu)]; fold p.
    + by apply sublist_inserts_r.
    + simpl. constructor.
  - eapply sublist_NoDup; [apply tag_NoDup | exact Hsub].
Qed.

(** Once the collaborators have answered, the engine is idle and holds
    nothing; their answers are a trace without calls and without
    failures. *)
Lemma settled s tr :
  forallb undisturbed tr = true ->
  let p := run (setStreamTarget s create) tr in
  let p' := settle (2 * length (pending p)) p in
  exists evs,
    p' = run (setStreamTarget s create) (tr ++ evs)
    /\ forallb nominal evs = true
    /\ forallb (fun ev => negb (is_skip ev)) evs = true
    /\ enqueues evs = []
    /\ phase p' = Idle /\ pending p' = [].
Proof.
  intros Hu p p'.
  assert (Hr : ready p) by (apply ready_run; [done | apply ready_fresh]).
  destruct (settle_spec (2 * length (pending p)) p Hr)
    as (evs & Hrun & Hnom & Hns & Henq & Hidle).
  { apply owed_bound. by destruct Hr. }
  fold p' in Hrun, Hidle. exists evs.
  split; [by rewrite run_app|]. repeat (split; [done|]).
  apply ready_idle; [|done]. rewrite Hrun.
  apply ready_run; [by apply nominal_undisturbed | done].
Qed.

(** *** The text of an utterance *)

Lemma wf_run evs : forall p, wf p -> wf (run p evs).
Proof.
  induction evs as [|ev evs IH]; intros p Hp; [done|].
  apply IH. by apply wf_step.
Qed.

(** Whatever the engine does, it does to an utterance that an [enqueue]
    call supplied. *)
Lemma effects_sourced evs f :
  f ∈ out (run create evs) -> utt (entry_of f) ∈ enqueues evs.
Proof.
  intros Hf. apply (sourced_run evs create []).
  - intros e [He | He]; by apply elem_of_nil in He.
  - right. apply list_elem_of_fmap. by exists f.
Qed.

(** An utterance enqueued on an engine that was not shut down is the last
    the engine holds, as supplied. *)
Lemma enqueue_last evs u :
  last (pending (run create (evs ++ [Enqueue u])))
  = match phase (run create evs) with
    | Draining => None
    | _ => Some {| ident := nextIdent (run create evs); utt := u |}
    end.
Proof.
  rewrite run_app. simpl. set (p := run create evs).
  assert (Hwf : wf p) by apply wf_run, wf_create.
  destruct (phase p) eqn:Hph.
  4: { unfold queueMessage, wf, pending in *. rewrite Hph in *.
       by destruct Hwf as [-> ->]. }
  all: rewrite pending_queueMessage by (unfold live; congruence).
  all: apply last_snoc.
Qed.

End EngineFacts.

(* ===================================================================== *)
(** ** The claims about the engine                                        *)
(* ===================================================================== *)

Module EngineClaims.
Import JS Engine EngineFacts.

(** C3, as the engine has it: on an engine created as [slashJoin] creates
    it, for every trace of [enqueue] and [skipCurrent] calls interleaved in
    any way with reports of the collaborators, failures included.  At any
    time: the utterances whose stream ended at the sink (completed, or cut
    short by a stream error), followed by those the engine still holds,
    are the enqueued utterances less the skipped ones and less the ones
    dropped after a failed retry, in enqueue order; every stream that ended
    had begun; the streams begun are enqueued utterances in enqueue order,
    and none begins twice.  Once the collaborators have answered what the
    engine still owes: the engine is Idle and holds nothing, nothing more
    was skipped or dropped, and the utterances delivered (their stream
    began and ended) are exactly the enqueued ones less the skipped and the
    dropped ones, in enqueue order.  With collaborators that do not fail,
    the delivered utterances are the completed streams and none is
    dropped: the enqueued utterances less the skipped ones; with no
    [skipCurrent] either, exactly the N enqueued utterances complete, in
    enqueue order. *)
Theorem delivery_in_enqueue_order (s : Sink) (tr : list Event) :
  forallb undisturbed tr = true ->
  let p := run (setStreamTarget s create) tr in
  let enqueued := tag 0 (enqueues tr) in
  let p' := settle (2 * length (pending p)) p in
  (ended (out p) ++ pending p
   = filter (fun e => (e ∉ skipped (out p)) /\ (e ∉ dropped (out p))) enqueued
   /\ ended (out p) `sublist_of` begun (out p)
   /\ begun (out p) `sublist_of` enqueued
   /\ NoDup (begun (out p)))
  /\ (phase p' = Idle /\ pending p' = []
      /\ skipped (out p') = skipped (out p)
      /\ dropped (out p') = dropped (out p)
      /\ ended (out p')
         = filter (fun e => (e ∉ skipped (out p)) /\ (e ∉ dropped (out p)))
             enqueued
      /\ ended (out p') `sublist_of` begun (out p')
      /\ begun (out p') `sublist_of` enqueued
      /\ NoDup (begun (out p')))
  /\ (forallb nominal tr = true ->
      completed (out p) ++ pending p
      = filter (fun e => e ∉ skipped (out p)) enqueued
      /\ completed (out p') = filter (fun e => e ∉ skipped (out p)) enqueued
      /\ (forallb (fun ev => negb (is_skip ev)) tr = true ->
          completed (out p') = enqueued
          /\ length (completed (out p')) = length (enqueues tr))).
Proof.
  intros Hu p enqueued p'.
  destruct (settled s tr Hu) as (evs & Hp' & Hnom & Hns & Henq & Hidle & Hpend).
  fold p p' in Hp', Hidle, Hpend.
  assert (Hu' : forallb undisturbed (tr ++ evs) = true).
  { rewrite forallb_app, Hu. by apply nominal_undisturbed. }
  assert (Hsk : skipped (out p') = skipped (out p)).
  { rewrite Hp', run_app. by apply skipped_run. }
  assert (Hdr : dropped (out p') = dropped (out p)).
  { rewrite Hp', run_app. by apply dropped_run. }
  destruct (streams s tr Hu) as (He & Hb & Hnd). fold p enqueued in He, Hb, Hnd.
  destruct (streams s (tr ++ evs) Hu') as (He' & Hb' & Hnd').
  rewrite <- Hp' in He', Hb', Hnd'.
  rewrite enqueues_app, Henq, app_nil_r in Hb'. fold enqueued in Hb'.
  split; [|split].
  - split; [by apply accounting|]. done.
  - pose proof (accounting s (tr ++ evs) Hu') as Hacc. simpl in Hacc.
    rewrite <- Hp', enqueues_app, Henq, app_nil_r, Hpend, app_nil_r, Hsk, Hdr
      in Hacc.
    done.
  - intros Hn.
    assert (Hall : forallb nominal (tr ++ evs) = true).
    { rewrite forallb_app. by rewrite Hn, Hnom. }
    pose proof (nominal_accounting s (tr ++ evs) Hall) as Hacc.
    simpl in Hacc.
    rewrite <- Hp', enqueues_app, Henq, app_nil_r, Hpend, app_nil_r, Hsk
      in Hacc.
    split; [by apply nominal_accounting|]. split; [done|].
    intros Hnoskip.
    assert (Hnone : skipped (out p) = []).
    { unfold p. rewrite skipped_run; done. }
    rewrite Hnone in Hacc.
    rewrite filter_all in Hacc by (intros e _; apply not_elem_of_nil).
    split; [done|]. by rewrite Hacc, tag_length.
Qed.

(** C3 fails as stated: an utterance whose synthesis fails twice is dropped:
    it was enqueued and never skipped, yet no stream ever begins for it,
    and the engine is back to Idle holding nothing. *)
Lemma failed_synthesis_is_dropped :
  let p := run (setStreamTarget 0%nat create) Scenario.failing in
  enqueues Scenario.failing = [Scenario.u1]
  /\ skipped (out p) = []
  /\ begun (out p) = []
  /\ completed (out p) = []
  /\ phase p = Idle
  /\ pending p = []
  /\ completed (out p) ++ pending p
     <> filter (fun e => e ∉ skipped (out p)) (tag 0 (enqueues Scenario.failing)).
Proof. by vm_compute. Qed.

Lemma delivery_in_enqueue_order_witness :
  forallb undisturbed Scenario.plain = true
  /\ (let p := run (setStreamTarget 0%nat create) Scenario.plain in
      completed (out (settle (2 * length (pending p)) p))
      = tag 0%nat [Scenario.u1; Scenario.u2])
  /\ forallb undisturbed Scenario.skipping = true
  /\ (let p := run (setStreamTarget 0%nat create) Scenario.skipping in
      ended (out (settle (2 * length (pending p)) p))
      = tag 1%nat [Scenario.u2])
  /\ forallb undisturbed Scenario.failing = true
  /\ (let p := run (setStreamTarget 0%nat create) Scenario.failing in
      ended (out (settle (2 * length (pending p)) p)) = []
      /\ dropped (out p) = tag 0%nat [Scenario.u1]).
Proof.
  split; [reflexivity|]. split; [|split; [reflexivity|split]].
  - destruct (delivery_in_enqueue_order 0%nat Scenario.plain eq_refl)
      as (_ & _ & Hnominal).
    destruct (Hnominal eq_refl) as (_ & _ & Hall).
    by destruct (Hall eq_refl) as [Hdone _].
  - destruct (delivery_in_enqueue_order 0%nat Scenario.skipping eq_refl)
      as (_ & (_ & _ & _ & _ & Hended & _) & _).
    exact Hended.
  - split; [reflexivity|].
    destruct (delivery_in_enqueue_order 0%nat Scenario.failing eq_refl)
      as (_ & (_ & _ & _ & _ & Hended & _) & _).
    split; [exact Hended | reflexivity].
Defined.

End EngineClaims.

(* ===================================================================== *)
(** ** Properties of the dispatcher                                       *)
(* ===================================================================== *)

Module AppFacts.
Import JS Utils App AppLib.

Lemma alter_fixed (f : Engine.Player -> Engine.Player) (ref : nat)
    (m : gmap nat Engine.Player) :
  (forall p, m !! ref = Some p -> f p = p) -> alter f ref m = m.
Proof.
  intros Hf. apply map_eq. intros k.
  destruct (decide (k = ref)) as [->|Hne].
  - rewrite lookup_alter_eq. destruct (m !! ref) as [p|] eqn:E; simpl; [|done].
    by rewrite (Hf p).
  - by rewrite lookup_alter_ne.
Qed.

Lemma call_fixed f ref st :
  (forall p, players st !! ref = Some p -> f p = p) -> call ref f st = st.
Proof.
  intros Hf. unfold call. rewrite alter_fixed; [|done]. by destruct st.
Qed.

Lemma invariant_init applicationId config : invariant (init applicationId config).
Proof.
  split; simpl.
  - intros g. by rewrite !lookup_empty.
  - intros g ref. by rewrite lookup_empty.
  - intros g1 g2 ref. by rewrite lookup_empty.
  - intros ref. rewrite lookup_empty. by intros [? ?].
  - intros ref p. by rewrite lookup_empty.
Qed.

Lemma invariant_call ref f st :
  (forall p, Engine.wf p /\ Engine.live p /\ Engine.bound p ->
             Engine.wf (f p) /\ Engine.live (f p) /\ Engine.bound (f p)) ->
  invariant st -> invariant (call ref f st).
Proof.
  intros Hf [H1 H2 H3 H4 H5]. split; simpl; try done.
  - intros g r Hg. destruct (H2 g r Hg) as [p Hp].
    destruct (decide (r = ref)) as [->|Hne].
    + rewrite lookup_alter_eq, Hp. simpl. eauto.
    + rewrite lookup_alter_ne; eauto.
  - intros r [p Hp]. apply H4.
    destruct (decide (r = ref)) as [->|Hne].
    + rewrite lookup_alter_eq in Hp. destruct (players st !! ref); eauto.
    + rewrite lookup_alter_ne in Hp; eauto.
  - intros r p Hp. destruct (decide (r = ref)) as [->|Hne].
    + rewrite lookup_alter_eq in Hp.
      destruct (players st !! ref) as [p0|] eqn:E; simpl in Hp; [|done].
      injection Hp as <-. apply Hf. by apply (H5 ref).
    + rewrite lookup_alter_ne in Hp; eauto.
Qed.

Lemma invariant_step_engine ref ev st :
  ev <> Engine.Shutdown ->
  invariant st -> invariant (call ref (fun p => Engine.step p ev) st).
Proof.
  intros Hev. apply invariant_call. intros p (Hwf & Hl & Hb).
  split; [by apply EngineFacts.wf_step|].
  split; [by apply EngineFacts.live_step | by apply EngineFacts.bound_step].
Qed.

Lemma fresh_player st : invariant st -> players st !! nextPlayer st = None.
Proof.
  intros Hinv. destruct (players st !! nextPlayer st) eqn:E; [|done].
  assert (nextPlayer st < nextPlayer st)%nat by (apply Hinv; eauto). lia.
Qed.

Lemma registered_not_fresh st g ref :
  invariant st -> guildPlayers st !! g = Some ref -> ref <> nextPlayer st.
Proof.
  intros Hinv Hg ->. destruct (inv_registered st Hinv _ _ Hg) as [p Hp].
  rewrite fresh_player in Hp; done.
Qed.

Section WithUnicodeData.
Context `{UnicodeData}.

Lemma invariant_queueMessage st msg styleId :
  invariant st -> invariant (queueMessage st msg styleId).
Proof.
  intros Hinv. unfold queueMessage.
  destruct (guildPlayers st !! gmGuildId msg) as [ref|]; [|done].
  by apply (invariant_step_engine ref (Engine.Enqueue _)).
Qed.

Lemma invariant_slashJoin st i : invariant st -> invariant (slashJoin st i).1.
Proof.
  intros Hinv. unfold slashJoin.
  destruct (voiceConnections st !! iGuildId i) as [vc|] eqn:Hvc; [done|].
  destruct (iMember i) as [m|]; [|done].
  destruct (voiceChannel m) as [ch|]; [|done]. simpl.
  destruct Hinv as [H1 H2 H3 H4 H5].
  assert (Hfresh : players st !! nextPlayer st = None).
  { destruct (players st !! nextPlayer st) eqn:E; [|done].
    assert (nextPlayer st < nextPlayer st)%nat by (apply H4; eauto). lia. }
  split; simpl.
  - intros g. destruct (decide (g = iGuildId i)) as [->|Hne].
    + rewrite !lookup_insert_eq. split; eauto.
    + rewrite !lookup_insert_ne by done. apply H1.
  - intros g ref. destruct (decide (g = iGuildId i)) as [->|Hne].
    + rewrite lookup_insert_eq. intros [= <-]. rewrite lookup_insert_eq. eauto.
    + rewrite lookup_insert_ne by done. intros Hg.
      destruct (H2 g ref Hg) as [p Hp].
      rewrite lookup_insert_ne; [eauto|]. intros <-. congruence.
  - intros g1 g2 ref.
    destruct (decide (g1 = iGuildId i)) as [->|Hne1];
      destruct (decide (g2 = iGuildId i)) as [->|Hne2]; try done.
    + rewrite lookup_insert_eq, lookup_insert_ne by done. intros [= <-] Hg.
      destruct (H2 _ _ Hg) as [p Hp]. congruence.
    + rewrite lookup_insert_eq, lookup_insert_ne by done. intros Hg [= <-].
      destruct (H2 _ _ Hg) as [p Hp]. congruence.
    + rewrite !lookup_insert_ne by done. apply H3.
  - intros ref. destruct (decide (ref = nextPlayer st)) as [->|Hne]; [lia|].
    rewrite lookup_insert_ne by done. intros Hs. specialize (H4 ref Hs). lia.
  - intros ref p. destruct (decide (ref = nextPlayer st)) as [->|Hne].
    + rewrite lookup_insert_eq. intros [= <-].
      repeat split; unfold Engine.live, Engine.bound; simpl; eauto.
    + rewrite lookup_insert_ne by done. apply H5.
Qed.

Lemma invariant_onDisconnected st g vc outcome :
  invariant st -> invariant (onDisconnected st g vc outcome).
Proof.
  intros Hinv. unfold onDisconnected. destruct outcome; try done.
  destruct (voiceConnections st !! g) as [tracked|]; [|done].
  destruct (vcId tracked =? vc)%nat; [|done].
  destruct Hinv as [H1 H2 H3 H4 H5]. split; simpl; try done.
  - intros g'. destruct (decide (g' = g)) as [->|Hne].
    + rewrite !lookup_delete_eq. split; by intros [? ?].
    + rewrite !lookup_delete_ne by done. apply H1.
  - intros g' ref. destruct (decide (g' = g)) as [->|Hne].
    + by rewrite lookup_delete_eq.
    + rewrite lookup_delete_ne by done. apply H2.
  - intros g1 g2 ref.
    destruct (decide (g1 = g)) as [->|Hne1]; [by rewrite lookup_delete_eq|].
    destruct (decide (g2 = g)) as [->|Hne2]; [by rewrite lookup_delete_eq|].
    rewrite !lookup_delete_ne by done. apply H3.
Qed.

Lemma invariant_step st x : invariant st -> invariant (step st x).
Proof.
  intros Hinv. destruct x as [msg|i|i|i|g u sp|g vc o|ref ev]; simpl.
  - unfold onMessageCreate. destruct (String.eqb _ _); [done|].
    destruct (inGuild msg) as [gm|]; [|done].
    destruct (getMemberVoiceStyleId _ _ _); [|done].
    by apply invariant_queueMessage.
  - by apply invariant_slashJoin.
  - unfold slashSkip. destruct (negb _); [done|].
    destruct (guildPlayers st !! iGuildId i) as [ref|]; [|done]. simpl.
    by apply (invariant_step_engine ref Engine.SkipCurrent).
  - unfold messageContextReadThisMessage.
    destruct (getMemberVoiceStyleId _ _ _); [|done]. simpl.
    by apply invariant_queueMessage.
  - unfold buttonSpeakerStyleSeleceted. destruct sp; [|done].
    by destruct Hinv.
  - by apply invariant_onDisconnected.
  - unfold onPlayerReport. destruct ev; try done;
      by apply invariant_step_engine.
Qed.

Lemma invariant_run xs : forall st, invariant st -> invariant (run st xs).
Proof.
  induction xs as [|x xs IH]; intros st Hinv; [done|].
  apply IH. by apply invariant_step.
Qed.

Lemma invariant_reachable st : reachable st -> invariant st.
Proof.
  intros (a & c & xs & ->). apply invariant_run, invariant_init.
Qed.

(** *** What the handlers leave alone *)
Lemma queueMessage_registry st gm sid :
  guildPlayers (queueMessage st gm sid) = guildPlayers st
  /\ voiceConnections (queueMessage st gm sid) = voiceConnections st
  /\ config (queueMessage st gm sid) = config st
  /\ applicationId (queueMessage st gm sid) = applicationId st.
Proof.
  unfold queueMessage. by destruct (guildPlayers st !! gmGuildId gm).
Qed.

Lemma queueMessage_other st gm sid g ref :
  invariant st -> guildPlayers st !! g = Some ref -> gmGuildId gm <> g ->
  players (queueMessage st gm sid) !! ref = players st !! ref.
Proof.
  intros Hinv Hg Hne. unfold queueMessage.
  destruct (guildPlayers st !! gmGuildId gm) as [r|] eqn:E; [|done]. simpl.
  rewrite lookup_alter_ne; [done|]. intros ->.
  apply Hne. by apply (inv_one_guild st Hinv _ _ ref).
Qed.

Lemma onMessageCreate_cases st msg :
  onMessageCreate st msg = st
  \/ exists gm sid, guildId msg = Some (gmGuildId gm)
                    /\ onMessageCreate st msg = queueMessage st gm sid.
Proof.
  unfold onMessageCreate. destruct (String.eqb _ _); [by left|].
  unfold inGuild. destruct (guildId msg) as [g|]; [|by left].
  destruct (String.eqb g ""); [by left|]. simpl.
  destruct (getMemberVoiceStyleId _ _ _) as [sid|]; [|by left].
  right. eexists _, sid. split; [|reflexivity]. reflexivity.
Qed.

Lemma step_config st x g u :
  ~ selects g u x -> config (step st x) !! (g, u) = config st !! (g, u).
Proof.
  intros Hx. destruct x as [msg|i|i|i|g' u' sp|g' vc o|ref ev]; simpl.
  - destruct (onMessageCreate_cases st msg) as [->|(gm & sid & _ & ->)];
      [done|]. by rewrite (proj1 (proj2 (proj2 (queueMessage_registry _ _ _)))).
  - unfold slashJoin. destruct (voiceConnections st !! _); [done|].
    destruct (iMember i) as [m|]; [|done]. by destruct (voiceChannel m).
  - unfold slashSkip. destruct (negb _); [done|].
    by destruct (guildPlayers st !! _).
  - unfold messageContextReadThisMessage.
    destruct (getMemberVoiceStyleId _ _ _); [|done]. simpl.
    by rewrite (proj1 (proj2 (proj2 (queueMessage_registry _ _ _)))).
  - destruct sp as [sid|]; [|done]. simpl.
    rewrite lookup_insert_ne; [done|]. intros [= -> ->]. by apply Hx.
  - unfold onDisconnected. destruct o; try done.
    destruct (voiceConnections st !! g') as [t|]; [|done].
    by destruct (vcId t =? vc)%nat.
  - unfold onPlayerReport. by destruct ev.
Qed.

Lemma step_applicationId st x : applicationId (step st x) = applicationId st.
Proof.
  destruct x as [msg|i|i|i|g' u' sp|g' vc o|ref ev]; simpl.
  - destruct (onMessageCreate_cases st msg) as [->|(gm & sid & _ & ->)];
      [done|]. by rewrite (proj2 (proj2 (proj2 (queueMessage_registry _ _ _)))).
  - unfold slashJoin. destruct (voiceConnections st !! _); [done|].
    destruct (iMember i) as [m|]; [|done]. by destruct (voiceChannel m).
  - unfold slashSkip. destruct (negb _); [done|].
    by destruct (guildPlayers st !! _).
  - unfold messageContextReadThisMessage.
    destruct (getMemberVoiceStyleId _ _ _); [|done]. simpl.
    by rewrite (proj2 (proj2 (proj2 (queueMessage_registry _ _ _)))).
  - by destruct sp.
  - unfold onDisconnected. destruct o; try done.
    destruct (voiceConnections st !! g') as [t|]; [|done].
    by destruct (vcId t =? vc)%nat.
  - unfold onPlayerReport. by destruct ev.
Qed.

Lemma run_applicationId xs :
  forall st, applicationId (run st xs) = applicationId st.
Proof.
  induction xs as [|x xs IH]; intros st; [done|].
  change (run st (x :: xs)) with (run (step st x) xs).
  by rewrite IH, step_applicationId.
Qed.

Lemma step_registry st x :
  ~ registers x ->
  guildPlayers (step st x) = guildPlayers st
  /\ voiceConnections (step st x) = voiceConnections st.
Proof.
  intros Hx. destruct x as [msg|i|i|i|g' u' sp|g' vc o|ref ev]; simpl.
  - destruct (onMessageCreate_cases st msg) as [->|(gm & sid & _ & ->)];
      [done|]. split; apply queueMessage_registry.
  - by destruct Hx.
  - unfold slashSkip. destruct (negb _); [done|].
    by destruct (guildPlayers st !! _).
  - unfold messageContextReadThisMessage.
    destruct (getMemberVoiceStyleId _ _ _); [|done]. simpl.
    split; apply queueMessage_registry.
  - by destruct sp.
  - destruct o; try done; by destruct Hx.
  - unfold onPlayerReport. by destruct ev.
Qed.

Lemma registers_dec x : registers x \/ ~ registers x.
Proof.
  destruct x as [| | | | |? ? o|]; simpl; try tauto. destruct o; tauto.
Qed.

Lemma step_unregistered st x g :
  ~ joins g x -> guildPlayers st !! g = None ->
  guildPlayers (step st x) !! g = None.
Proof.
  intros Hx Hg. destruct (registers_dec x) as [Hreg|Hn];
    [|by rewrite (proj1 (step_registry st x Hn))].
  destruct x as [msg|i|i|i|g' u' sp|g' vc o|ref ev]; try done.
  - simpl. unfold slashJoin. destruct (voiceConnections st !! _); [done|].
    destruct (iMember i) as [m|]; [|done].
    destruct (voiceChannel m); [|done]. simpl.
    rewrite lookup_insert_ne; [done|]. intros E. by apply Hx.
  - simpl. unfold onDisconnected. destruct o; try done.
    destruct (voiceConnections st !! g') as [t|]; [|done].
    destruct (vcId t =? vc)%nat; [|done]. simpl.
    destruct (decide (g' = g)) as [->|Hne].
    + by rewrite lookup_delete_eq.
    + by rewrite lookup_delete_ne.
Qed.

(** *** A player out of the registry stays out *)




End WithUnicodeData.

End AppFacts.

(* ===================================================================== *)
(** ** The claims about the dispatcher                                    *)
(* ===================================================================== *)

Module AppClaims.
Import JS JSLib Utils App AppLib AppFacts.

Section WithUnicodeData.
Context `{UnicodeData}.

(** C5: a guild has at most one registered player: a join request for a
    guild that already has a tracked voice connection (which, in every
    state the bot can reach, is the case whenever the guild has a player)
    answers "Already joined!", creates no [Player] and leaves the whole
    state, the [guildPlayers] entry of the guild included, as it was. *)
Theorem join_creates_no_second_player st interaction :
  is_Some (voiceConnections st !! iGuildId interaction)
  \/ (reachable st /\ is_Some (guildPlayers st !! iGuildId interaction)) ->
  slashJoin st interaction
  = (st, zundaEmbed COLOR_SUCCESS "Already joined!" "The bot is already in voice").
Proof.
  intros Hconn.
  assert (Hvc : is_Some (voiceConnections st !! iGuildId interaction)).
  { destruct Hconn as [Hvc | [Hreach Hpl]]; [done|].
    by apply (inv_tracked st (invariant_reachable st Hreach)). }
  destruct Hvc as [vc Hvc]. unfold slashJoin. by rewrite Hvc.
Qed.

(** C6: when the disconnect is transient (the connection re-enters
    Signalling or Connecting before the race times out) the handler changes
    nothing: the registry keeps the guild's entry and every [Player] keeps
    its current and queued utterances. *)
Theorem reconnect_preserves_state st g vc outcome :
  outcome = EnteredSignalling \/ outcome = EnteredConnecting ->
  onDisconnected st g vc outcome = st.
Proof. by intros [-> | ->]. Qed.

(** C7: [/skip] with nothing active is a no-op on the state: when the
    interaction is not in a cached guild, when the guild has no player, or
    when its player is Idle or Draining, neither the registry nor any
    [Player] changes. *)
Theorem skip_nothing_active st interaction :
  inCachedGuild interaction = false
  \/ guildPlayers st !! iGuildId interaction = None
  \/ (exists ref p,
        guildPlayers st !! iGuildId interaction = Some ref
        /\ players st !! ref = Some p
        /\ (Engine.phase p = Engine.Idle \/ Engine.phase p = Engine.Draining)) ->
  (slashSkip st interaction).1 = st.
Proof.
  unfold slashSkip. intros [-> | [-> | (ref & p & -> & Hp & Hphase)]].
  - done.
  - by destruct (negb _).
  - destruct (negb _); [done|]. simpl. apply call_fixed.
    intros p' Hp'. assert (p' = p) as -> by congruence.
    by apply EngineFacts.skip_inactive.
Qed.

(** C9: [onMessageCreate] leaves the state untouched, so that nothing is
    enqueued, whenever one of the three guards fails: the author is the bot
    itself, the message is not in a guild, or the author has no stored
    voice style id. *)
Theorem message_guards st msg :
  authorId msg = applicationId st
  \/ inGuild msg = None
  \/ (exists gm, inGuild msg = Some gm
        /\ getMemberVoiceStyleId st (gmGuildId gm) (authorId msg) = None) ->
  onMessageCreate st msg = st.
Proof.
  unfold onMessageCreate. intros [-> | [-> | (gm & -> & ->)]].
  - by rewrite String.eqb_refl.
  - by destruct (String.eqb _ _).
  - by destruct (String.eqb _ _).
Qed.

(** C1, as the code has it: in every state the bot can reach,
    [queueMessage] for a guild with a registered player appends the
    utterance (the normalised text and the style id) at the tail of what
    that player holds and touches nothing else; for a guild without a
    registered player it changes nothing. *)
Theorem queueMessage_appends_or_drops st msg styleId :
  reachable st ->
  match guildPlayers st !! gmGuildId msg with
  | Some ref =>
      exists p p',
        players st !! ref = Some p
        /\ players (queueMessage st msg styleId) !! ref = Some p'
        /\ Engine.pending p'
           = Engine.pending p
             ++ [{| Engine.ident := Engine.nextIdent p;
                    Engine.utt :=
                      {| Engine.styleId := styleId;
                         Engine.message := getReadableString (gmContent msg) |} |}]
        /\ guildPlayers (queueMessage st msg styleId) = guildPlayers st
        /\ forall r, r <> ref ->
             players (queueMessage st msg styleId) !! r = players st !! r
  | None => queueMessage st msg styleId = st
  end.
Proof.
  intros Hreach. pose proof (invariant_reachable st Hreach) as Hinv.
  unfold queueMessage.
  destruct (guildPlayers st !! gmGuildId msg) as [ref|] eqn:Hg; [|done].
  destruct (inv_registered st Hinv _ _ Hg) as [p Hp].
  destruct (inv_players st Hinv _ _ Hp) as (Hwf & Hlive & _).
  exists p, (Engine.queueMessage
               {| Engine.styleId := styleId;
                  Engine.message := getReadableString (gmContent msg) |} p).
  simpl. split; [done|]. split; [by rewrite lookup_alter_eq, Hp|].
  split; [by apply EngineFacts.pending_queueMessage|].
  split; [done|]. intros r Hr. by rewrite lookup_alter_ne.
Qed.


(** C10, as the code has it: [queueMessage] has no guard on the normalised
    text: whenever normalisation yields the empty string, the player of the
    guild is handed an utterance with that empty text all the same.  And
    normalisation yields the empty string for every content with nothing
    to read in it: white space, emoji escapes and emoji code points outside
    the letter, number, punctuation and separator classes, alone or around
    one URL that white space or the end of the content ends. *)
Theorem empty_text_is_enqueued st msg styleId ref :
  guildPlayers st !! gmGuildId msg = Some ref ->
  (nothing_to_read (gmContent msg) -> getReadableString (gmContent msg) = [])
  /\ (getReadableString (gmContent msg) = [] ->
      queueMessage st msg styleId
      = call ref
          (Engine.queueMessage
             {| Engine.styleId := styleId; Engine.message := [] |}) st
      /\ players (queueMessage st msg styleId) !! ref
         = Engine.queueMessage
             {| Engine.styleId := styleId; Engine.message := [] |}
             <$> players st !! ref).
Proof.
  intros Href. split; [apply UtilsFacts.nothing_to_read_unreadable|].
  intros Hempty. unfold queueMessage. rewrite Href, Hempty.
  split; [done|]. simpl. by rewrite lookup_alter_eq.
Qed.

(** C2, as the code has it: the text that reaches the player is not the
    content as supplied but the string [queueMessage] computes from it
    with [getReadableString]: the utterance the player of the guild holds
    last after the call carries exactly that string and the style id, and
    what the player held before is left as it was.  The two are equal,
    character for character, when the content is plain text (letters,
    numbers, punctuation marks and separators of the Basic Multilingual
    Plane, no colon) without white space at either end.  From there on the
    text is opaque: whatever the engine does (a synthesis request, a
    stream, a stop, a report) concerns an utterance that an [enqueue] call
    supplied, text and style id exactly as supplied. *)
Theorem delivered_text_is_normalised st msg styleId ref evs f :
  reachable st ->
  guildPlayers st !! gmGuildId msg = Some ref ->
  (exists p p',
     players st !! ref = Some p
     /\ players (queueMessage st msg styleId) !! ref = Some p'
     /\ last (Engine.pending p')
        = Some {| Engine.ident := Engine.nextIdent p;
                  Engine.utt :=
                    {| Engine.styleId := styleId;
                       Engine.message :=
                         getReadableString (gmContent msg) |} |}
     /\ Engine.pending p `prefix_of` Engine.pending p')
  /\ (Forall plain (gmContent msg) -> (chr ":" ∉ gmContent msg) ->
      trim (gmContent msg) = gmContent msg ->
      getReadableString (gmContent msg) = gmContent msg)
  /\ (f ∈ Engine.out (Engine.run Engine.create evs) ->
      Engine.utt (Engine.entry_of f) ∈ Engine.enqueues evs).
Proof.
  intros Hreach Href. pose proof (invariant_reachable st Hreach) as Hinv.
  split; [|split].
  - destruct (inv_registered st Hinv _ _ Href) as [p Hp].
    destruct (inv_players st Hinv _ _ Hp) as (Hwf & Hlive & _).
    exists p, (Engine.queueMessage
                 {| Engine.styleId := styleId;
                    Engine.message := getReadableString (gmContent msg) |} p).
    split; [done|]. unfold queueMessage. rewrite Href. simpl.
    split; [by rewrite lookup_alter_eq, Hp|].
    rewrite EngineFacts.pending_queueMessage by done.
    split; [apply last_snoc | by eexists].
  - intros Hplain Hcolon Htrim. unfold getReadableString.
    by rewrite UtilsExtras.replacements_pass.
  - apply EngineFacts.effects_sourced.
Qed.

End WithUnicodeData.

(** C1 fails as stated: a message of a guild in which the bot has no
    player is dropped: [queueMessage] returns the state it was given, in
    which no [Player] exists to hold the utterance, although "Read this
    message" answers that it was enqueued. *)
Lemma message_without_player_is_dropped :
  @queueMessage basic_latin_only Scenario.bot (Scenario.said "u" "hello") 3
  = Scenario.bot
  /\ players (@queueMessage basic_latin_only Scenario.bot
                (Scenario.said "u" "hello") 3) = ∅
  /\ @messageContextReadThisMessage basic_latin_only Scenario.bot
       (Scenario.readThis "hello")
     = (Scenario.bot,
        zundaEmbed COLOR_SUCCESS "Successfully enqueued!"
          "The message is successfully enqueued to be read").
Proof. by vm_compute. Qed.

Lemma queueMessage_appends_or_drops_witness :
  @reachable basic_latin_only Scenario.joined
  /\ exists p p',
       players Scenario.joined !! 0%nat = Some p
       /\ players (@queueMessage basic_latin_only Scenario.joined
                     (Scenario.said "u" "hello") 3) !! 0%nat = Some p'
       /\ Engine.pending p' = Engine.pending p ++ [Scenario.hello].
Proof.
  assert (Hreach : @reachable basic_latin_only Scenario.joined).
  { exists "bot", {[ ("g", "u") := 3 ]}, [SlashJoin Scenario.join].
    reflexivity. }
  split; [exact Hreach|].
  pose proof (@queueMessage_appends_or_drops basic_latin_only
                Scenario.joined (Scenario.said "u" "hello") 3 Hreach) as Hq.
  change (guildPlayers Scenario.joined !! gmGuildId (Scenario.said "u" "hello"))
    with (Some 0%nat) in Hq.
  destruct Hq as (p & p' & Hp & Hp' & Hpend & _).
  exists p, p'. split; [exact Hp|]. split; [exact Hp'|].
  rewrite Hpend. vm_compute in Hp. injection Hp as <-. reflexivity.
Defined.



Lemma join_creates_no_second_player_witness :
  (@reachable basic_latin_only Scenario.joined
   /\ is_Some (guildPlayers Scenario.joined !! "g"))
  /\ slashJoin Scenario.joined Scenario.join
     = (Scenario.joined,
        zundaEmbed COLOR_SUCCESS "Already joined!" "The bot is already in voice").
Proof.
  assert (Hh : @reachable basic_latin_only Scenario.joined
               /\ is_Some (guildPlayers Scenario.joined !! "g")).
  { split.
    - exists "bot", {[ ("g", "u") := 3 ]}, [SlashJoin Scenario.join].
      reflexivity.
    - exists 0%nat. by vm_compute. }
  split; [exact Hh|].
  apply (@join_creates_no_second_player basic_latin_only
           Scenario.joined Scenario.join).
  right. exact Hh.
Defined.

Lemma reconnect_preserves_state_witness :
  onDisconnected Scenario.talking "g" 0 EnteredSignalling = Scenario.talking.
Proof.
  apply (reconnect_preserves_state Scenario.talking "g" 0 EnteredSignalling).
  left. reflexivity.
Defined.

Lemma skip_nothing_active_witness :
  guildPlayers Scenario.bot !! "g" = None
  /\ (slashSkip Scenario.bot Scenario.skip).1 = Scenario.bot.
Proof.
  assert (Hg : guildPlayers Scenario.bot !! "g" = None) by reflexivity.
  split; [exact Hg|].
  apply (skip_nothing_active Scenario.bot Scenario.skip).
  right. left. exact Hg.
Defined.

Lemma message_guards_witness :
  (exists gm, inGuild (Scenario.say "v" "hello") = Some gm
     /\ getMemberVoiceStyleId Scenario.joined (gmGuildId gm) "v" = None)
  /\ @onMessageCreate basic_latin_only Scenario.joined (Scenario.say "v" "hello")
     = Scenario.joined.
Proof.
  assert (Hh : exists gm, inGuild (Scenario.say "v" "hello") = Some gm
     /\ getMemberVoiceStyleId Scenario.joined (gmGuildId gm) "v" = None).
  { eexists. split; [reflexivity|]. by vm_compute. }
  split; [exact Hh|].
  apply (@message_guards basic_latin_only Scenario.joined (Scenario.say "v" "hello")).
  right. right. exact Hh.
Defined.

(** C10 fails as stated: a message of a URL, a space and the keycap
    emoji of the digit one does not normalise to the empty string: the
    digit is a number and is kept, whatever the Unicode tables say of the
    two code points that follow it, and the player is handed the text
    "1". *)
Lemma keycap_is_read :
  gmContent Scenario.keycap = lit "http://x.example " ++ [0x31; 0xFE0F; 0x20E3]
  /\ (forall ucd : UnicodeData,
        head (@getReadableString ucd (gmContent Scenario.keycap)) = Some 0x31)
  /\ @getReadableString basic_latin_only (gmContent Scenario.keycap) = lit "1"
  /\ Engine.pending <$>
       players (@queueMessage basic_latin_only Scenario.joined
                  Scenario.keycap 3) !! 0%nat
     = Some [{| Engine.ident := 0;
                Engine.utt := {| Engine.styleId := 3;
                                 Engine.message := lit "1" |} |}].
Proof.
  split; [reflexivity|]. split; [|split; by vm_compute].
  intros ucd. apply (@UtilsFacts.keycap_digit_is_kept ucd).
Qed.

Lemma empty_text_is_enqueued_witness :
  guildPlayers Scenario.joined !! "g" = Some 0%nat
  /\ @nothing_to_read basic_latin_only (gmContent Scenario.nothing)
  /\ @getReadableString basic_latin_only (gmContent Scenario.nothing) = []
  /\ Engine.pending <$>
       players (@queueMessage basic_latin_only Scenario.joined
                  Scenario.nothing 3) !! 0%nat
     = Some [{| Engine.ident := 0;
                Engine.utt := {| Engine.styleId := 3; Engine.message := [] |} |}].
Proof.
  assert (Href : guildPlayers Scenario.joined !! "g" = Some 0%nat)
    by (by vm_compute).
  assert (Hpre : Forall (@well_formed basic_latin_only) Scenario.nothing_before).
  { repeat (apply List.Forall_cons || apply List.Forall_nil); simpl;
      repeat split; try done;
      repeat (apply List.Forall_cons || apply List.Forall_nil); done. }
  assert (Hbody : well_formed_url (lit "x.example/z?q=1")).
  { split; [done|].
    repeat (apply List.Forall_cons || apply List.Forall_nil); done. }
  assert (Hpost : Forall (@well_formed basic_latin_only) Scenario.nothing_after).
  { repeat (apply List.Forall_cons || apply List.Forall_nil); simpl;
      repeat split; try done;
      repeat (apply List.Forall_cons || apply List.Forall_nil); done. }
  assert (Hnothing : @nothing_to_read basic_latin_only
                       (gmContent Scenario.nothing)).
  { right. exists Scenario.nothing_before, true, (lit "x.example/z?q=1"),
      Scenario.nothing_after.
    split; [exact Hpre|]. split; [exact Hbody|]. split; [exact Hpost|].
    split; [exact I | reflexivity]. }
  destruct (@empty_text_is_enqueued basic_latin_only Scenario.joined
              Scenario.nothing 3 0%nat Href) as (Hempty & Hqueue).
  split; [exact Href|]. split; [exact Hnothing|].
  split; [exact (Hempty Hnothing)|].
  destruct (Hqueue (Hempty Hnothing)) as [_ Hplayers].
  rewrite Hplayers. by vm_compute.
Defined.

(** C2 fails as stated: the content "  see http://a.example <:smile:1>"
    is normalised to "see", and "see" is the text of the utterance the
    player of the guild then holds. *)
Lemma supplied_text_is_processed :
  gmContent Scenario.see = lit "  see http://a.example <:smile:1>"
  /\ @getReadableString basic_latin_only (gmContent Scenario.see) = lit "see"
  /\ Engine.pending <$>
       players (@queueMessage basic_latin_only Scenario.joined
                  Scenario.see 3) !! 0%nat
     = Some [{| Engine.ident := 0;
                Engine.utt := {| Engine.styleId := 3;
                                 Engine.message := lit "see" |} |}]
  /\ lit "see" <> gmContent Scenario.see.
Proof. repeat split; by vm_compute. Qed.

Lemma delivered_text_is_normalised_witness :
  (@reachable basic_latin_only Scenario.joined
   /\ guildPlayers Scenario.joined !! "g" = Some 0%nat)
  /\ (exists p',
        players (@queueMessage basic_latin_only Scenario.joined
                   (Scenario.said "u" "hello") 3) !! 0%nat = Some p'
        /\ last (Engine.pending p') = Some Scenario.hello)
  /\ @getReadableString basic_latin_only (lit "hello") = lit "hello"
  /\ Engine.Synthesize {| Engine.ident := 0; Engine.utt := Scenario.u1 |}
       ∈ Engine.out (Engine.run Engine.create Scenario.plain)
  /\ Scenario.u1 ∈ Engine.enqueues Scenario.plain.
Proof.
  assert (Hreach : @reachable basic_latin_only Scenario.joined).
  { exists "bot", {[ ("g", "u") := 3 ]}, [SlashJoin Scenario.join].
    reflexivity. }
  assert (Href : guildPlayers Scenario.joined !! "g" = Some 0%nat)
    by (by vm_compute).
  assert (Hout : Engine.Synthesize
                   {| Engine.ident := 0; Engine.utt := Scenario.u1 |}
                 ∈ Engine.out (Engine.run Engine.create Scenario.plain)).
  { apply list_elem_of_In. vm_compute. tauto. }
  split; [by split|].
  destruct (@delivered_text_is_normalised basic_latin_only Scenario.joined
              (Scenario.said "u" "hello") 3 0%nat Scenario.plain
              (Engine.Synthesize
                 {| Engine.ident := 0; Engine.utt := Scenario.u1 |})
              Hreach Href)
    as ((p & p' & Hp & Hp' & Hlast & _) & Hplain & Hsrc).
  split; [|split; [|split; [exact Hout | exact (Hsrc Hout)]]].
  - exists p'. split; [exact Hp'|]. rewrite Hlast.
    vm_compute in Hp. injection Hp as <-. reflexivity.
  - apply Hplain.
    + repeat (apply List.Forall_cons; [by vm_compute|]). apply List.Forall_nil.
    + intros Hin. apply list_elem_of_In in Hin. vm_compute in Hin.
      intuition discriminate.
    + reflexivity.
Defined.

End AppClaims.

(* ===================================================================== *)
(** ** More about the dispatcher: guilds, voices, sessions                *)
(* ===================================================================== *)

Module AppExtras.
Import JS Utils App AppLib AppFacts.

Section WithUnicodeData.
Context `{UnicodeData}.

(** X6.  What happens in one guild leaves the others alone: an input that
    is not addressed to the guild [g] nor to the [Player] object registered
    for it changes neither the registry entry of [g], nor that object, nor
    the voice connection tracked for [g]. *)
Theorem other_guilds_untouched st x g ref :
  reachable st -> guildPlayers st !! g = Some ref -> ~ concerns x g ref ->
  guildPlayers (step st x) !! g = Some ref
  /\ players (step st x) !! ref = players st !! ref
  /\ voiceConnections (step st x) !! g = voiceConnections st !! g.
Proof.
  intros Hr Hg Hx. pose proof (invariant_reachable st Hr) as Hinv.
  destruct x as [msg|i|i|i|g' u' sp|g' vc o|r ev]; simpl in *.
  - destruct (onMessageCreate_cases st msg) as [->|(gm & sid & Hgm & ->)];
      [done|].
    destruct (queueMessage_registry st gm sid) as (-> & -> & _).
    split; [done|]. split; [|done].
    apply (queueMessage_other st gm sid g); try done.
    intros E. apply Hx. by rewrite Hgm, E.
  - unfold slashJoin. destruct (voiceConnections st !! _); [done|].
    destruct (iMember i) as [m|]; [|done].
    destruct (voiceChannel m); [|done]. simpl.
    rewrite !lookup_insert_ne; try done.
    intros E. by apply (registered_not_fresh st g ref).
  - unfold slashSkip. destruct (negb _); [done|].
    destruct (guildPlayers st !! iGuildId i) as [r|] eqn:E; [|done]. simpl.
    split; [done|]. split; [|done].
    rewrite lookup_alter_ne; [done|]. intros ->.
    apply Hx. by apply (inv_one_guild st Hinv _ _ ref).
  - unfold messageContextReadThisMessage.
    destruct (getMemberVoiceStyleId _ _ _) as [sid|]; [|done]. simpl.
    destruct (queueMessage_registry st (targetMessage i) sid) as (-> & -> & _).
    split; [done|]. split; [|done].
    by apply (queueMessage_other st (targetMessage i) sid g).
  - by destruct sp.
  - unfold onDisconnected. destruct o; try done.
    destruct (voiceConnections st !! g') as [t|]; [|done].
    destruct (vcId t =? vc)%nat; [|done]. simpl.
    by rewrite !lookup_delete_ne.
  - unfold onPlayerReport. destruct ev; try done; simpl;
      by rewrite lookup_alter_ne.
Qed.

(** X7.  Where [/join] answers "Already joined!" the bot does read: in
    every state the bot can reach, a guild with a tracked voice connection
    has a registered player, and that player is handed every message
    queued for the guild.  The converse is not claimed: a connection that
    is destroyed otherwise than by the [Disconnected] handler would leave
    the entry of its guild in the registry. *)
Theorem already_joined_has_player st i :
  reachable st ->
  is_Some (voiceConnections st !! iGuildId i) ->
  (slashJoin st i).2
  = zundaEmbed COLOR_SUCCESS "Already joined!" "The bot is already in voice"
  /\ exists ref p,
       guildPlayers st !! iGuildId i = Some ref
       /\ players st !! ref = Some p
       /\ forall msg styleId,
            gmGuildId msg = iGuildId i ->
            players (queueMessage st msg styleId) !! ref
            = Some (Engine.queueMessage
                      {| Engine.styleId := styleId;
                         Engine.message :=
                           getReadableString (gmContent msg) |} p).
Proof.
  intros Hr Hvc. pose proof (invariant_reachable st Hr) as Hinv. split.
  - destruct Hvc as [vc Hvc]. unfold slashJoin. by rewrite Hvc.
  - apply (inv_tracked st Hinv) in Hvc as [ref Href].
    destruct (inv_registered st Hinv _ _ Href) as [p Hp].
    exists ref, p. split; [done|]. split; [done|].
    intros msg styleId Hg. unfold queueMessage. rewrite Hg, Href. simpl.
    by rewrite lookup_alter_eq, Hp.
Qed.

(** X8.  A [/join] of a member who sits in a voice channel, in a guild
    without a voice connection, answers "Joined to" with the name of the
    channel, tracks a new connection to that channel, and registers a new
    [Player] object bound to it: an object no guild had, while every
    [Player] object there was stays as it is. *)
Theorem join_creates_fresh_player st i member ch :
  reachable st ->
  voiceConnections st !! iGuildId i = None ->
  iMember i = Some member -> voiceChannel member = Some ch ->
  (slashJoin st i).2
    = zundaEmbed COLOR_SUCCESS "Joined!" ("Joined to " ++ channelName ch)
  /\ voiceConnections (slashJoin st i).1 !! iGuildId i
     = Some {| vcId := nextConnection st; vcChannelId := channelId ch |}
  /\ guildPlayers (slashJoin st i).1 !! iGuildId i = Some (nextPlayer st)
  /\ players (slashJoin st i).1 !! nextPlayer st
     = Some (Engine.setStreamTarget (nextConnection st) Engine.create)
  /\ players st !! nextPlayer st = None
  /\ (forall g, guildPlayers st !! g <> Some (nextPlayer st))
  /\ (forall r p, players st !! r = Some p ->
                  players (slashJoin st i).1 !! r = Some p).
Proof.
  intros Hr Hvc Hm Hch. pose proof (invariant_reachable st Hr) as Hinv.
  unfold slashJoin. rewrite Hvc, Hm, Hch. simpl.
  rewrite !lookup_insert_eq. repeat (split; [done|]).
  split; [by apply fresh_player|]. split.
  - intros g Hg. by apply (registered_not_fresh st g (nextPlayer st)).
  - intros r p Hp. rewrite lookup_insert_ne; [done|]. intros <-.
    rewrite fresh_player in Hp; done.
Qed.

(** X9.  After a connection is lost for good, a new [/join] in the guild
    registers another [Player] object than the one of the session before:
    a newly made one, bound to the new connection, so that nothing queued
    in the old session is carried over; the old object is not touched. *)
Theorem rejoin_starts_afresh st g old tracked i member ch :
  reachable st ->
  guildPlayers st !! g = Some old ->
  voiceConnections st !! g = Some tracked ->
  iGuildId i = g -> iMember i = Some member -> voiceChannel member = Some ch ->
  let st1 := onDisconnected st g (vcId tracked) Rejected in
  let st2 := (slashJoin st1 i).1 in
  exists new,
    guildPlayers st2 !! g = Some new /\ new <> old
    /\ players st2 !! new
       = Some (Engine.setStreamTarget (nextConnection st) Engine.create)
    /\ voiceConnections st2 !! g
       = Some {| vcId := nextConnection st; vcChannelId := channelId ch |}
    /\ players st2 !! old = players st !! old.
Proof.
  intros Hr Hg Hvc <- Hm Hch st1 st2.
  pose proof (invariant_reachable st Hr) as Hinv.
  exists (nextPlayer st).
  subst st2 st1. unfold onDisconnected. rewrite Hvc, Nat.eqb_refl.
  unfold slashJoin. simpl. rewrite lookup_delete_eq, Hm, Hch. simpl.
  rewrite !lookup_insert_eq.
  assert (Hne : old <> nextPlayer st)
    by by apply (registered_not_fresh st (iGuildId i)).
  split; [done|]. split; [done|]. split; [done|]. split; [done|].
  by rewrite lookup_insert_ne.
Qed.

(** X10.  The voice a member chose stays the member's voice until the
    same member chooses again in the same guild, whatever else happens;
    and a message of the member in that guild is queued with it. *)
Theorem chosen_voice_persists st g u sid xs msg :
  Forall (fun x => ~ selects g u x) xs ->
  authorId msg = u -> u <> applicationId st ->
  guildId msg = Some g -> g <> "" ->
  let st' := run (buttonSpeakerStyleSeleceted st g u (Some sid)) xs in
  getMemberVoiceStyleId st' g u = Some sid
  /\ onMessageCreate st' msg
     = queueMessage st'
         {| gmAuthorId := u; gmGuildId := g; gmContent := content msg |} sid.
Proof.
  intros Hxs Hu Hbot Hg Hne st'.
  assert (Hcfg : forall st0, config (run st0 xs) !! (g, u) = config st0 !! (g, u)).
  { induction Hxs as [|x xs Hx _ IH]; intros st0; [done|].
    change (run st0 (x :: xs)) with (run (step st0 x) xs).
    by rewrite IH, step_config. }
  assert (Hsid : getMemberVoiceStyleId st' g u = Some sid).
  { unfold getMemberVoiceStyleId, st'. rewrite Hcfg. simpl.
    by rewrite lookup_insert_eq. }
  split; [done|]. unfold onMessageCreate.
  assert (Ha : applicationId st' = applicationId st).
  { unfold st'. by rewrite run_applicationId. }
  rewrite Ha, Hu. destruct (String.eqb_spec u (applicationId st)); [done|].
  unfold inGuild. rewrite Hg. destruct (String.eqb_spec g ""); [done|].
  simpl. by rewrite Hu, Hsid.
Qed.

(** X11.  Only [/join] makes the bot read in a guild: as long as no
    [/join] is given in a guild that has no registered player, the guild
    has none, and every message of the guild is ignored. *)
Theorem silent_until_join st g xs msg :
  guildPlayers st !! g = None -> Forall (fun x => ~ joins g x) xs ->
  guildId msg = Some g ->
  guildPlayers (run st xs) !! g = None
  /\ onMessageCreate (run st xs) msg = run st xs.
Proof.
  intros Hg Hxs Hmsg.
  assert (Hnone : guildPlayers (run st xs) !! g = None).
  { revert st Hg. induction Hxs as [|x xs Hx _ IH]; intros st Hg; [done|].
    change (run st (x :: xs)) with (run (step st x) xs).
    apply IH. by apply step_unregistered. }
  split; [done|].
  destruct (onMessageCreate_cases (run st xs) msg)
    as [->|(gm & sid & Hgm & ->)]; [done|].
  unfold queueMessage. rewrite Hmsg in Hgm. injection Hgm as <-.
  by rewrite Hnone.
Qed.

(** X12.  The registry and the table of voice connections change only on
    a [/join] or when a connection is lost for good: messages, [/skip],
    "Read this message", the choice of a voice and the reports of the
    players never add or remove an entry. *)
Theorem registry_changes_only_on_join_or_loss st x :
  guildPlayers (step st x) <> guildPlayers st
  \/ voiceConnections (step st x) <> voiceConnections st ->
  registers x.
Proof.
  intros Hch.
  destruct (registers_dec x) as [|Hn]; [done|].
  destruct (step_registry st x Hn) as [E1 E2].
  destruct Hch as [Hc|Hc]; by destruct Hc.
Qed.

(** X13.  The bot never reads its own messages: whatever has happened
    since it learnt its application id, a message written under that id
    changes nothing. *)
Theorem own_messages_are_ignored a cfg xs msg :
  authorId msg = a ->
  onMessageCreate (run (init a cfg) xs) msg = run (init a cfg) xs.
Proof.
  intros Ha. unfold onMessageCreate.
  rewrite run_applicationId. simpl. by rewrite Ha, String.eqb_refl.
Qed.

(** X24.  "Read this message" answers "Successfully enqueued!" whenever
    the member who asks has chosen a voice, also when the bot is not in
    voice in the guild of the message: nothing is enqueued then, and the
    state is as before. *)
Theorem read_this_reports_success_without_player st i sid :
  getMemberVoiceStyleId st (mcGuildId i) (mcUserId i) = Some sid ->
  guildPlayers st !! gmGuildId (targetMessage i) = None ->
  messageContextReadThisMessage st i
  = (st, zundaEmbed COLOR_SUCCESS "Successfully enqueued!"
           "The message is successfully enqueued to be read").
Proof.
  intros Hsid Hg. unfold messageContextReadThisMessage, queueMessage.
  by rewrite Hsid, Hg.
Qed.

(** X26.  What guards [/join] is the table of voice connections, not the
    registry: in a state where a guild has an entry in the registry but no
    tracked connection, a [/join] of a member who sits in a voice channel
    makes a new [Player] and writes it over the entry; the [Player] that
    was registered is left as it is, and the registry names it no more for
    that guild. *)
Theorem join_overwrites_stale_entry st i member ch old :
  guildPlayers st !! iGuildId i = Some old ->
  voiceConnections st !! iGuildId i = None ->
  (old < nextPlayer st)%nat ->
  iMember i = Some member -> voiceChannel member = Some ch ->
  (slashJoin st i).2
  = zundaEmbed COLOR_SUCCESS "Joined!" ("Joined to " ++ channelName ch)
  /\ guildPlayers (slashJoin st i).1 !! iGuildId i = Some (nextPlayer st)
  /\ nextPlayer st <> old
  /\ players (slashJoin st i).1 !! nextPlayer st
     = Some (Engine.setStreamTarget (nextConnection st) Engine.create)
  /\ players (slashJoin st i).1 !! old = players st !! old.
Proof.
  intros Hold Hvc Hlt Hm Hch. unfold slashJoin. rewrite Hvc, Hm, Hch. simpl.
  rewrite !lookup_insert_eq. split; [done|]. split; [done|].
  split; [lia|]. split; [done|]. rewrite lookup_insert_ne; [done|]. lia.
Qed.

End WithUnicodeData.

Lemma joined_reachable : @reachable basic_latin_only Scenario.joined.
Proof.
  exists "bot", {[ ("g", "u") := 3 ]}, [SlashJoin Scenario.join]. reflexivity.
Qed.

Lemma other_guilds_untouched_witness :
  guildPlayers Scenario.joined !! "g" = Some 0%nat
  /\ guildPlayers (Scenario.go Scenario.joined [SlashJoin Samples.elsewhere])
       !! "g" = Some 0%nat
  /\ players (Scenario.go Scenario.joined [SlashJoin Samples.elsewhere])
       !! 0%nat = players Scenario.joined !! 0%nat.
Proof.
  assert (Hg : guildPlayers Scenario.joined !! "g" = Some 0%nat)
    by by vm_compute.
  split; [exact Hg|].
  destruct (@other_guilds_untouched basic_latin_only Scenario.joined
              (SlashJoin Samples.elsewhere) "g" 0%nat) as (H1 & H2 & _).
  - exact joined_reachable.
  - exact Hg.
  - simpl. discriminate.
  - split; [exact H1 | exact H2].
Defined.

Lemma already_joined_has_player_witness :
  is_Some (voiceConnections Scenario.joined !! "g")
  /\ (slashJoin Scenario.joined Scenario.join).2
     = zundaEmbed COLOR_SUCCESS "Already joined!" "The bot is already in voice"
  /\ is_Some (guildPlayers Scenario.joined !! "g").
Proof.
  assert (Hvc : is_Some (voiceConnections Scenario.joined !! "g")).
  { eexists. by vm_compute. }
  split; [exact Hvc|].
  destruct (@already_joined_has_player basic_latin_only Scenario.joined
              Scenario.join joined_reachable Hvc)
    as (Hreply & ref & p & Href & _).
  split; [exact Hreply|]. exists ref. exact Href.
Defined.

Lemma join_creates_fresh_player_witness :
  voiceConnections Scenario.joined !! "h" = None
  /\ guildPlayers (slashJoin Scenario.joined Samples.elsewhere).1 !! "h"
     = Some 1%nat
  /\ (slashJoin Scenario.joined Samples.elsewhere).2
     = zundaEmbed COLOR_SUCCESS "Joined!" "Joined to Lobby".
Proof.
  assert (Hvc : voiceConnections Scenario.joined !! "h" = None)
    by by vm_compute.
  split; [exact Hvc|].
  destruct (@join_creates_fresh_player basic_latin_only Scenario.joined
              Samples.elsewhere
              {| voiceChannel :=
                   Some {| channelId := "d"; channelName := "Lobby" |} |}
              {| channelId := "d"; channelName := "Lobby" |})
    as (H1 & _ & H3 & _).
  - exact joined_reachable.
  - exact Hvc.
  - reflexivity.
  - reflexivity.
  - split; [exact H3 | exact H1].
Defined.

Lemma rejoin_starts_afresh_witness :
  exists new,
    guildPlayers (slashJoin Scenario.left Scenario.join).1 !! "g" = Some new
    /\ new <> 0%nat.
Proof.
  destruct (@rejoin_starts_afresh basic_latin_only Scenario.talking "g" 0%nat
              {| vcId := 0; vcChannelId := "c" |} Scenario.join
              {| voiceChannel :=
                   Some {| channelId := "c"; channelName := "General" |} |}
              {| channelId := "c"; channelName := "General" |})
    as (new & H1 & H2 & _).
  - exists "bot", {[ ("g", "u") := 3 ]},
      [SlashJoin Scenario.join; MessageCreate (Scenario.say "u" "hello");
       MessageCreate (Scenario.say "u" "world")].
    reflexivity.
  - by vm_compute.
  - by vm_compute.
  - reflexivity.
  - reflexivity.
  - reflexivity.
  - exists new. split; [exact H1 | exact H2].
Defined.

Lemma chosen_voice_persists_witness :
  getMemberVoiceStyleId
    (Scenario.go (buttonSpeakerStyleSeleceted Scenario.bot "g" "v" (Some 1))
       [SlashJoin Scenario.join; SpeakerStyleSelected "g" "u" (Some 8)])
    "g" "v"
  = Some 1.
Proof.
  apply (@chosen_voice_persists basic_latin_only Scenario.bot "g" "v" 1
           [SlashJoin Scenario.join; SpeakerStyleSelected "g" "u" (Some 8)]
           (Scenario.say "v" "hello")).
  - apply List.Forall_cons; [simpl; tauto|].
    apply List.Forall_cons; [|apply List.Forall_nil].
    simpl. intros [_ E]. discriminate E.
  - reflexivity.
  - simpl. discriminate.
  - reflexivity.
  - discriminate.
Defined.

Lemma silent_until_join_witness :
  @onMessageCreate basic_latin_only
    (Scenario.go Scenario.bot [SlashJoin Samples.elsewhere])
    (Scenario.say "u" "hello")
  = Scenario.go Scenario.bot [SlashJoin Samples.elsewhere].
Proof.
  apply (@silent_until_join basic_latin_only Scenario.bot "g"
           [SlashJoin Samples.elsewhere] (Scenario.say "u" "hello")).
  - reflexivity.
  - apply List.Forall_cons; [|apply List.Forall_nil]. simpl. discriminate.
  - reflexivity.
Defined.

Lemma registry_changes_only_on_join_or_loss_witness :
  registers (SlashJoin Scenario.join).
Proof.
  apply (@registry_changes_only_on_join_or_loss basic_latin_only Scenario.bot
           (SlashJoin Scenario.join)).
  left. intros E.
  assert (F : guildPlayers (@step basic_latin_only Scenario.bot
                              (SlashJoin Scenario.join)) !! "g" = None)
    by (rewrite E; reflexivity).
  vm_compute in F. discriminate F.
Defined.

Lemma own_messages_are_ignored_witness :
  @onMessageCreate basic_latin_only Scenario.joined (Scenario.say "bot" "hello")
  = Scenario.joined.
Proof.
  apply (@own_messages_are_ignored basic_latin_only "bot"
           {[ ("g", "u") := 3 ]} [SlashJoin Scenario.join]
           (Scenario.say "bot" "hello")).
  reflexivity.
Defined.

Lemma read_this_reports_success_without_player_witness :
  (@messageContextReadThisMessage basic_latin_only Scenario.bot
     (Scenario.readThis "hello")).2
  = zundaEmbed COLOR_SUCCESS "Successfully enqueued!"
      "The message is successfully enqueued to be read"
  /\ (@messageContextReadThisMessage basic_latin_only Scenario.bot
        (Scenario.readThis "hello")).1
     = Scenario.bot.
Proof.
  rewrite (@read_this_reports_success_without_player basic_latin_only
             Scenario.bot (Scenario.readThis "hello") 3).
  - split; reflexivity.
  - by vm_compute.
  - reflexivity.
Defined.

Lemma join_overwrites_stale_entry_witness :
  guildPlayers Samples.stale !! "g" = Some 0%nat
  /\ voiceConnections Samples.stale !! "g" = None
  /\ guildPlayers (slashJoin Samples.stale Scenario.join).1 !! "g"
     = Some 1%nat
  /\ players (slashJoin Samples.stale Scenario.join).1 !! 0%nat
     = players Samples.stale !! 0%nat.
Proof.
  assert (Hold : guildPlayers Samples.stale !! "g" = Some 0%nat)
    by (by vm_compute).
  assert (Hvc : voiceConnections Samples.stale !! "g" = None)
    by (by vm_compute).
  split; [exact Hold|]. split; [exact Hvc|].
  destruct (join_overwrites_stale_entry Samples.stale Scenario.join
              {| voiceChannel :=
                   Some {| channelId := "c"; channelName := "General" |} |}
              {| channelId := "c"; channelName := "General" |} 0%nat)
    as (_ & Hnew & _ & _ & Hkept).
  - exact Hold.
  - exact Hvc.
  - vm_compute. lia.
  - reflexivity.
  - reflexivity.
  - split; [exact Hnew | exact Hkept].
Defined.

End AppExtras.

(* ===================================================================== *)
(** ** Commands, menus and buttons                                        *)
(* ===================================================================== *)

Module UiExtras.
Import JS JSLib Utils App Ui JSFacts AppFacts.

(** *** [split] *)

Lemma split_not_nil sep s : split sep s <> [].
Proof.
  destruct s as [|c t]; simpl; [done|].
  destruct (c =? sep); [done|]. by destruct (split sep t).
Qed.

Lemma head_split_cons sep c t :
  c <> sep -> head (split sep (c :: t)) = (c ::.) <$> head (split sep t).
Proof.
  intros Hne. simpl. destruct (Z.eqb_spec c sep) as [|_]; [done|].
  destruct (split sep t) eqn:E; [|done]. by destruct (split_not_nil sep t).
Qed.

(** The first piece is what stands before the first separator, or the
    whole string when there is none. *)
Lemma head_split sep s piece :
  head (split sep s) = Some piece
  <-> (sep ∉ piece) /\ (s = piece \/ exists rest, s = piece ++ sep :: rest).
Proof.
  revert piece. induction s as [|c t IH]; intros piece.
  - simpl. split.
    + intros [= <-]. split; [apply not_elem_of_nil | by left].
    + intros (_ & [<-|(rest & E)]); [done|]. by destruct piece.
  - destruct (decide (c = sep)) as [->|Hne].
    + simpl. rewrite Z.eqb_refl. simpl. split.
      * intros [= <-]. split; [apply not_elem_of_nil|]. right. by exists t.
      * intros (Hp & [<-|(rest & E)]).
        -- destruct Hp. apply elem_of_cons. by left.
        -- destruct piece as [|x piece]; [done|]. injection E as <- _.
           destruct Hp. apply elem_of_cons. by left.
    + rewrite head_split_cons by done. split.
      * destruct (head (split sep t)) as [p|] eqn:E; [|done].
        intros [= <-]. destruct (proj1 (IH p) eq_refl) as (Hp & Hs).
        split.
        -- rewrite elem_of_cons. intros [?|?]; [by apply Hne | by apply Hp].
        -- destruct Hs as [->|(rest & ->)]; [by left|]. right. by exists rest.
      * intros (Hp & Hs). destruct piece as [|x piece].
        -- destruct Hs as [?|(rest & [= ? ?])]; [done|]. by destruct Hne.
        -- rewrite not_elem_of_cons in Hp. destruct Hp as [_ Hp].
           assert (E : head (split sep t) = Some piece).
           { apply IH. split; [done|].
             destruct Hs as [[= _ ->]|(rest & [= _ ->])]; [by left|].
             right. by exists rest. }
           rewrite E. simpl.
           by destruct Hs as [[= -> _]|(rest & [= -> _])].
Qed.

Lemma customCommand_head customId :
  customCommand customId = head (split (chr "/") customId).
Proof.
  unfold customCommand, split_limit.
  destruct (split (chr "/") customId); done.
Qed.

Lemma customCommand_prefixed cmd rest :
  chr "/" ∉ cmd -> customCommand (cmd ++ chr "/" :: rest) = Some cmd.
Proof.
  intros Hcmd. rewrite customCommand_head. apply head_split.
  split; [done|]. right. by exists rest.
Qed.

Lemma customCommand_whole cmd :
  chr "/" ∉ cmd -> customCommand cmd = Some cmd.
Proof.
  intros Hcmd. rewrite customCommand_head. apply head_split.
  split; [done|]. by left.
Qed.

Lemma no_slash_in_commands :
  (chr "/" ∉ lit "speakerStyleSelected") /\ (chr "/" ∉ lit "speakerSelected").
Proof.
  split; intros HIn; apply list_elem_of_In in HIn;
    vm_compute in HIn; intuition discriminate.
Qed.

Lemma style_prefix rest :
  lit "speakerStyleSelected/" ++ rest
  = lit "speakerStyleSelected" ++ chr "/" :: rest.
Proof. reflexivity. Qed.

Lemma pressedStyleId_prefixed rest :
  pressedStyleId (lit "speakerStyleSelected/" ++ rest) = rest.
Proof.
  unfold pressedStyleId, replace_at_start, match_here, re_style_prefix.
  by rewrite exec_str.
Qed.

Section WithVoiceVox.
Context `{VoiceVoxClient} `{Builders} `{NumberToString} `{UnicodeData}.

(** *** The builders return what they are given, or refuse it *)

Lemma forallb_false {A} (p : A -> bool) (l : list A) :
  forallb p l = false -> exists x, x ∈ l /\ p x = false.
Proof.
  induction l as [|a l IH]; simpl; [done|].
  destruct (p a) eqn:E; simpl.
  - intros (x & Hx & Hp)%IH. exists x. split; [by right | done].
  - intros _. exists a. split; [by left | done].
Qed.

Lemma setFields_cases fields :
  (setFields fields = Done fields
   /\ Forall (fun f => fValue f <> [] /\ fieldFits f = true) fields)
  \/ (setFields fields = Throws Refused
      /\ exists f, f ∈ fields /\ (fValue f = [] \/ fieldFits f = false)).
Proof.
  unfold setFields.
  destruct (forallb _ fields) eqn:E; [left|right]; (split; [done|]).
  - rewrite forallb_forall in E. apply Forall_forall. intros f Hf.
    apply list_elem_of_In, E, andb_prop in Hf as [Hv Hfit]. split; [|done].
    by apply negb_true_iff, bool_decide_eq_false in Hv.
  - apply forallb_false in E as (f & Hf & Hbad). exists f. split; [done|].
    apply andb_false_iff in Hbad as [Hv|Hfit]; [left|by right].
    by apply negb_false_iff, bool_decide_eq_true in Hv.
Qed.

Lemma addOptions_cases options :
  (addOptions options = Done options /\ (length options <= 25)%nat)
  \/ addOptions options = Throws Refused.
Proof.
  unfold addOptions, MAX_OPTIONS.
  destruct (Nat.leb_spec (length options) 25); simpl; [|by right].
  destruct (forallb optionFits options); [by left | by right].
Qed.

Lemma addOptions_crowded options :
  (25 < length options)%nat -> addOptions options = Throws Refused.
Proof.
  intros Hlen. unfold addOptions, MAX_OPTIONS.
  by destruct (Nat.leb_spec (length options) 25); [lia|].
Qed.

Lemma buildButtons_cases buttons :
  buildButtons buttons = Done buttons \/ buildButtons buttons = Throws Refused.
Proof. unfold buildButtons. destruct (forallb _ _); [by left | by right]. Qed.

Lemma setDescription_cases description :
  setDescription description = Done description
  \/ setDescription description = Throws Refused.
Proof. unfold setDescription. destruct (descriptionFits _); [by left | by right]. Qed.

(** The header as it is when [setFields] takes its fields. *)
Lemma header_cases speaker :
  embedSelectVoiceHeader speaker
  = Done {| eFooter := "sarisia/zundacord"; eColor := COLOR_ACTION;
            eTitle := "Select your voice!"; eDescription := None;
            eFields := headerFields speaker |}
  \/ embedSelectVoiceHeader speaker = Throws Refused.
Proof.
  unfold embedSelectVoiceHeader.
  destruct (setFields_cases (headerFields speaker)) as [[-> _]|[-> _]];
    [by left | by right].
Qed.

Lemma menu_cases sel :
  (getVoiceSpeakerSelectMenu sel
   = Done (SelectMenuRow (lit "speakerSelected") "Choose the speaker..."
             (map (speakerOption sel) getSpeakers))
   /\ (length getSpeakers <= 25)%nat)
  \/ getVoiceSpeakerSelectMenu sel = Throws Refused.
Proof.
  unfold getVoiceSpeakerSelectMenu.
  destruct (addOptions_cases (map (speakerOption sel) getSpeakers))
    as [[-> Hlen] | ->]; [left|by right].
  split; [done|]. by rewrite length_map in Hlen.
Qed.

Lemma menu_crowded sel :
  (25 < length getSpeakers)%nat ->
  getVoiceSpeakerSelectMenu sel = Throws Refused.
Proof.
  intros Hlen. unfold getVoiceSpeakerSelectMenu.
  rewrite addOptions_crowded; [done|]. by rewrite length_map.
Qed.

Lemma buttons_cases uuid :
  match getSpeakerByUUID uuid with
  | None =>
      getVoiceSpeakerStyleButtons uuid
      = Throws (Raised (lit "speakerUuid does not exist: " ++ uuid))
  | Some speaker =>
      getVoiceSpeakerStyleButtons uuid
      = Done [ButtonRow (map styleButton (styles speaker))]
      \/ getVoiceSpeakerStyleButtons uuid = Throws Refused
  end.
Proof.
  unfold getVoiceSpeakerStyleButtons.
  destruct (getSpeakerByUUID uuid) as [speaker|]; [|done].
  destruct (buildButtons_cases (map styleButton (styles speaker)))
    as [-> | ->]; [by left | by right].
Qed.

Lemma buttons_made uuid rows :
  getVoiceSpeakerStyleButtons uuid = Done rows ->
  exists speaker,
    getSpeakerByUUID uuid = Some speaker
    /\ rows = [ButtonRow (map styleButton (styles speaker))].
Proof.
  pose proof (buttons_cases uuid) as Hc.
  destruct (getSpeakerByUUID uuid) as [speaker|]; [|congruence].
  intros Hrows. exists speaker. split; [done|].
  destruct Hc as [Hc|Hc]; congruence.
Qed.

(** What [slashVoice] comes to. *)
Lemma slashVoice_cases st i :
  (slashVoice st i
   = Responded
       (Reply true
          [ {| eFooter := "sarisia/zundacord"; eColor := COLOR_ACTION;
               eTitle := "Select your voice!"; eDescription := None;
               eFields := headerFields
                            (currentSpeaker st (iGuildId i) (iUserId i)) |} ]
          [ SelectMenuRow (lit "speakerSelected") "Choose the speaker..."
              (map (speakerOption None) getSpeakers) ])
   /\ (length getSpeakers <= 25)%nat)
  \/ slashVoice st i = Threw Refused.
Proof.
  unfold slashVoice.
  destruct (header_cases (currentSpeaker st (iGuildId i) (iUserId i)))
    as [-> | ->]; [|by right].
  destruct (menu_cases None) as [[-> Hlen] | ->]; [by left | by right].
Qed.

(** What [selectMenuSpeakerSelected] comes to. *)
Lemma selectMenu_cases st i uuid :
  (exists speaker,
     getSpeakerByUUID uuid = Some speaker
     /\ (length getSpeakers <= 25)%nat
     /\ selectMenuSpeakerSelected st i uuid
        = Responded
            (Update
               [ {| eFooter := "sarisia/zundacord"; eColor := COLOR_ACTION;
                    eTitle := "Select your voice!"; eDescription := None;
                    eFields := headerFields
                                 (currentSpeaker st (iGuildId i)
                                    (iUserId i)) |};
                 termsEmbed (speakerInfoPolicy uuid) ]
               [ SelectMenuRow (lit "speakerSelected")
                   "Choose the speaker..."
                   (map (speakerOption (Some uuid)) getSpeakers);
                 ButtonRow (map styleButton (styles speaker)) ]))
  \/ selectMenuSpeakerSelected st i uuid = Threw Refused
  \/ (getSpeakerByUUID uuid = None
      /\ selectMenuSpeakerSelected st i uuid
         = Threw (Raised (lit "speakerUuid does not exist: " ++ uuid))).
Proof.
  unfold selectMenuSpeakerSelected.
  destruct (header_cases (currentSpeaker st (iGuildId i) (iUserId i)))
    as [-> | ->]; [|by right; left].
  destruct (setDescription_cases (speakerInfoPolicy uuid)) as [-> | ->];
    [|by right; left].
  destruct (menu_cases (Some uuid)) as [[-> Hlen] | ->]; [|by right; left].
  pose proof (buttons_cases uuid) as Hb.
  destruct (getSpeakerByUUID uuid) as [speaker|].
  - destruct Hb as [-> | ->]; [left|by right; left]. by exists speaker.
  - rewrite Hb. by right; right.
Qed.

(** X14.  Every component the bot sends comes back to its handler: a
    selection in a menu made by [getVoiceSpeakerSelectMenu] is dispatched
    to [selectMenuSpeakerSelected], and a press on a button made by
    [getVoiceSpeakerStyleButtons] is dispatched to
    [buttonSpeakerStyleSeleceted], which reads back from the custom id the
    id of the style the button was made for. *)
Theorem components_route_back st i :
  inCachedGuild (base i) = true ->
  (forall sel customId placeholder options value0,
     getVoiceSpeakerSelectMenu sel
       = Done (SelectMenuRow customId placeholder options) ->
     kind i = SelectMenu customId value0 ->
     onInteractionCreate st i
       = (st, selectMenuSpeakerSelected st (base i) value0))
  /\ (forall uuid rows buttons b,
        getVoiceSpeakerStyleButtons uuid = Done rows ->
        ButtonRow buttons ∈ rows -> b ∈ buttons ->
        kind i = ButtonPressed (bCustomId b) ->
        exists speaker style,
          getSpeakerByUUID uuid = Some speaker
          /\ style ∈ styles speaker
          /\ bLabel b = stName style
          /\ pressedStyleId (bCustomId b) = number_to_string (stId style)
          /\ onInteractionCreate st i
             = buttonSpeakerStyleSeleceted st (base i) (bCustomId b)).
Proof.
  intros Hc. destruct no_slash_in_commands as [Hstyle Hsel]. split.
  - intros sel customId placeholder options value0 Hmenu Hk.
    assert (customId = lit "speakerSelected") as ->.
    { destruct (menu_cases sel) as [[E _]|E]; congruence. }
    unfold onInteractionCreate. rewrite Hc, Hk. simpl negb. cbv iota.
    rewrite (customCommand_whole _ Hsel).
    unfold eqs. by rewrite bool_decide_eq_true_2.
  - intros uuid rows buttons b Hrows Hrow Hb Hk.
    destruct (buttons_made uuid rows Hrows) as (speaker & Hsp & ->).
    apply list_elem_of_singleton in Hrow.
    assert (Hbs : buttons = map styleButton (styles speaker))
      by congruence.
    rewrite Hbs in Hb. apply list_elem_of_fmap in Hb as (style & Hbst & Hs).
    exists speaker, style. rewrite Hbst in *. unfold styleButton in *.
    cbn [bCustomId bLabel] in *.
    split; [done|]. split; [done|].
    split; [done|]. split; [apply pressedStyleId_prefixed|].
    unfold onInteractionCreate. rewrite Hc, Hk. simpl negb. cbv iota.
    rewrite style_prefix, (customCommand_prefixed _ _ Hstyle).
    unfold eqs. by rewrite bool_decide_eq_true_2.
Qed.

(** X15.  What a button press looks up: a custom id is dispatched to
    [buttonSpeakerStyleSeleceted] when it is ["speakerStyleSelected"] or
    begins with ["speakerStyleSelected/"]; the style id looked up is the
    whole custom id in the first case, and in the second all that follows
    the first slash, further slashes included. *)
Theorem pressed_style_id customId :
  customCommand customId = Some (lit "speakerStyleSelected") ->
  (customId = lit "speakerStyleSelected" /\ pressedStyleId customId = customId)
  \/ (exists rest, customId = lit "speakerStyleSelected/" ++ rest
                   /\ pressedStyleId customId = rest).
Proof.
  rewrite customCommand_head. intros Hh.
  apply head_split in Hh as (_ & [->|(rest & ->)]).
  - left. split; [done|]. by vm_compute.
  - right. exists rest. rewrite <- style_prefix. split; [done|].
    apply pressedStyleId_prefixed.
Qed.

Lemma slashVoice_answers st i : slashVoice st i <> Ignored.
Proof. by destruct (slashVoice_cases st i) as [[-> _] | ->]. Qed.

(** X16.  The commands the bot registers are the commands it answers: in
    a cached guild, a chat input or message context menu command gets an
    answer exactly when a command of its name and type is in the list
    [registerCommands] sends. *)
Theorem registered_commands_are_handled st i c target :
  inCachedGuild (base i) = true ->
  kind i = invocation c target ->
  (onInteractionCreate st i).2 <> Ignored
  <-> exists c', c' ∈ registerCommands
                 /\ cName c' = cName c /\ cType c' = cType c.
Proof.
  intros Hc Hk. unfold onInteractionCreate. rewrite Hc, Hk. simpl negb.
  cbv iota. unfold invocation, eqs, registerCommands.
  destruct (cType c); cbv iota.
  - repeat case_bool_decide; cbn [snd replied]; split; try done.
    + intros _. eexists. split; [apply list_elem_of_here|]. by simpl.
    + intros _. apply slashVoice_answers.
    + intros _. eexists.
      split; [apply list_elem_of_further, list_elem_of_here|]. by simpl.
    + intros _. eexists.
      split; [do 2 apply list_elem_of_further; apply list_elem_of_here|].
      by simpl.
    + intros (c' & Hin & Hn & Ht).
      repeat (apply elem_of_cons in Hin as [->|Hin]); simpl in *;
        try done; try congruence. by apply elem_of_nil in Hin.
  - case_bool_decide; cbn [snd replied]; split; try done.
    + intros _. eexists.
      split; [do 3 apply list_elem_of_further; apply list_elem_of_here|].
      by simpl.
    + intros (c' & Hin & Hn & Ht).
      repeat (apply elem_of_cons in Hin as [->|Hin]); simpl in *;
        try done; try congruence. by apply elem_of_nil in Hin.
Qed.

Lemma described_inj e1 e2 : described e1 = described e2 ->
  title e1 = title e2 /\ lit (description e1) = lit (description e2).
Proof. unfold described. intros [= _ _ Ht Hd]. by split. Qed.

(** X17.  The answer "The bot is not in the guild" of [slashSkip] is never
    sent: the dispatcher hands [slashSkip] only interactions of cached
    guilds, and no other handler answers with that embed. *)
Theorem skip_guard_is_dead st i ephemeral components :
  (onInteractionCreate st i).2
  <> Responded
       (Reply ephemeral
          [described (zundaEmbed COLOR_FAILURE "Cannot skip"
                        "The bot is not in the guild")]
          components).
Proof.
  unfold onInteractionCreate.
  destruct (inCachedGuild (base i)) eqn:Hc; simpl negb; cbv iota; [|done].
  destruct (kind i) as [name|name target|customId value0|customId|];
    unfold eqs; repeat case_bool_decide; try done.
  - cbn [snd].
    by destruct (slashVoice_cases st (base i)) as [[-> _] | ->].
  - unfold replied, slashJoin.
    destruct (voiceConnections st !! _);
      [|destruct (iMember (base i)) as [m|];
        [destruct (voiceChannel m)|]];
      simpl; intros [= _ E%described_inj]; destruct E as [E _];
      discriminate E.
  - unfold replied, slashSkip. rewrite Hc. simpl negb. cbv iota.
    destruct (guildPlayers st !! _); simpl;
      intros [= _ E%described_inj]; destruct E as [_ E];
      vm_compute in E; discriminate E.
  - unfold replied, messageContextReadThisMessage.
    destruct (getMemberVoiceStyleId _ _ _); simpl;
      intros [= _ E%described_inj]; destruct E as [E _]; discriminate E.
  - destruct (customCommand customId); [|done].
    case_bool_decide; [|done]. cbn [snd].
    destruct (selectMenu_cases st (base i) value0)
      as [(sp & _ & _ & ->) | [-> | [_ ->]]]; done.
  - destruct (customCommand customId); [|done].
    case_bool_decide; [|done]. unfold buttonSpeakerStyleSeleceted.
    destruct (getSpeakerById _) as [speaker|]; cbn [snd]; [|done].
    by destruct (setFields_cases (chosenFields speaker)) as [[-> _]|[-> _]].
Qed.

(** X18.  After a press that found its style, [/voice] shows the choice.
    When the service finds the stored style id again, what [/voice] builds
    for the same member in the same guild is the header of that speaker
    and the menu; if it answers, the header names the speaker and the
    style (by ["(Not set)"] where a name is empty) above a menu that lists
    the speakers of the service in order, none marked; and it throws
    without an answer when the service has more than 25 speakers. *)
Theorem voice_shows_the_choice st i customId speaker i' :
  getSpeakerById (pressedStyleId customId) = Some speaker ->
  getSpeakerById (number_to_string (ssStyleId speaker)) = Some speaker ->
  iGuildId i' = iGuildId i -> iUserId i' = iUserId i ->
  let st' := (buttonSpeakerStyleSeleceted st i customId).1 in
  currentSpeaker st' (iGuildId i') (iUserId i') = Some speaker
  /\ (forall r, slashVoice st' i' = Responded r ->
      exists header options,
        r = Reply true [header]
              [SelectMenuRow (lit "speakerSelected") "Choose the speaker..."
                 options]
        /\ map fValue (eFields header)
           = [or_else (Some (spName (ssSpeaker speaker))) (lit "(Not set)");
              or_else (Some (ssStyleName speaker)) (lit "(Not set)")]
        /\ map oValue options = map speaker_uuid getSpeakers
        /\ Forall (fun o => oDefault o = false) options
        /\ (length getSpeakers <= 25)%nat)
  /\ ((25 < length getSpeakers)%nat -> slashVoice st' i' = Threw Refused).
Proof.
  intros Hpressed Hstored Hg Hu st'.
  assert (Hcur : currentSpeaker st' (iGuildId i') (iUserId i') = Some speaker).
  { unfold st', buttonSpeakerStyleSeleceted. rewrite Hpressed. cbn [fst].
    unfold currentSpeaker, getMemberVoiceStyleId. rewrite Hg, Hu. simpl.
    by rewrite lookup_insert_eq, Hstored. }
  split; [done|]. split.
  - intros r Hr.
    destruct (slashVoice_cases st' i') as [[E Hlen] | E];
      rewrite E in Hr; [|done].
    injection Hr as <-. rewrite Hcur. do 2 eexists.
    split; [reflexivity|]. split; [done|].
    split; [by rewrite <- list_fmap_compose|]. split; [|done].
    apply Forall_fmap, Forall_forall. intros s _. done.
  - intros Hlen. unfold slashVoice.
    destruct (header_cases (currentSpeaker st' (iGuildId i') (iUserId i')))
      as [-> | ->]; [|done].
    by rewrite (menu_crowded _ Hlen).
Qed.

(** X19.  An interaction touches the stored voices only through a button
    press that finds its style, and then only the voice of the member who
    pressed, in the guild of the press; the application id never
    changes. *)
Theorem press_sets_own_voice_only st i :
  let st' := (onInteractionCreate st i).1 in
  applicationId st' = applicationId st
  /\ (config st' <> config st ->
      exists customId speaker,
        kind i = ButtonPressed customId
        /\ getSpeakerById (pressedStyleId customId) = Some speaker
        /\ config st'
           = <[(iGuildId (base i), iUserId (base i)) := ssStyleId speaker]>
               (config st))
  /\ (forall g u, (g, u) <> (iGuildId (base i), iUserId (base i)) ->
                  getMemberVoiceStyleId st' g u
                  = getMemberVoiceStyleId st g u).
Proof.
  unfold onInteractionCreate.
  destruct (inCachedGuild (base i)) eqn:Hc; simpl negb; cbv iota; [|done].
  destruct (kind i) as [name|name target|customId value0|customId|];
    unfold eqs; repeat case_bool_decide; try done.
  - unfold replied, slashJoin. destruct (voiceConnections st !! _); [done|].
    destruct (iMember (base i)) as [m|]; [|done].
    by destruct (voiceChannel m).
  - unfold replied, slashSkip. rewrite Hc. simpl negb. cbv iota.
    by destruct (guildPlayers st !! _).
  - unfold replied, messageContextReadThisMessage.
    destruct (getMemberVoiceStyleId _ _ _) as [sid|]; [|done].
    cbn [fst mcGuildId mcUserId targetMessage]. unfold queueMessage.
    by destruct (guildPlayers st !! _).
  - by destruct (customCommand customId); [case_bool_decide|].
  - destruct (customCommand customId); [|done].
    case_bool_decide; [|done].
    unfold buttonSpeakerStyleSeleceted.
    destruct (getSpeakerById (pressedStyleId customId)) as [speaker|] eqn:E;
      [|done].
    cbn [fst]. unfold getMemberVoiceStyleId. simpl.
    split; [done|]. split.
    + intros _. by exists customId, speaker.
    + intros g u Hne. by rewrite lookup_insert_ne.
Qed.

(** X20.  What a selection in the menu comes to.  If
    [selectMenuSpeakerSelected] answers, the service knows the selected
    speaker and has at most 25 speakers, and the answer updates the message
    with the header, the terms of the speaker, the menu and one row of
    buttons: the menu lists the speakers of the service in order and marks
    those of the selected uuid, and the row has one button per style of
    the speaker, in order, labelled with the name of the style, whose
    custom id gives back the id of the style.  It never ends without
    answering or throwing; it throws, and sends nothing, when the service
    does not know the speaker or has more than 25 speakers; and when the
    error is its own, the message names the uuid and the speaker is
    unknown. *)
Theorem speaker_selection_offers_styles st i speakerUuid :
  (forall r, selectMenuSpeakerSelected st i speakerUuid = Responded r ->
     exists speaker header options buttons,
       getSpeakerByUUID speakerUuid = Some speaker
       /\ r = Update [header; termsEmbed (speakerInfoPolicy speakerUuid)]
                [SelectMenuRow (lit "speakerSelected")
                   "Choose the speaker..." options;
                 ButtonRow buttons]
       /\ map oValue options = map speaker_uuid getSpeakers
       /\ Forall (fun o => oDefault o = true <-> oValue o = speakerUuid)
            options
       /\ (length options <= 25)%nat
       /\ map bLabel buttons = map stName (styles speaker)
       /\ map (fun b => pressedStyleId (bCustomId b)) buttons
          = map (fun st => number_to_string (stId st)) (styles speaker))
  /\ selectMenuSpeakerSelected st i speakerUuid <> Ignored
  /\ (getSpeakerByUUID speakerUuid = None \/ (25 < length getSpeakers)%nat ->
      exists e, selectMenuSpeakerSelected st i speakerUuid = Threw e)
  /\ (forall message,
        selectMenuSpeakerSelected st i speakerUuid = Threw (Raised message) ->
        message = lit "speakerUuid does not exist: " ++ speakerUuid
        /\ getSpeakerByUUID speakerUuid = None).
Proof.
  destruct (selectMenu_cases st i speakerUuid)
    as [(speaker & Hsp & Hlen & E) | [E | [Hsp E]]]; rewrite E.
  - split; [|split; [done|split; [|done]]].
    + intros r [= <-]. exists speaker. do 3 eexists.
      split; [done|]. split; [reflexivity|].
      split; [by rewrite <- list_fmap_compose|]. split; [|split].
      * apply Forall_fmap, Forall_forall. intros s _.
        unfold speakerOption. simpl. rewrite bool_decide_eq_true.
        split; congruence.
      * by rewrite length_map.
      * split; rewrite <- list_fmap_compose; [done|].
        apply list_fmap_ext. intros k style _. simpl.
        apply pressedStyleId_prefixed.
    + intros [Hnone | Hmany]; [congruence | lia].
  - split; [done|]. split; [done|]. split; [by eexists | done].
  - split; [done|]. split; [done|]. split; [by eexists|].
    by intros message [= <-].
Qed.

(** X21.  The fields [embedSelectVoiceHeader] gives to [setFields] are
    never empty: a missing speaker and an empty name are both shown as
    ["(Not set)"]; so the header is built, or is refused for another
    reason than an empty value. *)
Theorem header_fields_are_never_empty speaker :
  Forall (fun f => fValue f <> []) (headerFields speaker)
  /\ (speaker = None ->
      map fValue (headerFields speaker) = [lit "(Not set)"; lit "(Not set)"])
  /\ ((exists header, embedSelectVoiceHeader speaker = Done header
                      /\ eFields header = headerFields speaker)
      \/ (embedSelectVoiceHeader speaker = Throws Refused
          /\ exists f, f ∈ headerFields speaker /\ fieldFits f = false)).
Proof.
  assert (Hor : forall x d, d <> [] -> or_else x d <> []).
  { intros [[|c t]|] d Hd; simpl; done. }
  assert (Hne : Forall (fun f => fValue f <> []) (headerFields speaker)).
  { unfold headerFields.
    repeat (apply List.Forall_cons; [apply Hor; by vm_compute|]).
    apply List.Forall_nil. }
  split; [done|]. split; [by intros ->|].
  unfold embedSelectVoiceHeader.
  destruct (setFields_cases (headerFields speaker))
    as [[-> _] | [-> (f & Hf & [Hv|Hfit])]].
  - left. by eexists.
  - exfalso. by apply (proj1 (Forall_forall _ _) Hne f).
  - right. split; [done|]. by exists f.
Qed.

(** X25.  The voice is stored before the answer is built: after a press
    that found its style the member has that voice, whether the handler
    then answers or throws; it throws, the voice stored all the same, when
    the speaker or the style has an empty name; and if it answers, the
    answer names both. *)
Theorem voice_is_stored_before_the_answer st i customId speaker :
  getSpeakerById (pressedStyleId customId) = Some speaker ->
  let r := buttonSpeakerStyleSeleceted st i customId in
  getMemberVoiceStyleId r.1 (iGuildId i) (iUserId i)
  = Some (ssStyleId speaker)
  /\ (spName (ssSpeaker speaker) = [] \/ ssStyleName speaker = [] ->
      r.2 = Threw Refused)
  /\ (forall response, r.2 = Responded response ->
      exists embed,
        response = Update [embed] []
        /\ eTitle embed = "Voice is set!"
        /\ map fValue (eFields embed)
           = [spName (ssSpeaker speaker); ssStyleName speaker]
        /\ spName (ssSpeaker speaker) <> []
        /\ ssStyleName speaker <> []).
Proof.
  intros Hpressed r. unfold r, buttonSpeakerStyleSeleceted.
  rewrite Hpressed. cbn [fst snd]. split.
  { unfold getMemberVoiceStyleId. simpl. by rewrite lookup_insert_eq. }
  destruct (setFields_cases (chosenFields speaker))
    as [[-> Hall] | [-> (f & Hf & Hbad)]]; simpl.
  - apply Forall_cons in Hall as [[Hn _] Hall].
    apply Forall_cons in Hall as [[Hs _] _]. simpl in Hn, Hs.
    split; [by intros [?|?]|].
    intros response [= <-]. by eexists.
  - split; [done|]. by intros response.
Qed.

End WithVoiceVox.

(** X23.  [onReady] throws when the client has no application id or an
    empty one; otherwise it stores the id, changes nothing else, and
    registers the four commands.  The bot made by the constructor is then
    the initial state with that id. *)
Theorem ready_stores_the_id config application st commands :
  onReady (construct config) application = Some (st, commands) ->
  application = Some (applicationId st) /\ applicationId st <> ""
  /\ st = init (applicationId st) config
  /\ commands = registerCommands.
Proof.
  unfold onReady. destruct application as [a|]; [|done].
  destruct (String.eqb_spec a ""); [done|]. by intros [= <- <-].
Qed.

Lemma components_route_back_witness :
  exists speaker style,
    @getSpeakerByUUID Samples.voicevox (lit "388f246b") = Some speaker
    /\ style ∈ styles speaker
    /\ pressedStyleId (lit "speakerStyleSelected/3")
       = @number_to_string Samples.numbers (stId style).
Proof.
  destruct (@components_route_back Samples.voicevox Samples.builders
              Samples.numbers basic_latin_only Scenario.bot
              (Samples.press
                 (bCustomId (@styleButton Samples.numbers Samples.normal))))
    as [_ Hb]; [reflexivity|].
  destruct (Hb (lit "388f246b")
              [ButtonRow (map (@styleButton Samples.numbers)
                            (styles Samples.zundamon))]
              (map (@styleButton Samples.numbers) (styles Samples.zundamon))
              (@styleButton Samples.numbers Samples.normal))
    as (speaker & style & H1 & H2 & _ & H4 & _).
  - by vm_compute.
  - apply list_elem_of_here.
  - apply list_elem_of_here.
  - reflexivity.
  - exists speaker, style. split; [exact H1|]. split; [exact H2 | exact H4].
Defined.

Lemma pressed_style_id_witness :
  (lit "speakerStyleSelected/1/2" = lit "speakerStyleSelected"
   /\ pressedStyleId (lit "speakerStyleSelected/1/2")
      = lit "speakerStyleSelected/1/2")
  \/ (exists rest,
        lit "speakerStyleSelected/1/2" = lit "speakerStyleSelected/" ++ rest
        /\ pressedStyleId (lit "speakerStyleSelected/1/2") = rest).
Proof.
  apply (pressed_style_id (lit "speakerStyleSelected/1/2")). by vm_compute.
Defined.

Lemma registered_commands_are_handled_witness :
  (@onInteractionCreate Samples.voicevox Samples.builders Samples.numbers
     basic_latin_only Scenario.bot (Samples.command "skip")).2
  <> Ignored.
Proof.
  apply (@registered_commands_are_handled Samples.voicevox Samples.builders
           Samples.numbers basic_latin_only
           Scenario.bot (Samples.command "skip")
           {| cName := lit "skip";
              cDescription := Some "Skip the message reading now";
              cType := ChatInput |}
           (Scenario.said "u" "hello")).
  - reflexivity.
  - reflexivity.
  - eexists. split; [do 2 apply list_elem_of_further; apply list_elem_of_here|].
    split; reflexivity.
Defined.

Lemma voice_shows_the_choice_witness :
  @currentSpeaker Samples.voicevox Samples.numbers
    (@buttonSpeakerStyleSeleceted Samples.voicevox Samples.builders
       Scenario.bot Scenario.skip (lit "speakerStyleSelected/1")).1
    "g" "u"
  = Some (Samples.styled Samples.zundamon Samples.sweet)
  /\ @slashVoice Samples.voicevox Samples.builders Samples.numbers
       (@buttonSpeakerStyleSeleceted Samples.voicevox Samples.builders
          Scenario.bot Scenario.skip (lit "speakerStyleSelected/1")).1
       Scenario.skip
     <> Threw Refused
  /\ @slashVoice Samples.crowd Samples.builders Samples.numbers
       (@buttonSpeakerStyleSeleceted Samples.crowd Samples.builders
          Scenario.bot Scenario.skip (lit "speakerStyleSelected/1")).1
       Scenario.skip
     = Threw Refused.
Proof.
  assert (H1 : @getSpeakerById Samples.voicevox
                 (pressedStyleId (lit "speakerStyleSelected/1"))
               = Some (Samples.styled Samples.zundamon Samples.sweet))
    by (by vm_compute).
  assert (H2 : @getSpeakerById Samples.voicevox
                 (@number_to_string Samples.numbers
                    (ssStyleId (Samples.styled Samples.zundamon Samples.sweet)))
               = Some (Samples.styled Samples.zundamon Samples.sweet))
    by (by vm_compute).
  pose proof (@voice_shows_the_choice Samples.voicevox Samples.builders
                Samples.numbers Scenario.bot Scenario.skip
                (lit "speakerStyleSelected/1")
                (Samples.styled Samples.zundamon Samples.sweet) Scenario.skip
                H1 H2 eq_refl eq_refl) as (Hcur & _ & _).
  pose proof (@voice_shows_the_choice Samples.crowd Samples.builders
                Samples.numbers Scenario.bot Scenario.skip
                (lit "speakerStyleSelected/1")
                (Samples.styled Samples.zundamon Samples.sweet) Scenario.skip
                H1 H2 eq_refl eq_refl) as (_ & _ & Hmany).
  split; [exact Hcur|]. split; [by vm_compute|].
  apply Hmany. simpl. lia.
Defined.

Lemma speaker_selection_offers_styles_witness :
  exists r,
    @selectMenuSpeakerSelected Samples.voicevox Samples.builders
      Samples.numbers Scenario.bot Scenario.skip (lit "388f246b")
    = Responded r
    /\ exists speaker header options buttons,
         @getSpeakerByUUID Samples.voicevox (lit "388f246b") = Some speaker
         /\ r = Update
                  [header;
                   termsEmbed
                     (@speakerInfoPolicy Samples.voicevox (lit "388f246b"))]
                  [SelectMenuRow (lit "speakerSelected")
                     "Choose the speaker..." options;
                   ButtonRow buttons]
         /\ map bLabel buttons = [lit "Normal"; lit "Sweet"].
Proof.
  destruct (@speaker_selection_offers_styles Samples.voicevox
              Samples.builders Samples.numbers Scenario.bot Scenario.skip
              (lit "388f246b")) as (Hanswer & _).
  eexists. split; [reflexivity|].
  destruct (Hanswer _ eq_refl)
    as (speaker & header & options & buttons & Hsp & Hr & _ & _ & _ & Hb & _).
  exists speaker, header, options, buttons.
  split; [exact Hsp|]. split; [exact Hr|].
  rewrite Hb. vm_compute in Hsp. injection Hsp as <-. reflexivity.
Defined.

Lemma voice_is_stored_before_the_answer_witness :
  getMemberVoiceStyleId
    (@buttonSpeakerStyleSeleceted Samples.odd Samples.builders Scenario.bot
       Scenario.skip (lit "speakerStyleSelected/7")).1 "g" "u"
  = Some 7
  /\ (@buttonSpeakerStyleSeleceted Samples.odd Samples.builders Scenario.bot
        Scenario.skip (lit "speakerStyleSelected/7")).2
     = Threw Refused.
Proof.
  destruct (@voice_is_stored_before_the_answer Samples.odd Samples.builders
              Scenario.bot Scenario.skip (lit "speakerStyleSelected/7")
              Samples.nameless) as (Hstored & Hthrows & _).
  - by vm_compute.
  - split; [exact Hstored|]. apply Hthrows. right. reflexivity.
Defined.

Lemma ready_stores_the_id_witness :
  Some "bot" = Some (applicationId Scenario.bot)
  /\ applicationId Scenario.bot <> ""
  /\ Scenario.bot = init (applicationId Scenario.bot) {[ ("g", "u") := 3 ]}
  /\ registerCommands = registerCommands.
Proof.
  apply (ready_stores_the_id {[ ("g", "u") := 3 ]} (Some "bot") Scenario.bot
           registerCommands).
  reflexivity.
Defined.

End UiExtras.
